(** * mermadoc: the diagram preprocessing and multi-document assembly
    pipeline of [MdToDocxConverter] (src/converter.ts), embedded in Rocq.

    JavaScript strings are modelled as lists of code units ([list ascii]).
    JavaScript numbers that hold indices, lengths, parsed integers and
    comparison results are modelled as [Z]: this is what JavaScript
    computes as long as the values stay below 2^53. The file system and
    the log are explicit state; the external renderer process, the hash
    function, the document engine and [localeCompare] are parameters. *)

From Stdlib Require Import ZArith Ascii String Lia Bool.
From stdpp Require Import base option list gmap strings.

Set Default Proof Using "Type".

(** ** JavaScript strings *)

Abbreviation jstring := (list ascii).

Definition js (s : string) : jstring := list_ascii_of_string s.

Definition LF : ascii := ascii_of_nat 10.
Definition DQUOTE : ascii := ascii_of_nat 34.

(** [String.prototype.startsWith], and the test a regular expression
    performs for a literal at the current position. *)
Fixpoint starts_with (p s : jstring) : bool :=
  match p, s with
  | [], _ => true
  | _ :: _, [] => false
  | a :: p', b :: s' => Ascii.eqb a b && starts_with p' s'
  end.

(** [String.prototype.endsWith]. *)
Definition ends_with (p s : jstring) : bool :=
  starts_with (rev p) (rev s).

(** Index of the first occurrence of the literal [p] in [s], the way a
    regular expression engine advances one position at a time. *)
Fixpoint find (p s : jstring) : option nat :=
  if starts_with p s then Some 0
  else match s with
       | [] => None
       | _ :: s' => S <$> find p s'
       end.

(** [String.prototype.substring(start, end)]: both indices are clamped
    to [0, length] and swapped when start > end. *)
Definition clamp (len : nat) (i : Z) : nat :=
  Z.to_nat (Z.min (Z.max i 0) (Z.of_nat len)).

Definition substring (s : jstring) (a b : Z) : jstring :=
  let a' := clamp (length s) a in
  let b' := clamp (length s) b in
  take (Nat.max a' b' - Nat.min a' b') (drop (Nat.min a' b') s).

(** [String.prototype.substring(start)]. *)
Definition substring_from (s : jstring) (a : Z) : jstring :=
  drop (clamp (length s) a) s.

(** [String.prototype.trim]: white space and line terminators among the
    code units below 256 are TAB, LF, VT, FF, CR, SPACE and NBSP. *)
Definition is_white_space (c : ascii) : bool :=
  let n := nat_of_ascii c in
  ((9 <=? n) && (n <=? 13)) || (n =? 32) || (n =? 160).

Fixpoint trimStart (s : jstring) : jstring :=
  match s with
  | [] => []
  | c :: s' => if is_white_space c then trimStart s' else s
  end.

Definition trimEnd (s : jstring) : jstring := rev (trimStart (rev s)).

Definition trim (s : jstring) : jstring := trimEnd (trimStart s).

(** ** Diagram block scanner *)

Record MermaidBlock := mkBlock {
  code : jstring;
  startIndex : Z;
  endIndex : Z
}.

(** The literal parts of the regular expression
    [/```mermaid\n([\s\S]*?)```/g]. *)
Definition fence_close : jstring := js "```".
Definition fence_open : jstring := js "```mermaid" ++ [LF].

(** One attempt to match the regular expression at the start of [t]:
    the opening literal, the shortest run of arbitrary characters that is
    followed by the closing literal, and the closing literal. The result
    is the captured group and the length of the whole match. *)
Definition match_here (t : jstring) : option (jstring * nat) :=
  if starts_with fence_open t then
    let rest := drop (length fence_open) t in
    match find fence_close rest with
    | Some j => Some (take j rest, length fence_open + j + length fence_close)
    | None => None
    end
  else None.

(** [regex.exec] from the current [lastIndex]: the first position at
    which the expression matches. The result is the distance of the match
    from [lastIndex], the captured group and the match length. *)
Fixpoint exec_from (t : jstring) : option (nat * jstring * nat) :=
  match match_here t with
  | Some (body, len) => Some (0, body, len)
  | None =>
      match t with
      | [] => None
      | _ :: t' =>
          match exec_from t' with
          | Some (i, body, len) => Some (S i, body, len)
          | None => None
          end
      end
  end.

(** The [while ((match = regex.exec(markdown)) !== null)] loop; [base] is
    [regex.lastIndex] and [t] the text from there on. Every match is at
    least 14 code units long, so [fuel] bounded by the text length is
    never exhausted (see [scan_fuel]). *)
Fixpoint scan (fuel : nat) (base : nat) (t : jstring) : list MermaidBlock :=
  match fuel with
  | O => []
  | S fuel' =>
      match exec_from t with
      | None => []
      | Some (i, body, len) =>
          mkBlock (trim body) (Z.of_nat (base + i))
                  (Z.of_nat (base + i) + Z.of_nat len)
          :: scan fuel' (base + i + len) (drop (i + len) t)
      end
  end.

Definition extractMermaidBlocks (markdown : jstring) : list MermaidBlock :=
  scan (length markdown) 0 markdown.

(** ** Paths, the file system and the outside world *)

(** An absolute path, as [path.resolve] returns it, is the list of its
    segments below the root; [path.join(dir, name)] appends a segment and
    [path.dirname] removes the last one. *)
Abbreviation path := (list jstring).

Definition path_join (dir : path) (name : jstring) : path := dir ++ [name].
Definition path_dirname (p : path) : path := removelast p.
Definition path_basename (p : path) : jstring := List.last p [].

(** A file holds its content (text files are kept decoded); a directory
    holds the names [fs.readdirSync] enumerates, in the order the
    operating system returns them. *)
Inductive node :=
  | File (content : jstring)
  | Dir (entries : list jstring).

Inductive errno := ENOENT | EISDIR | ENOTDIR | EEXIST.

(** The [node:fs] call an exception comes from. *)
Inductive fscall := ReadFile | WriteFile | Mkdir | Stat | Readdir.

(** The exceptions of the converter: the [Error] objects it throws, named
    after the message each carries, and the failures of the platform
    calls it makes. *)
Inductive error :=
  | InputNotFound (p : path)          (* Input file not found: p *)
  | DirectoryNotFound (p : path)      (* Input directory not found: p *)
  | NotADirectory (p : path)          (* Not a directory: p *)
  | NoEligibleFiles (p : path)        (* No markdown files found in: p *)
  | NoInputFiles                      (* No input files provided *)
  | UnexpectedOutputType              (* Unexpected result type from docx conversion *)
  | RenderEngineFailure (msg : jstring) (* thrown by processor.process *)
  | RenderFailure (stderr : jstring)  (* Mermaid rendering failed: stderr *)
  | RenderOutputMissing               (* Mermaid output file not created *)
  | SpawnFailure (msg : jstring)      (* the error event of the child process *)
  | FsFailure (call : fscall) (e : errno) (p : path). (* thrown by node:fs *)

Inductive result (A : Type) :=
  | Ok (a : A)
  | Err (e : error).
Arguments Ok {A} a.
Arguments Err {A} e.

(** The state a conversion call runs in: the file system, the renderer
    processes spawned so far (their -i and -o arguments) and the lines
    written with [console.error]. *)
Record World := mkWorld {
  fs : gmap path node;
  spawned : list (path * path);
  console : list error
}.

(** A computation that may throw and that changes the world; the effects
    made before a throw stay. *)
Definition M (A : Type) : Type := World -> result A * World.

Definition ret {A} (a : A) : M A := fun w => (Ok a, w).
Definition throw {A} (e : error) : M A := fun w => (Err e, w).
Definition bind {A B} (c : M A) (k : A -> M B) : M B :=
  fun w => match c w with
           | (Ok a, w') => k a w'
           | (Err e, w') => (Err e, w')
           end.

Notation "'let*' x ':=' c 'in' k" := (bind c (fun x => k))
  (at level 10, x pattern, c at level 100, k at level 200).
Notation "c ';;' k" := (bind c (fun _ => k))
  (at level 100, k at level 200, right associativity).

(** [try { body } catch (e) { handler(e) }]. *)
Definition try_catch {A} (body : M A) (handler : error -> M A) : M A :=
  fun w => match body w with
           | (Ok a, w') => (Ok a, w')
           | (Err e, w') => handler e w'
           end.

Definition existsSync (p : path) : M bool :=
  fun w => (Ok (bool_decide (is_Some (fs w !! p))), w).

Definition readFileSync (p : path) : M jstring :=
  fun w => match fs w !! p with
           | Some (File c) => (Ok c, w)
           | Some (Dir _) => (Err (FsFailure ReadFile EISDIR p), w)
           | None => (Err (FsFailure ReadFile ENOENT p), w)
           end.

Definition is_directory (p : path) : M bool :=
  fun w => match fs w !! p with
           | Some (Dir _) => (Ok true, w)
           | Some (File _) => (Ok false, w)
           | None => (Err (FsFailure Stat ENOENT p), w)
           end.

Definition readdirSync (p : path) : M (list jstring) :=
  fun w => match fs w !! p with
           | Some (Dir es) => (Ok es, w)
           | Some (File _) => (Err (FsFailure Readdir ENOTDIR p), w)
           | None => (Err (FsFailure Readdir ENOENT p), w)
           end.

Definition add_entry (name : jstring) (es : list jstring) : list jstring :=
  if bool_decide (name ∈ es) then es else es ++ [name].

Definition set_fs (f : gmap path node) (w : World) : World :=
  mkWorld f (spawned w) (console w).

(** Creating or overwriting the file [p] registers its name in the
    parent directory, which must exist. *)
Definition put_file (p : path) (c : jstring) (f : gmap path node)
  : result (gmap path node) :=
  match f !! p with
  | Some (Dir _) => Err (FsFailure WriteFile EISDIR p)
  | _ =>
      match f !! path_dirname p with
      | Some (Dir es) =>
          Ok (<[p := File c]>
                (<[path_dirname p := Dir (add_entry (path_basename p) es)]> f))
      | Some (File _) => Err (FsFailure WriteFile ENOTDIR p)
      | None => Err (FsFailure WriteFile ENOENT p)
      end
  end.

Definition writeFileSync (p : path) (c : jstring) : M unit :=
  fun w => match put_file p c (fs w) with
           | Ok f => (Ok tt, set_fs f w)
           | Err e => (Err e, w)
           end.

(** [fs.mkdirSync(p, { recursive: true })]: every missing directory on
    the way from [pre] down to [pre ++ segs] is created. A regular file
    on the way makes the call fail, and the exception names the path
    the call was given: ENOTDIR when the file is an ancestor of that
    path, EEXIST when it is the path itself. This file system has no
    permissions and no quota, so the call fails for no other reason. *)
Fixpoint make_dirs (f : gmap path node) (pre : path) (segs : list jstring)
  : result (gmap path node) :=
  match segs with
  | [] => Ok f
  | s :: segs' =>
      let q := pre ++ [s] in
      match f !! q with
      | Some (Dir _) => make_dirs f q segs'
      | Some (File _) =>
          Err (FsFailure Mkdir (match segs' with [] => EEXIST | _ :: _ => ENOTDIR end)
                         (q ++ segs'))
      | None =>
          let f' := match f !! pre with
                    | Some (Dir es) => <[pre := Dir (add_entry s es)]> f
                    | _ => f
                    end in
          make_dirs (<[q := Dir []]> f') q segs'
      end
  end.

Definition mkdirSync_recursive (p : path) : M unit :=
  fun w => match make_dirs (fs w) [] p with
           | Ok f => (Ok tt, set_fs f w)
           | Err e => (Err e, w)
           end.

Definition console_error (e : error) : M unit :=
  fun w => (Ok tt, mkWorld (fs w) (spawned w) (console w ++ [e])).

(** ** Vocabulary of the specification *)

(** The literal [p] stands in [s] at index [i]. *)
Definition occurs_at (p s : jstring) (i : nat) : Prop :=
  take (length p) (drop i s) = p.

(** The blocks of a text of length [len] come in ascending order from
    [lo] on, do not overlap and lie inside the text. *)
Fixpoint blocks_from (lo len : Z) (blocks : list MermaidBlock) : Prop :=
  match blocks with
  | [] => True
  | b :: blocks' =>
      (lo <= startIndex b)%Z /\ (startIndex b < endIndex b)%Z /\
      (endIndex b <= len)%Z /\ blocks_from (endIndex b) len blocks'
  end.

(** The block [b] of the text [md] starts with the opening fence at index
    [i]; its body is the [j] code units up to the first closing fence
    after the opening one, and the block ends with that closing fence. *)
Definition fenced_at (md : jstring) (b : MermaidBlock) (i j : nat) : Prop :=
  startIndex b = Z.of_nat i /\
  endIndex b = Z.of_nat (i + 11 + j + 3) /\
  i + 11 + j + 3 <= length md /\
  occurs_at fence_open md i /\
  occurs_at fence_close md (i + 11 + j) /\
  (forall k, k < j -> ~ occurs_at fence_close md (i + 11 + k)) /\
  code b = trim (take j (drop (i + 11) md)).

(** Texts the scanner is run on below. *)
Definition fence_with_trailing_space : jstring :=
  js "```mermaid " ++ [LF] ++ js "graph TD" ++ [LF] ++ js "```".

Definition fence_with_attributes : jstring :=
  js "```mermaid {theme: dark}" ++ [LF] ++ js "graph TD" ++ [LF] ++ js "```".

Definition body_with_backticks : jstring :=
  js "```mermaid" ++ [LF] ++ js "A[x ``` y]" ++ [LF] ++ js "```".

(** ** The platform the converter runs on *)

(** What the child process [mmdc -i inputFile -o outputFile -b white -s 2]
    does: it fails to start, or it exits with a code and an error stream,
    having written the output file or not. *)
Inductive MmdcOutcome :=
  | SpawnError (msg : jstring)
  | Exited (exit_code : Z) (stderr : jstring) (png : option jstring).

(** What [processor.process(...).result] evaluates to. *)
Inductive EngineOutcome :=
  | EngineThrows (msg : jstring)
  | NodeBuffer (bytes : jstring)
  | ByteArray (bytes : jstring)
  | OtherValue.

(** The collaborators that are not code of this repository: the scratch
    location [os.tmpdir()], [path.resolve], the MD5 digest in hexadecimal,
    the renderer process (it may answer differently at each invocation,
    hence the invocation number), the unified/remark-docx engine (it may
    read the file system) and [String.prototype.localeCompare]. *)
Class Platform := {
  os_tmpdir : path;
  path_resolve : jstring -> path;
  md5_hex : jstring -> jstring;
  mmdc : nat -> jstring -> MmdcOutcome;
  remark_docx : gmap path node -> jstring -> EngineOutcome;
  localeCompare : jstring -> jstring -> Z
}.

(** The two events the converter listens to on the child process. *)
Inductive ProcEvent :=
  | ErrorEvent (msg : jstring)
  | CloseEvent (exit_code : Z) (stderr : jstring).

(** [spawn(mmdc, ["-i", inputFile, "-o", outputFile, ...])] up to the
    event that settles the promise: the invocation is recorded, the
    process reads the input file and may leave the output file behind. *)
Definition spawn `{Platform} (inputFile outputFile : path) : M ProcEvent :=
  fun w =>
    let input := match fs w !! inputFile with
                 | Some (File c) => c
                 | _ => []
                 end in
    let w1 := mkWorld (fs w) (spawned w ++ [(inputFile, outputFile)]) (console w) in
    match mmdc (length (spawned w)) input with
    | SpawnError msg => (Ok (ErrorEvent msg), w1)
    | Exited exit_code stderr png =>
        let w2 := match png with
                  | Some bytes =>
                      match put_file outputFile bytes (fs w1) with
                      | Ok f => set_fs f w1
                      | Err _ => w1
                      end
                  | None => w1
                  end in
        (Ok (CloseEvent exit_code stderr), w2)
    end.

(** [Buffer.prototype.toString("base64")]. *)
Definition b64_alphabet : jstring :=
  js "ABCDEFGHIJKLMNOPQRSTUVWXYZabcdefghijklmnopqrstuvwxyz0123456789+/".

Definition b64_char (n : nat) : ascii := nth n b64_alphabet "="%char.

Fixpoint base64 (bytes : jstring) : jstring :=
  match bytes with
  | [] => []
  | [a] =>
      let x := nat_of_ascii a in
      [b64_char (x / 4); b64_char ((x mod 4) * 16); "="%char; "="%char]
  | [a; b] =>
      let x := nat_of_ascii a in
      let y := nat_of_ascii b in
      [b64_char (x / 4); b64_char ((x mod 4) * 16 + y / 16);
       b64_char ((y mod 16) * 4); "="%char]
  | a :: b :: c :: rest =>
      let x := nat_of_ascii a in
      let y := nat_of_ascii b in
      let z := nat_of_ascii c in
      b64_char (x / 4) :: b64_char ((x mod 4) * 16 + y / 16)
      :: b64_char ((y mod 16) * 4 + z / 64) :: b64_char (z mod 64)
      :: base64 rest
  end.

(** ** The converter *)

Record ConvertOptions := mkConvertOptions {
  enableMermaid : option bool
}.

Inductive Separator := pagebreak | hr | none.

Record MergeOptions := mkMergeOptions {
  convertOptions :> ConvertOptions;
  sortFn : option (jstring -> jstring -> Z);
  separator : option Separator
}.

Definition tempDir `{Platform} : path :=
  path_join os_tmpdir (js "md-docx-mermaid").

(** [new MdToDocxConverter()]. *)
Definition constructor `{Platform} : M unit :=
  let* present := existsSync tempDir in
  if negb present then mkdirSync_recursive tempDir else ret tt.

Definition cache_key `{Platform} (mermaidCode : jstring) : jstring :=
  md5_hex mermaidCode.

Definition cache_input_file `{Platform} (mermaidCode : jstring) : path :=
  path_join tempDir (cache_key mermaidCode ++ js ".mmd").

Definition cache_output_file `{Platform} (mermaidCode : jstring) : path :=
  path_join tempDir (cache_key mermaidCode ++ js ".png").

Definition renderMermaidToPng `{Platform} (mermaidCode : jstring) : M path :=
  let inputFile := cache_input_file mermaidCode in
  let outputFile := cache_output_file mermaidCode in
  let* cached := existsSync outputFile in
  if cached then ret outputFile
  else
    writeFileSync inputFile mermaidCode ;;
    let* event := spawn inputFile outputFile in
    match event with
    | ErrorEvent msg => throw (SpawnFailure msg)
    | CloseEvent exit_code stderr =>
        if negb (exit_code =? 0)%Z then throw (RenderFailure stderr)
        else
          let* produced := existsSync outputFile in
          if negb produced then throw RenderOutputMissing
          else ret outputFile
    end.

(** The text that replaces a rendered block. *)
Definition imgMarkdown (base64text : jstring) : jstring :=
  let dataUri := js "data:image/png;base64," ++ base64text in
  [LF; LF] ++ js "![Mermaid Diagram](" ++ dataUri ++ js ")" ++ [LF; LF].

(** The part of the loop body of [preprocessMermaid] that can throw. *)
Definition render_block `{Platform} (block : MermaidBlock) : M jstring :=
  let* pngPath := renderMermaidToPng (code block) in
  let* pngBuffer := readFileSync pngPath in
  ret (imgMarkdown (base64 pngBuffer)).

(** The assignment to [result] and [offset] that follows in the [try]. *)
Definition splice (st : jstring * Z) (block : MermaidBlock) (img : jstring)
  : jstring * Z :=
  let '(result, offset) := st in
  let adjustedStart := (startIndex block + offset)%Z in
  let adjustedEnd := (endIndex block + offset)%Z in
  (substring result 0 adjustedStart ++ img ++ substring_from result adjustedEnd,
   (offset + (Z.of_nat (length img) - (endIndex block - startIndex block)))%Z).

(** One iteration of [for (const block of blocks) { try ... catch ... }]. *)
Definition rewrite_block `{Platform} (st : jstring * Z) (block : MermaidBlock)
  : M (jstring * Z) :=
  try_catch
    (let* img := render_block block in ret (splice st block img))
    (fun e => console_error e ;; ret st).

Fixpoint for_blocks `{Platform} (blocks : list MermaidBlock) (st : jstring * Z)
  : M (jstring * Z) :=
  match blocks with
  | [] => ret st
  | block :: blocks' =>
      let* st' := rewrite_block st block in
      for_blocks blocks' st'
  end.

Definition preprocessMermaid `{Platform} (markdown : jstring) : M jstring :=
  let blocks := extractMermaidBlocks markdown in
  if (length blocks =? 0)%nat then ret markdown
  else
    let* st := for_blocks blocks (markdown, 0%Z) in
    ret (fst st).

Definition convert `{Platform} (markdown : jstring) (options : ConvertOptions)
  : M jstring :=
  let* processedMarkdown :=
    (if default false (enableMermaid options)
     then preprocessMermaid markdown
     else ret markdown) in
  fun w =>
    match remark_docx (fs w) processedMarkdown with
    | EngineThrows msg => (Err (RenderEngineFailure msg), w)
    | NodeBuffer buffer => (Ok buffer, w)
    | ByteArray buffer => (Ok buffer, w)
    | OtherValue => (Err UnexpectedOutputType, w)
    end.

Definition convertFile `{Platform} (inputPath outputPath : jstring)
    (options : ConvertOptions) : M unit :=
  let absoluteInputPath := path_resolve inputPath in
  let absoluteOutputPath := path_resolve outputPath in
  let* present := existsSync absoluteInputPath in
  if negb present then throw (InputNotFound absoluteInputPath)
  else
    let* markdown := readFileSync absoluteInputPath in
    let* buffer := convert markdown options in
    let outputDir := path_dirname absoluteOutputPath in
    let* dirPresent := existsSync outputDir in
    (if negb dirPresent then mkdirSync_recursive outputDir else ret tt) ;;
    writeFileSync absoluteOutputPath buffer.

(** *** Natural sort *)

Definition is_digit (c : ascii) : bool :=
  let n := nat_of_ascii c in (48 <=? n) && (n <=? 57).

Definition is_non_digit (c : ascii) : bool := negb (is_digit c).

(** The longest prefix whose code units satisfy [p], and the rest. *)
Fixpoint span (p : ascii -> bool) (s : jstring) : jstring * jstring :=
  match s with
  | [] => ([], [])
  | c :: s' =>
      if p c then let '(run, rest) := span p s' in (c :: run, rest)
      else ([], s)
  end.

(** [s.match(/(\d+)|(\D+)/g) || []]: at each position the first
    alternative is tried greedily, then the second. A match consumes at
    least one code unit, so [fuel] bounded by the length is never
    exhausted. *)
Fixpoint match_runs (fuel : nat) (s : jstring) : list jstring :=
  match fuel with
  | O => []
  | S fuel' =>
      match s with
      | [] => []
      | _ :: _ =>
          match span is_digit s with
          | ((_ :: _) as digits, rest) => digits :: match_runs fuel' rest
          | ([], _) =>
              match span is_non_digit s with
              | ((_ :: _) as others, rest) => others :: match_runs fuel' rest
              | ([], _) => []
              end
          end
      end
  end.

Definition parts (s : jstring) : list jstring := match_runs (length s) s.

(** The numbers of the comparator are IEEE 754 doubles whose values are
    integers. Such a double is written as the integer it is; [infinity],
    which is 2^1024 and so larger than every finite double, and its
    opposite stand for Infinity and -Infinity; NaN is [None]. *)
Definition infinity : Z := (2 ^ 1024)%Z.

(** The double nearest to the integer [z]. An integer below 2^53 in
    magnitude is a double. A larger one is rounded to 53 significant
    bits, to the even one of two nearest doubles, and what rounds to
    2^1024 or more is infinite. *)
Definition to_double (z : Z) : Z :=
  let m := Z.abs z in
  if (m <? 2 ^ 53)%Z then z
  else
    let ulp := (2 ^ (Z.log2 m - 52))%Z in
    let q := (m / ulp)%Z in
    let r := (m mod ulp)%Z in
    let q' := if (2 * r <? ulp)%Z then q
              else if (ulp <? 2 * r)%Z then (q + 1)%Z
              else if Z.even q then q else (q + 1)%Z in
    let rounded := (q' * ulp)%Z in
    (Z.sgn z * (if (rounded <? infinity)%Z then rounded else infinity))%Z.

(** [x - y] for two doubles: an infinite operand decides, and the
    difference of two finite ones is rounded. The comparator subtracts
    only numbers that are not equal, so Infinity - Infinity, which is
    NaN, is not computed. *)
Definition number_minus (x y : Z) : Z :=
  if (Z.abs x =? infinity)%Z then x
  else if (Z.abs y =? infinity)%Z then (- y)%Z
  else to_double (x - y).

Definition digit_value (c : ascii) : Z := (Z.of_nat (nat_of_ascii c) - 48)%Z.

(** The integer a run of decimal digits spells. *)
Definition mathInt (digits : jstring) : Z :=
  fold_left (fun acc c => (10 * acc + digit_value c)%Z) digits 0%Z.

(** The number a run of decimal digits is parsed to: the double nearest
    to the integer it spells. Runs of 16 digits and more can spell
    different integers and be parsed to the same number. *)
Definition decimal_value (digits : jstring) : Z := to_double (mathInt digits).

(** [parseInt(s, 10)]: leading white space is skipped, a sign is read,
    and the longest run of decimal digits is the value; [None] is NaN. *)
Definition parseInt (s : jstring) : option Z :=
  let s1 := trimStart s in
  let '(sign, s2) :=
    match s1 with
    | c :: r =>
        if Ascii.eqb c "-"%char then ((-1)%Z, r)
        else if Ascii.eqb c "+"%char then (1%Z, r)
        else (1%Z, s1)
    | [] => (1%Z, s1)
    end in
  match fst (span is_digit s2) with
  | [] => None
  | digits => Some (sign * decimal_value digits)%Z
  end.

(** The comparison the loop makes at index [i]; [None] stands for
    falling through to the next iteration. *)
Definition compare_part `{Platform} (aPart bPart : jstring) : option Z :=
  match parseInt aPart, parseInt bPart with
  | Some aNum, Some bNum =>
      if negb (aNum =? bNum)%Z then Some (number_minus aNum bNum) else None
  | _, _ =>
      let cmp := localeCompare aPart bPart in
      if negb (cmp =? 0)%Z then Some cmp else None
  end.

(** [for (let i = 0; i < Math.max(aParts.length, bParts.length); i++)],
    with [n] iterations left to run from index [i]. *)
Fixpoint compare_from `{Platform} (n i : nat) (aParts bParts : list jstring) : Z :=
  match n with
  | O => 0%Z
  | S n' =>
      let aPart := nth i aParts [] in
      let bPart := nth i bParts [] in
      match compare_part aPart bPart with
      | Some r => r
      | None => compare_from n' (S i) aParts bParts
      end
  end.

Definition naturalSort `{Platform} (a b : jstring) : Z :=
  let aParts := parts a in
  let bParts := parts b in
  compare_from (Nat.max (length aParts) (length bParts)) 0 aParts bParts.

(** [Array.prototype.sort(comparefn)], which ECMAScript requires to be
    stable: an element moves in front of the elements it compares
    smaller than, and never in front of one it does not. With a
    comparator that is consistent on the elements every stable sort
    returns this list; with another comparator ECMAScript leaves the
    order to the implementation, and this list is one possible order. *)
Fixpoint insert_by {A} (cmp : A -> A -> Z) (x : A) (sorted : list A) : list A :=
  match sorted with
  | [] => [x]
  | y :: rest =>
      if (cmp x y <=? 0)%Z then x :: sorted
      else y :: insert_by cmp x rest
  end.

Definition sort_by {A} (cmp : A -> A -> Z) (l : list A) : list A :=
  fold_right (insert_by cmp) [] l.

(** *** Merging *)

Definition separatorMarkdown (sep : Separator) : jstring :=
  match sep with
  | pagebreak =>
      [LF; LF] ++ js "<div style=" ++ [DQUOTE] ++ js "page-break-after: always;"
      ++ [DQUOTE] ++ js "></div>" ++ [LF; LF]
  | hr => [LF; LF] ++ js "---" ++ [LF; LF]
  | none => []
  end.

(** [Array.prototype.join(separator)]. *)
Fixpoint join (sep : jstring) (contents : list jstring) : jstring :=
  match contents with
  | [] => []
  | [c] => c
  | c :: rest => c ++ sep ++ join sep rest
  end.

(** [for (const file of files) { contents.push(readFileSync(join(dir, file))) }]. *)
Fixpoint read_directory_files `{Platform} (dir : path) (files : list jstring)
  : M (list jstring) :=
  match files with
  | [] => ret []
  | file :: files' =>
      let* content := readFileSync (path_join dir file) in
      let* contents := read_directory_files dir files' in
      ret (content :: contents)
  end.

Definition convertDirectory `{Platform} (inputDir outputPath : jstring)
    (options : MergeOptions) : M unit :=
  let absoluteInputDir := path_resolve inputDir in
  let absoluteOutputPath := path_resolve outputPath in
  let* present := existsSync absoluteInputDir in
  if negb present then throw (DirectoryNotFound absoluteInputDir)
  else
    let* isDir := is_directory absoluteInputDir in
    if negb isDir then throw (NotADirectory absoluteInputDir)
    else
      let* names := readdirSync absoluteInputDir in
      let files :=
        sort_by (default naturalSort (sortFn options))
                (List.filter (ends_with (js ".md")) names) in
      if (length files =? 0)%nat then throw (NoEligibleFiles absoluteInputDir)
      else
        let separatorMarkdown :=
          separatorMarkdown (default pagebreak (separator options)) in
        let* contents := read_directory_files absoluteInputDir files in
        let mergedMarkdown := join separatorMarkdown contents in
        let* buffer := convert mergedMarkdown options in
        let outputDir := path_dirname absoluteOutputPath in
        let* dirPresent := existsSync outputDir in
        (if negb dirPresent then mkdirSync_recursive outputDir else ret tt) ;;
        writeFileSync absoluteOutputPath buffer.

(** The reading loop of [convertFiles], which checks each path first. *)
Fixpoint read_input_files `{Platform} (inputPaths : list jstring)
  : M (list jstring) :=
  match inputPaths with
  | [] => ret []
  | inputPath :: inputPaths' =>
      let absoluteInputPath := path_resolve inputPath in
      let* present := existsSync absoluteInputPath in
      if negb present then throw (InputNotFound absoluteInputPath)
      else
        let* content := readFileSync absoluteInputPath in
        let* contents := read_input_files inputPaths' in
        ret (content :: contents)
  end.

Definition convertFiles `{Platform} (inputPaths : list jstring)
    (outputPath : jstring) (options : MergeOptions) : M unit :=
  let absoluteOutputPath := path_resolve outputPath in
  if (length inputPaths =? 0)%nat then throw NoInputFiles
  else
    let separatorMarkdown :=
      separatorMarkdown (default pagebreak (separator options)) in
    let* contents := read_input_files inputPaths in
    let mergedMarkdown := join separatorMarkdown contents in
    let* buffer := convert mergedMarkdown options in
    let outputDir := path_dirname absoluteOutputPath in
    let* dirPresent := existsSync outputDir in
    (if negb dirPresent then mkdirSync_recursive outputDir else ret tt) ;;
    writeFileSync absoluteOutputPath buffer.

(** ** Concrete platforms, used to run the definitions *)

(** Comparison of two strings code unit by code unit, the plain lexical
    comparison. The platforms below use it for [localeCompare]. *)
Fixpoint code_unit_compare (a b : jstring) : Z :=
  match a, b with
  | [], [] => 0
  | [], _ :: _ => -1
  | _ :: _, [] => 1
  | x :: a', y :: b' =>
      if (nat_of_ascii x <? nat_of_ascii y)%nat then -1
      else if (nat_of_ascii y <? nat_of_ascii x)%nat then 1
      else code_unit_compare a' b'
  end.

(** Splits a path written with slashes into its segments. *)
Fixpoint split_slash (cur : jstring) (s : jstring) : path :=
  match s with
  | [] => match cur with [] => [] | _ => [rev cur] end
  | c :: s' =>
      if Ascii.eqb c "/"%char
      then match cur with [] => split_slash [] s' | _ => rev cur :: split_slash [] s' end
      else split_slash (c :: cur) s'
  end.

(** A stand-in digest: every code unit written as two hexadecimal
    digits. Any function of the text serves where only its being a
    function matters. *)
Definition hex_digit (n : nat) : ascii := nth n (js "0123456789abcdef") "0"%char.

Definition toy_hex (s : jstring) : jstring :=
  flat_map (fun c => let n := nat_of_ascii c in
                     [hex_digit (n / 16); hex_digit (n mod 16)]) s.

(** A renderer that always exits with code 1 and writes nothing. *)
Definition failing_mmdc (n : nat) (input : jstring) : MmdcOutcome :=
  Exited 1 (js "Parse error") None.

(** A renderer that always succeeds and writes three bytes. *)
Definition working_mmdc (n : nat) (input : jstring) : MmdcOutcome :=
  Exited 0 [] (Some (js "PNG")).

(** A renderer that fails the first time it is invoked and succeeds
    afterwards. *)
Definition flaky_mmdc (n : nat) (input : jstring) : MmdcOutcome :=
  match n with
  | O => Exited 1 (js "Parse error") None
  | S _ => Exited 0 [] (Some (js "PNG"))
  end.

(** An engine that returns the text it is given as a buffer. *)
Definition echo_engine (f : gmap path node) (text : jstring) : EngineOutcome :=
  NodeBuffer text.

(** An engine that always throws. *)
Definition failing_engine (f : gmap path node) (text : jstring) : EngineOutcome :=
  EngineThrows (js "boom").

Definition test_platform (renderer : nat -> jstring -> MmdcOutcome)
    (engine : gmap path node -> jstring -> EngineOutcome) : Platform :=
  {| os_tmpdir := [js "tmp"];
     path_resolve := split_slash [];
     md5_hex := toy_hex;
     mmdc := renderer;
     remark_docx := engine;
     localeCompare := code_unit_compare |}.

(** A file system with the scratch directory, a directory [docs] holding
    three Markdown files and a text file, a directory [empty] without
    Markdown files and a directory [out]. *)
Definition test_fs : gmap path node :=
  list_to_map
    [ ([], Dir [js "tmp"; js "docs"; js "empty"; js "out"]);
      ([js "tmp"], Dir [js "md-docx-mermaid"]);
      ([js "tmp"; js "md-docx-mermaid"], Dir []);
      ([js "docs"], Dir [js "b.md"; js "a.md"; js "notes.txt"; js "c.md"]);
      ([js "docs"; js "c.md"],
       File (js "```mermaid" ++ [LF] ++ js "graph TD; A-->B" ++ [LF] ++ js "```"));
      ([js "docs"; js "a.md"], File (js "A"));
      ([js "docs"; js "b.md"], File (js "B"));
      ([js "docs"; js "notes.txt"], File (js "N"));
      ([js "empty"], Dir [js "readme.txt"]);
      ([js "empty"; js "readme.txt"], File (js "R"));
      ([js "out"], Dir []) ].

Definition test_world : World := mkWorld test_fs [] [].

(** ** Vocabulary for the rewriter *)

(** The outcome of rendering each block, in the world the loop renders it
    in: the replacement text, or [None] when the attempt throws. *)
Fixpoint block_outcomes `{Platform} (blocks : list MermaidBlock) (w : World)
  : list (option jstring) :=
  match blocks with
  | [] => []
  | b :: blocks' =>
      match render_block b w with
      | (Ok img, w') => Some img :: block_outcomes blocks' w'
      | (Err e, w') => None :: block_outcomes blocks' (snd (console_error e w'))
      end
  end.

(** What one block adds to the running offset: the length of its
    replacement minus the length of its span, and nothing when the block
    is skipped. *)
Definition length_change (b : MermaidBlock) (o : option jstring) : Z :=
  match o with
  | Some img => Z.of_nat (length img) - (endIndex b - startIndex b)
  | None => 0
  end.

Definition cumulative_offset (blocks : list MermaidBlock)
    (outcomes : list (option jstring)) : Z :=
  fold_right Z.add 0%Z (zip_with length_change blocks outcomes).

(** The effect of the loop body once the outcome is known. *)
Definition apply_outcome (st : jstring * Z) (item : MermaidBlock * option jstring)
  : jstring * Z :=
  match snd item with
  | Some img => splice st (fst item) img
  | None => st
  end.

(** The original text of a block. *)
Definition span_text (md : jstring) (b : MermaidBlock) : jstring :=
  substring md (startIndex b) (endIndex b).

(** The rewritten text built in one forward pass over [md] from index [c]
    on: the text between blocks is copied, and each block is replaced by
    its image reference, or copied when it has none. *)
Fixpoint streamed (md : jstring) (c : Z)
    (items : list (MermaidBlock * option jstring)) : jstring :=
  match items with
  | [] => substring_from md c
  | (b, o) :: items' =>
      substring md c (startIndex b)
      ++ (match o with Some img => img | None => span_text md b end)
      ++ streamed md (endIndex b) items'
  end.

(** The part of [streamed] up to the end of the last block, and where
    that is. *)
Fixpoint copied (md : jstring) (c : Z)
    (items : list (MermaidBlock * option jstring)) : jstring :=
  match items with
  | [] => []
  | (b, o) :: items' =>
      substring md c (startIndex b)
      ++ (match o with Some img => img | None => span_text md b end)
      ++ copied md (endIndex b) items'
  end.

Fixpoint last_end (c : Z) (items : list (MermaidBlock * option jstring)) : Z :=
  match items with
  | [] => c
  | (b, _) :: items' => last_end (endIndex b) items'
  end.

(** A text with two diagram blocks. *)
Definition two_diagrams : jstring :=
  js "# T" ++ [LF; LF] ++ js "```mermaid" ++ [LF] ++ js "graph TD; A-->B"
  ++ [LF] ++ js "```" ++ [LF] ++ js "between" ++ [LF] ++ js "```mermaid"
  ++ [LF] ++ js "graph LR; C-->D" ++ [LF] ++ js "```" ++ [LF] ++ js "end".

Definition two_diagrams_first : MermaidBlock :=
  mkBlock (js "graph TD; A-->B") 5 35.

Definition two_diagrams_second : MermaidBlock :=
  mkBlock (js "graph LR; C-->D") 44 74.

(** Another text, in which the diagram of [two_diagrams_first] stands at
    another place and with other white space around it. *)
Definition other_document : jstring :=
  js "intro" ++ [LF] ++ js "```mermaid" ++ [LF; LF] ++ js "  graph TD; A-->B "
  ++ [LF] ++ js "```".

Definition other_document_block : MermaidBlock :=
  mkBlock (js "graph TD; A-->B") 6 40.

(** The image reference the test renderers lead to. *)
Definition png_reference : jstring := imgMarkdown (base64 (js "PNG")).

(** ** Vocabulary for the render cache *)

(** Two calls of [renderMermaidToPng] in a row with the same source text:
    what each call returns and the number of renderer processes the two
    calls spawn together. *)
Definition resolve_twice `{Platform} (mermaidCode : jstring) (w : World)
  : result path * result path * nat :=
  let '(r1, w1) := renderMermaidToPng mermaidCode w in
  let '(r2, w2) := renderMermaidToPng mermaidCode w1 in
  (r1, r2, length (spawned w2) - length (spawned w)).

(** Both calls return the same path and the renderer runs at most once. *)
Definition renders_at_most_once `{Platform} (mermaidCode : jstring) (w : World)
  : Prop :=
  let '(r1, r2, runs) := resolve_twice mermaidCode w in
  runs <= 1 /\ exists p, r1 = Ok p /\ r2 = Ok p.

(** ** Vocabulary for the natural sort *)

(** A token is numeric when it is a non-empty run of digits, and textual
    when it is a non-empty run of other code units. *)
Definition is_numeric (t : jstring) : bool :=
  match t with
  | [] => false
  | _ :: _ => forallb is_digit t
  end.

Definition is_textual (t : jstring) : bool :=
  match t with
  | [] => false
  | _ :: _ => forallb is_non_digit t
  end.

(** Runs of digits and runs of non-digits alternate. *)
Fixpoint alternating (tokens : list jstring) : Prop :=
  match tokens with
  | [] => True
  | t :: rest =>
      match rest with
      | [] => is_numeric t = true \/ is_textual t = true
      | u :: _ =>
          ((is_numeric t = true /\ is_textual u = true)
           \/ (is_textual t = true /\ is_numeric u = true))
          /\ alternating rest
      end
  end.

(** The class of the first token is that of the first code unit. *)
Definition starts_like (s : jstring) (tokens : list jstring) : Prop :=
  match s with
  | [] => tokens = []
  | c :: _ =>
      exists t rest, tokens = t :: rest /\
        (if is_digit c then is_numeric t = true else is_textual t = true)
  end.

(** The loop of [naturalSort] read as a recursion on the two lists of
    tokens: the first comparison that returns decides; where one list
    has run out, its token is the empty string. *)
Definition decided (c : option Z) (later : Z) : Z :=
  match c with
  | Some r => r
  | None => later
  end.

Fixpoint against_nothing_left `{Platform} (ys : list jstring) : Z :=
  match ys with
  | [] => 0%Z
  | y :: ys' => decided (compare_part [] y) (against_nothing_left ys')
  end.

Fixpoint against_nothing_right `{Platform} (xs : list jstring) : Z :=
  match xs with
  | [] => 0%Z
  | x :: xs' => decided (compare_part x []) (against_nothing_right xs')
  end.

Fixpoint first_difference `{Platform} (xs ys : list jstring) : Z :=
  match xs with
  | [] => against_nothing_left ys
  | x :: xs' =>
      match ys with
      | [] => against_nothing_right xs
      | y :: ys' => decided (compare_part x y) (first_difference xs' ys')
      end
  end.

(** What an index of the loop holds: nothing, which reads as the empty
    string, or a token. *)
Definition is_part (t : jstring) : Prop :=
  t = [] \/ is_numeric t = true \/ is_textual t = true.

(** The comparison of two tokens as a number: 0 where the loop goes on
    to the next index. *)
Definition part_order `{Platform} (x y : jstring) : Z :=
  decided (compare_part x y) 0%Z.

(** The token at an index, the empty string beyond the last one. *)
Definition part_at (tokens : list jstring) (i : nat) : jstring := nth i tokens [].

(** The first comparison that is not 0 among those of the elements two
    sequences have at the indices [i], ..., [i + n - 1]. *)
Fixpoint lex_from {A} (cmp : A -> A -> Z) (n i : nat) (f g : nat -> A) : Z :=
  match n with
  | O => 0%Z
  | S n' =>
      if (cmp (f i) (g i) =? 0)%Z then lex_from cmp n' (S i) f g
      else cmp (f i) (g i)
  end.

(** Modelled from the spec: two tokens in the same position compare as
    integers if both are numeric, and as plain lexical strings, code
    unit by code unit, otherwise. *)
Definition spec_token_order (x y : jstring) : Z :=
  if is_numeric x && is_numeric y
  then (mathInt x - mathInt y)%Z
  else code_unit_compare x y.

(** Modelled from the spec: the first non-equal pairwise comparison
    determines the order; if one name has fewer tokens and all compared
    tokens are equal, the shorter name sorts first. *)
Fixpoint spec_order (xs ys : list jstring) : Z :=
  match xs, ys with
  | [], [] => 0%Z
  | [], _ :: _ => (-1)%Z
  | _ :: _, [] => 1%Z
  | x :: xs', y :: ys' =>
      if (spec_token_order x y =? 0)%Z then spec_order xs' ys'
      else spec_token_order x y
  end.

(** Every numeric token spells an integer below 2^53, the range in
    which every integer is a double. *)
Definition small_numbers (tokens : list jstring) : Prop :=
  Forall (fun t => is_numeric t = true -> (mathInt t < 2 ^ 53)%Z) tokens.

(** Properties [localeCompare] can have: a string equals itself; the
    order is the plain lexical one; the function is a consistent
    comparator on all strings, which ECMAScript asks of it; a string
    without digits stands before every run of digits or after every run
    of digits. *)
Definition compares_reflexively `{Platform} : Prop :=
  forall s : jstring, localeCompare s s = 0%Z.

Definition compares_lexically `{Platform} : Prop :=
  forall x y : jstring, Z.sgn (localeCompare x y) = Z.sgn (code_unit_compare x y).

Definition compares_consistently `{Platform} : Prop :=
  (forall x, localeCompare x x = 0%Z) /\
  (forall x y, localeCompare x y = 0%Z -> localeCompare y x = 0%Z) /\
  (forall x y z, localeCompare x y = 0%Z -> localeCompare y z = 0%Z ->
                 localeCompare x z = 0%Z) /\
  (forall x y z, (localeCompare x y < 0)%Z -> (localeCompare y z < 0)%Z ->
                 (localeCompare x z < 0)%Z) /\
  (forall x y z, (0 < localeCompare x y)%Z -> (0 < localeCompare y z)%Z ->
                 (0 < localeCompare x z)%Z).

Definition keeps_digits_together `{Platform} : Prop :=
  forall t : jstring, forallb is_non_digit t = true ->
    (forall d, is_numeric d = true -> (localeCompare t d < 0)%Z) \/
    (forall d, is_numeric d = true -> (0 < localeCompare t d)%Z).

(** ** Vocabulary for sorting *)

(** The comparator is consistent on the elements of [l], in the sense of
    ECMAScript: comparing equal is reflexive, symmetric and transitive,
    and comparing smaller and comparing greater are transitive. *)
Definition consistent_on {A} (cmp : A -> A -> Z) (l : list A) : Prop :=
  Forall (fun x =>
    cmp x x = 0%Z /\
    Forall (fun y =>
      (cmp x y = 0%Z -> cmp y x = 0%Z) /\
      Forall (fun z =>
        (cmp x y = 0%Z -> cmp y z = 0%Z -> cmp x z = 0%Z) /\
        ((cmp x y < 0)%Z -> (cmp y z < 0)%Z -> (cmp x z < 0)%Z) /\
        ((0 < cmp x y)%Z -> (0 < cmp y z)%Z -> (0 < cmp x z)%Z)) l) l) l.

Global Instance consistent_on_dec {A} (cmp : A -> A -> Z) (l : list A) :
  Decision (consistent_on cmp l) := _.

(** No element of the list compares greater than a later one. *)
Fixpoint sorted_by {A} (cmp : A -> A -> Z) (l : list A) : Prop :=
  match l with
  | [] => True
  | x :: rest => Forall (fun y => (cmp x y <= 0)%Z) rest /\ sorted_by cmp rest
  end.

(** The elements that compare equal to [x], in the order they have in
    [l]. *)
Definition ties_of {A} (cmp : A -> A -> Z) (x : A) (l : list A) : list A :=
  filter (fun y => cmp x y = 0%Z) l.

(** The elements that compare equal to one another stand in [l2] in the
    order they have in [l1]. *)
Definition same_tie_order {A} (cmp : A -> A -> Z) (l1 l2 : list A) : Prop :=
  forall x, x ∈ l1 -> ties_of cmp x l2 = ties_of cmp x l1.

(** Names the comparator is run on below. *)
Definition chapter_names : list jstring :=
  [js "f10.md"; js "f2.md"; js "f1.md"].

Definition padded_names : list jstring :=
  [js "10-b.md"; js "01-intro.md"; js "2-a.md"; js "1-intro.md"].

(** Two names whose numbers are parsed to the same double though they
    spell different integers. *)
Definition long_number_names : list jstring :=
  [js "9007199254740993.md"; js "9007199254740992.md"].

(** A world whose directory [docs] holds two files and enumerates them
    in the order [listing]. *)
Definition fs_with_listing (listing : list jstring) : gmap path node :=
  list_to_map
    [ ([], Dir [js "tmp"; js "docs"; js "out"]);
      ([js "tmp"], Dir [js "md-docx-mermaid"]);
      ([js "tmp"; js "md-docx-mermaid"], Dir []);
      ([js "docs"], Dir listing);
      ([js "docs"; js "01-intro.md"], File (js "Padded"));
      ([js "docs"; js "1-intro.md"], File (js "Plain"));
      ([js "out"], Dir []) ].

Definition world_with_listing (listing : list jstring) : World :=
  mkWorld (fs_with_listing listing) [] [].

(** ** Vocabulary for joining and for the orchestrator *)

(** The number of indices at which the literal [p] stands in [s]. *)
Fixpoint count_occurrences (p s : jstring) : nat :=
  (if starts_with p s then 1 else 0)
  + match s with
    | [] => 0
    | _ :: s' => count_occurrences p s'
    end.

(** The Writing step the three file-producing entry points end with. *)
Definition write_output (absoluteOutputPath : path) (buffer : jstring) : M unit :=
  let outputDir := path_dirname absoluteOutputPath in
  let* dirPresent := existsSync outputDir in
  (if negb dirPresent then mkdirSync_recursive outputDir else ret tt) ;;
  writeFileSync absoluteOutputPath buffer.

(** The failures of the Writing step. *)
Definition is_write_failure (e : error) : bool :=
  match e with
  | FsFailure WriteFile _ _ | FsFailure Mkdir _ _ => true
  | _ => false
  end.

(** Nothing outside the scratch directory differs between two worlds. *)
Definition same_outside_scratch `{Platform} (w w' : World) : Prop :=
  forall q : path, ~ tempDir `prefix_of` q -> fs w' !! q = fs w !! q.

Definition unset_options : MergeOptions :=
  mkMergeOptions (mkConvertOptions None) None None.

Definition mermaid_options : MergeOptions :=
  mkMergeOptions (mkConvertOptions (Some true)) None (Some hr).

(** ** Vocabulary for further properties *)

(** A text without diagrams. *)
Definition plain_text : jstring :=
  js "# Title" ++ [LF; LF] ++ js "Some `code` and ``` a lone fence.".

(** The number of blocks whose rendering threw. *)
Definition failed_count (outcomes : list (option jstring)) : nat :=
  length (List.filter (fun o => match o with None => true | Some _ => false end)
                      outcomes).

(** A renderer that writes its output file and still exits with code 1. *)
Definition careless_mmdc (n : nat) (input : jstring) : MmdcOutcome :=
  Exited 1 (js "Deprecated flag") (Some (js "PNG")).

(** ** Vocabulary for the render cache on a miss *)

(** What a call makes of the renderer's answer when the image is not in
    the scratch directory yet. *)
Definition miss_result `{Platform} (mermaidCode : jstring) (o : MmdcOutcome)
  : result path :=
  match o with
  | SpawnError msg => Err (SpawnFailure msg)
  | Exited exit_code stderr png =>
      if (exit_code =? 0)%Z
      then match png with
           | Some _ => Ok (cache_output_file mermaidCode)
           | None => Err RenderOutputMissing
           end
      else Err (RenderFailure stderr)
  end.

Definition left_behind (o : MmdcOutcome) : option node :=
  match o with
  | Exited _ _ (Some png) => Some (File png)
  | _ => None
  end.


(** ** File systems for the entry points *)

(** The test file system in which the entry [c.md] of [docs] is a
    directory. *)
Definition fs_with_markdown_directory : gmap path node :=
  <[ [js "docs"; js "c.md"] := Dir [] ]> test_fs.

(** The test file system before the converter is constructed: without
    the scratch directory. *)
Definition fs_before_construction : gmap path node :=
  <[ [js "tmp"] := Dir [] ]> (delete [js "tmp"; js "md-docx-mermaid"] test_fs).

(** A file system in which the temporary directory of the operating
    system is a regular file. *)
Definition fs_with_file_for_tmp : gmap path node :=
  list_to_map
    [ ([], Dir [js "tmp"]);
      ([js "tmp"], File (js "not a directory")) ].

(** * The command line (src/cli.ts) *)

(** [/```mermaid\n[\s\S]*?```/.test(content)]: the expression of the
    scanner without the capture and without the global flag, so the
    search starts at index 0. *)
Definition containsMermaid (content : jstring) : bool :=
  match exec_from content with
  | Some _ => true
  | None => false
  end.

(** [files.some(file => containsMermaid(readFileSync(join(dir, file))))]:
    the files are read in turn up to the first one that holds a block. *)
Fixpoint some_contains (dir : path) (files : list jstring) : M bool :=
  match files with
  | [] => ret false
  | file :: files' =>
      let* content := readFileSync (path_join dir file) in
      if containsMermaid content then ret true
      else some_contains dir files'
  end.

(** [detectMermaid(inputPath)]; the path is the one [path.resolve] gives
    for the argument. *)
Definition detectMermaid `{Platform} (inputPath : jstring) : M bool :=
  let* isDir := is_directory (path_resolve inputPath) in
  if isDir then
    let* names := readdirSync (path_resolve inputPath) in
    some_contains (path_resolve inputPath)
                  (List.filter (ends_with (js ".md")) names)
  else
    let* content := readFileSync (path_resolve inputPath) in
    ret (containsMermaid content).

(** Two files of which the first ends with an opening fence that lacks
    its line feed and the second holds an ordinary code fence. *)
Definition chapter_with_open_fence : jstring :=
  js "# One" ++ [LF] ++ js "```mermaid".

Definition chapter_with_code_fence : jstring :=
  js "# Two" ++ [LF] ++ js "```" ++ [LF] ++ js "ls" ++ [LF] ++ js "```".

(** * The image resolver (nodeImageResolver in src/converter.ts) *)

Inductive ImageType := ImagePng | ImageJpg | ImageGif | ImageBmp.

(** [Buffer.from(text, "base64")]: code units outside the alphabet are
    skipped (the URL-safe [-] and [_] count as [+] and [/]), decoding
    stops at the first [=], and an incomplete last group gives the bytes
    its sextets cover. *)
Definition unbase64 (c : ascii) : option nat :=
  let n := nat_of_ascii c in
  if (65 <=? n) && (n <=? 90) then Some (n - 65)
  else if (97 <=? n) && (n <=? 122) then Some (n - 71)
  else if (48 <=? n) && (n <=? 57) then Some (n + 4)
  else if (n =? 43) || (n =? 45) then Some 62
  else if (n =? 47) || (n =? 95) then Some 63
  else None.

Fixpoint sextets (text : jstring) : list nat :=
  match text with
  | [] => []
  | c :: text' =>
      match unbase64 c with
      | Some v => v :: sextets text'
      | None => if Ascii.eqb c "="%char then [] else sextets text'
      end
  end.

Definition byte (n : nat) : ascii := ascii_of_nat (n mod 256).

Fixpoint bytes_of_sextets (l : list nat) : jstring :=
  match l with
  | a :: b :: c :: d :: rest =>
      byte (a * 4 + b / 16) :: byte ((b mod 16) * 16 + c / 4)
      :: byte ((c mod 4) * 64 + d) :: bytes_of_sextets rest
  | [a; b; c] => [byte (a * 4 + b / 16); byte ((b mod 16) * 16 + c / 4)]
  | [a; b] => [byte (a * 4 + b / 16)]
  | _ => []
  end.

Definition base64_decode (text : jstring) : jstring :=
  bytes_of_sextets (sextets text).

(** The class [\w] of a regular expression without the unicode flag. *)
Definition is_word (c : ascii) : bool :=
  let n := nat_of_ascii c in
  ((65 <=? n) && (n <=? 90)) || ((97 <=? n) && (n <=? 122))
  || ((48 <=? n) && (n <=? 57)) || (n =? 95).

(** The class [.] of a regular expression without the dotAll flag, among
    the code units below 256: everything but LF and CR. *)
Definition is_dot (c : ascii) : bool :=
  let n := nat_of_ascii c in negb ((n =? 10) || (n =? 13)).

(** [src.match(/^data:image\/(\w+);base64,(.+)$/)]: the two groups. The
    run of word characters is the longest one, since the literal that
    follows starts with a semicolon. *)
Definition match_data_uri (src : jstring) : option (jstring * jstring) :=
  if starts_with (js "data:image/") src then
    let '(word, rest) := span is_word (drop 11 src) in
    match word with
    | [] => None
    | _ :: _ =>
        if starts_with (js ";base64,") rest then
          let payload := drop 8 rest in
          match payload with
          | [] => None
          | _ :: _ => if forallb is_dot payload then Some (word, payload) else None
          end
        else None
    end
  else None.

(** Where the resolver takes the image bytes from. *)
Inductive ImageSource :=
  | InlineImage (imageType : ImageType) (imageBuffer : jstring)
  | InvalidDataUri                       (* Invalid data URI format *)
  | RemoteImage (url : jstring)          (* fetch(src) *)
  | LocalImage (file : jstring).         (* fs.readFileSync(src) *)

(** The first part of [nodeImageResolver], up to the point where the
    image buffer of a data URI is known; the type of an image that is
    not given inline depends on the response or the file name. *)
Definition image_source (src : jstring) : ImageSource :=
  if starts_with (js "data:") src then
    match match_data_uri src with
    | Some (word, payload) =>
        let type := if bool_decide (word = js "jpeg") then js "jpg" else word in
        let imageType :=
          if bool_decide (type = js "jpg") then ImageJpg
          else if bool_decide (type = js "png") then ImagePng
          else if bool_decide (type = js "gif") then ImageGif
          else if bool_decide (type = js "bmp") then ImageBmp
          else ImagePng in
        InlineImage imageType (base64_decode payload)
    | None => InvalidDataUri
    end
  else if starts_with (js "http://") src || starts_with (js "https://") src
  then RemoteImage src
  else LocalImage src.

(** The address inside the image reference that replaces a block. *)
Definition dataUri (base64text : jstring) : jstring :=
  js "data:image/png;base64," ++ base64text.

(** * The code block plugin (src/code-plugin.ts) *)

Definition SUPPORTED_LANGUAGES : list jstring :=
  [js "javascript"; js "typescript"; js "python"; js "java"; js "c"; js "cpp";
   js "csharp"; js "go"; js "rust"; js "ruby"; js "php"; js "swift"; js "kotlin";
   js "sql"; js "html"; js "css"; js "json"; js "yaml"; js "xml"; js "markdown";
   js "bash"; js "shellscript"; js "powershell"; js "dockerfile"].

Definition LANGUAGE_ALIASES : list (jstring * jstring) :=
  [(js "js", js "javascript"); (js "ts", js "typescript"); (js "py", js "python");
   (js "rb", js "ruby"); (js "cs", js "csharp"); (js "c++", js "cpp");
   (js "sh", js "bash"); (js "zsh", js "bash"); (js "shell", js "shellscript");
   (js "yml", js "yaml"); (js "md", js "markdown")].

(** The property names every object literal inherits from
    [Object.prototype]; each of them holds a function or an object, so a
    lookup of such a name is truthy. *)
Definition OBJECT_PROTOTYPE_KEYS : list jstring :=
  [js "constructor"; js "__proto__"; js "__defineGetter__"; js "__defineSetter__";
   js "__lookupGetter__"; js "__lookupSetter__"; js "hasOwnProperty";
   js "isPrototypeOf"; js "propertyIsEnumerable"; js "toLocaleString";
   js "toString"; js "valueOf"].

(** [String.prototype.toLowerCase] on the code units below 256: the
    letters A to Z and the Latin-1 capitals, which lie 32 below their
    small forms. *)
Definition is_upper (c : ascii) : bool :=
  let n := nat_of_ascii c in
  ((65 <=? n) && (n <=? 90)) || ((192 <=? n) && (n <=? 222) && negb (n =? 215)).

Definition to_lower_unit (c : ascii) : ascii :=
  if is_upper c then ascii_of_nat (nat_of_ascii c + 32) else c.

Definition toLowerCase (s : jstring) : jstring := map to_lower_unit s.

(** The own property [key] of an object literal. *)
Fixpoint own_property (key : jstring) (object : list (jstring * jstring))
  : option jstring :=
  match object with
  | [] => None
  | (k, v) :: object' =>
      if bool_decide (k = key) then Some v else own_property key object'
  end.

(** What [resolveLanguage] returns: [null], a language name, or, when the
    lookup in the alias table hits an inherited property, the value of
    that property, which is not a string. *)
Inductive Resolved :=
  | ResolvedNull
  | ResolvedLanguage (name : jstring)
  | ResolvedInherited (key : jstring).

Definition resolveLanguage (lang : option jstring) : Resolved :=
  match lang with
  | None => ResolvedNull
  | Some [] => ResolvedNull
  | Some lang =>
      let normalized := trim (toLowerCase lang) in
      match own_property normalized LANGUAGE_ALIASES with
      | Some name => ResolvedLanguage name
      | None =>
          if bool_decide (normalized ∈ OBJECT_PROTOTYPE_KEYS)
          then ResolvedInherited normalized
          else if bool_decide (normalized ∈ SUPPORTED_LANGUAGES)
          then ResolvedLanguage normalized
          else ResolvedNull
      end
  end.

(** [String.prototype.replace("#", "")] removes the first occurrence. *)
Fixpoint remove_first (c : ascii) (s : jstring) : jstring :=
  match s with
  | [] => []
  | x :: s' => if Ascii.eqb x c then s' else x :: remove_first c s'
  end.

Definition hexToDocxColor (hex : option jstring) : option jstring :=
  match hex with
  | None => None
  | Some [] => None
  | Some hex => Some (remove_first "#"%char hex)
  end.

(** [String.prototype.split("\n")]. *)
Fixpoint split_lines (s : jstring) : list jstring :=
  match s with
  | [] => [[]]
  | c :: s' =>
      if Ascii.eqb c LF then [] :: split_lines s'
      else match split_lines s' with
           | line :: lines => (c :: line) :: lines
           | [] => [[c]]
           end
  end.

(** [String(n)] for a natural number and [padStart(3, " ")]. *)
Fixpoint uint_digits (d : Decimal.uint) : jstring :=
  match d with
  | Decimal.Nil => []
  | Decimal.D0 d => "0"%char :: uint_digits d
  | Decimal.D1 d => "1"%char :: uint_digits d
  | Decimal.D2 d => "2"%char :: uint_digits d
  | Decimal.D3 d => "3"%char :: uint_digits d
  | Decimal.D4 d => "4"%char :: uint_digits d
  | Decimal.D5 d => "5"%char :: uint_digits d
  | Decimal.D6 d => "6"%char :: uint_digits d
  | Decimal.D7 d => "7"%char :: uint_digits d
  | Decimal.D8 d => "8"%char :: uint_digits d
  | Decimal.D9 d => "9"%char :: uint_digits d
  end.

Definition String_of_nat (n : nat) : jstring := uint_digits (Nat.to_uint n).

Definition padStart (width : nat) (s : jstring) : jstring :=
  List.repeat " "%char (width - length s) ++ s.

Record CodePluginOptions := mkCodePluginOptions {
  backgroundColor : option jstring;
  fontFamily : option jstring;
  fontSize : option Z;
  showLineNumbers : option bool
}.

(** A code node of the syntax tree. *)
Record CodeNode := mkCodeNode {
  node_type : jstring;
  node_value : option jstring;
  node_lang : option jstring
}.

(** A token of the highlighter and the highlighter itself, which is not
    code of this repository; [None] stands for an exception. *)
Record Token := mkToken {
  token_content : jstring;
  token_color : option jstring
}.

Record Highlighter := mkHighlighter {
  codeToTokensBase : jstring -> Resolved -> option (list (list Token))
}.

(** The text of a run: a piece of code, or a line number, whose text is
    the padded number followed by a space, a vertical bar and a space. *)
Inductive RunText :=
  | CodeText (text : jstring)
  | LineNumberText (padded : jstring).

Record TextRun := mkTextRun {
  run_text : RunText;
  run_font : jstring;
  run_size : Z;
  run_color : option jstring
}.

Section CodePlugin.

(** The paragraph properties the caller hands in; they are copied into
    every paragraph, under the shading, the spacing and the children. *)
Variable ParaProps : Type.

Record Paragraph := mkParagraph {
  inherited : ParaProps;
  shading_color : jstring;
  shading_fill : jstring;
  spacing_before : Z;
  spacing_after : Z;
  spacing_line : Z;
  children : list TextRun
}.

Variable options : CodePluginOptions.

Definition the_backgroundColor : jstring := default (js "F6F8FA") (backgroundColor options).
Definition the_fontFamily : jstring := default (js "Consolas") (fontFamily options).
Definition the_fontSize : Z := default 20%Z (fontSize options).
Definition the_showLineNumbers : bool := default false (showLineNumbers options).

Definition line_number_runs (index : nat) : list TextRun :=
  if the_showLineNumbers
  then [mkTextRun (LineNumberText (padStart 3 (String_of_nat (index + 1))))
                  the_fontFamily the_fontSize (Some (js "999999"))]
  else [].

Definition code_paragraph (paraProps : ParaProps) (count index : nat)
    (runs : list TextRun) : Paragraph :=
  mkParagraph paraProps the_backgroundColor the_backgroundColor
    (if index =? 0 then 120 else 0)
    (if index =? count - 1 then 120 else 0)
    276 runs.

(** The rendering without the highlighter. *)
Definition plain_paragraphs (paraProps : ParaProps) (code : jstring)
  : list Paragraph :=
  let lines := split_lines code in
  imap (fun index line =>
          code_paragraph paraProps (length lines) index
            (line_number_runs index
             ++ [mkTextRun (CodeText (match line with [] => js " " | _ => line end))
                           the_fontFamily the_fontSize None]))
       lines.

(** The rendering of the token lines of the highlighter. *)
Definition highlighted_paragraphs (paraProps : ParaProps)
    (tokens : list (list Token)) : list Paragraph :=
  imap (fun lineIndex lineTokens =>
          code_paragraph paraProps (length tokens) lineIndex
            (line_number_runs lineIndex
             ++ match lineTokens with
                | [] => [mkTextRun (CodeText (js " ")) the_fontFamily the_fontSize None]
                | _ => map (fun token =>
                              mkTextRun (CodeText (token_content token))
                                        the_fontFamily the_fontSize
                                        (hexToDocxColor (token_color token)))
                           lineTokens
                end))
       tokens.

(** The [block] handler of the plugin: the paragraphs it returns and the
    node as it leaves it; [None] when the highlighter throws. *)
Definition block (highlighterInstance : option Highlighter) (paraProps : ParaProps)
    (node : CodeNode) : option (list Paragraph * CodeNode) :=
  if negb (bool_decide (node_type node = js "code")) then Some ([], node)
  else
    let code := default [] (node_value node) in
    let lang := resolveLanguage (node_lang node) in
    match highlighterInstance, lang with
    | None, _ | _, ResolvedNull => Some (plain_paragraphs paraProps code, node)
    | Some highlighter, _ =>
        match codeToTokensBase highlighter code lang with
        | None => None
        | Some tokens =>
            Some (highlighted_paragraphs paraProps tokens,
                  mkCodeNode [] (node_value node) (node_lang node))
        end
    end.

End CodePlugin.

Arguments inherited {ParaProps} _.
Arguments shading_color {ParaProps} _.
Arguments shading_fill {ParaProps} _.
Arguments spacing_before {ParaProps} _.
Arguments spacing_after {ParaProps} _.
Arguments spacing_line {ParaProps} _.
Arguments children {ParaProps} _.
Arguments plain_paragraphs {ParaProps} _ _ _.
Arguments highlighted_paragraphs {ParaProps} _ _ _.
Arguments block {ParaProps} _ _ _ _.

(** A highlighter that gives every line as one token without a colour
    and rejects a language that is not a name. *)
Definition line_highlighter : Highlighter :=
  mkHighlighter (fun code lang =>
    match lang with
    | ResolvedLanguage _ =>
        Some (map (fun line => match line with
                               | [] => []
                               | _ => [mkToken line (Some (js "#24292E"))]
                               end) (split_lines code))
    | _ => None
    end).

Definition default_code_options : CodePluginOptions :=
  mkCodePluginOptions (Some (js "F6F8FA")) (Some (js "Consolas")) (Some 20%Z)
                      (Some false).

#[global] Instance Resolved_eq_dec : EqDecision Resolved.
Proof. solve_decision. Defined.

(** The number of line feeds in a text. *)
Definition line_feeds (s : jstring) : nat :=
  length (List.filter (Ascii.eqb LF) s).

(** The text of the code run that ends a paragraph. *)
Definition code_text {ParaProps} (p : Paragraph ParaProps) : option jstring :=
  match last (children p) with
  | Some (mkTextRun (CodeText text) _ _ _) => Some text
  | _ => None
  end.

(** * The interactive mode (src/interactive.ts) *)

Definition ETX : ascii := ascii_of_nat 3.    (* Ctrl+C *)
Definition BS : ascii := ascii_of_nat 8.
Definition CR : ascii := ascii_of_nat 13.
Definition DEL : ascii := ascii_of_nat 127.

(** The comparison [a <= b] of two strings: by code units. *)
Definition string_le (a b : jstring) : bool := (code_unit_compare a b <=? 0)%Z.

(** How a prompt stands after a chunk of input: still waiting with the
    text typed so far, resolved with an answer, resolved by a hotkey
    (the promise resolves with the marker [\0HOTKEY]), ended by an
    exception because the property looked up is not a function, or the
    process has exited. *)
Inductive AskOutcome :=
  | Waiting (input : jstring)
  | Answered (value : jstring)
  | HotkeyFired (key : jstring)
  | HotkeyNotCallable (key : jstring)
  | ProcessExited.

(** [input.slice(0, -1)]. *)
Definition drop_last (input : jstring) : jstring := removelast input.

(** The listener [onData] of [askWithHotkeys]; [hotkeys] lists the keys
    of the object literal handed in. A lower-cased key can name two
    inherited properties: [constructor], which is a function, and
    [__proto__], which is not. *)
Definition onData (hotkeys : list jstring) (input key : jstring) : AskOutcome :=
  if bool_decide (key = [ETX]) then ProcessExited
  else if bool_decide (key = [CR]) || bool_decide (key = [LF])
  then Answered (trim input)
  else if bool_decide (key = [DEL]) || bool_decide (key = [BS])
  then Waiting (match input with [] => input | _ => drop_last input end)
  else
    let lowered := toLowerCase key in
    let regular :=
      if string_le (js " ") key && string_le key (js "~")
      then Waiting (input ++ key) else Waiting input in
    match input with
    | [] =>
        if bool_decide (lowered ∈ hotkeys) then HotkeyFired lowered
        else if bool_decide (lowered = js "constructor") then HotkeyFired lowered
        else if bool_decide (lowered = js "__proto__") then HotkeyNotCallable lowered
        else regular
    | _ => regular
    end.

(** One call of [askWithHotkeys]: the chunks are handled until the
    promise settles; the chunks that follow are left for the next
    listener. *)
Fixpoint askWithHotkeys (hotkeys : list jstring) (input : jstring)
    (keys : list jstring) : AskOutcome * list jstring :=
  match keys with
  | [] => (Waiting input, [])
  | key :: keys' =>
      match onData hotkeys input key with
      | Waiting input' => askWithHotkeys hotkeys input' keys'
      | outcome => (outcome, keys')
      end
  end.

(** [do { ... } while (refreshTriggered || inputPath === "\0HOTKEY")]
    with the hotkey [r] of the file and directory prompts; the result
    carries the number of refreshes. Every round that ends with a hotkey
    has used up a chunk, so [fuel] above the number of chunks is never
    exhausted. *)
Fixpoint ask_path (fuel : nat) (keys : list jstring) (refreshes : nat)
  : AskOutcome * nat * list jstring :=
  match fuel with
  | O => (Waiting [], refreshes, keys)
  | S fuel' =>
      match askWithHotkeys [js "r"] [] keys with
      | (HotkeyFired key, keys') =>
          ask_path fuel' keys' (if bool_decide (key = js "r") then S refreshes
                                else refreshes)
      | (outcome, keys') => (outcome, refreshes, keys')
      end
  end.

(** [listMdFiles(dir)]: the default sort orders strings by code units. *)
Definition listMdFiles (dir : path) : M (list jstring) :=
  let* names := readdirSync dir in
  ret (sort_by code_unit_compare (List.filter (ends_with (js ".md")) names)).

(** The choice between an entry of the numbered list and a path, made
    from the answer of the prompt in [convertSingleFile] and in
    [mergeDirectory]. *)
Definition choose_listed (listed : list jstring) (answer : jstring) : jstring :=
  match parseInt answer with
  | Some num =>
      if (1 <=? num)%Z && (num <=? Z.of_nat (length listed))%Z
      then nth (Z.to_nat (num - 1)) listed []
      else answer
  | None => answer
  end.

(** A key press: a chunk of one code unit. *)
Definition key_press (c : ascii) : jstring := [c].

Definition is_printable (c : ascii) : bool :=
  let n := nat_of_ascii c in (32 <=? n) && (n <=? 126).

(** A directory listing with numbered chapters. *)
Definition numbered_chapters : list jstring :=
  [js "2-setup.md"; js "10-appendix.md"; js "1-intro.md"].

(** * Cleaning up (cleanup in src/converter.ts, disposeHighlighter in
    src/code-plugin.ts) *)

(** What [cleanup] can throw: an exception of the calls modelled above,
    or the failure of [fs.unlinkSync]. *)
Inductive CleanupFailure :=
  | CleanupFs (e : error)
  | CleanupUnlink (e : errno) (p : path).

Definition remove_entry (name : jstring) (es : list jstring) : list jstring :=
  List.filter (fun e => negb (bool_decide (e = name))) es.

(** [fs.unlinkSync(p)]: a file is removed together with its entry in the
    parent directory; a directory cannot be unlinked. *)
Definition unlinkSync (p : path) (f : gmap path node)
  : CleanupFailure + gmap path node :=
  match f !! p with
  | Some (File _) =>
      let f' := delete p f in
      inr (match f' !! path_dirname p with
           | Some (Dir es) =>
               <[path_dirname p := Dir (remove_entry (path_basename p) es)]> f'
           | _ => f'
           end)
  | Some (Dir _) => inl (CleanupUnlink EISDIR p)
  | None => inl (CleanupUnlink ENOENT p)
  end.

(** [for (const file of files) fs.unlinkSync(path.join(tempDir, file))]:
    the files removed before a failure stay removed. *)
Fixpoint unlink_all (dir : path) (files : list jstring) (f : gmap path node)
  : option CleanupFailure * gmap path node :=
  match files with
  | [] => (None, f)
  | file :: files' =>
      match unlinkSync (path_join dir file) f with
      | inl failure => (Some failure, f)
      | inr f' => unlink_all dir files' f'
      end
  end.

(** The module variable [highlighterInstance] and the two functions that
    assign it; [created] is what [createHighlighter] resolves with. *)
Definition getHighlighter (created : Highlighter) (highlighterInstance : option Highlighter)
  : Highlighter * option Highlighter :=
  match highlighterInstance with
  | Some highlighter => (highlighter, highlighterInstance)
  | None => (created, Some created)
  end.

Definition disposeHighlighter (highlighterInstance : option Highlighter)
  : option Highlighter :=
  match highlighterInstance with
  | Some _ => None      (* dispose(), then the variable is set to null *)
  | None => None
  end.

(** [cleanup()]: the result is the exception, if any, the world and the
    highlighter variable as the call leaves them. *)
Definition cleanup `{Platform} (w : World) (highlighterInstance : option Highlighter)
  : option CleanupFailure * World * option Highlighter :=
  if bool_decide (is_Some (fs w !! tempDir)) then
    match readdirSync tempDir w with
    | (Err e, _) => (Some (CleanupFs e), w, highlighterInstance)
    | (Ok files, _) =>
        match unlink_all tempDir files (fs w) with
        | (Some failure, f) => (Some failure, set_fs f w, highlighterInstance)
        | (None, f) => (None, set_fs f w, disposeHighlighter highlighterInstance)
        end
    end
  else (None, w, disposeHighlighter highlighterInstance).

Definition is_file (f : gmap path node) (p : path) : bool :=
  match f !! p with
  | Some (File _) => true
  | _ => false
  end.

(** The directory [dir] lists its children, each once; they are regular
    files and nothing else lies directly below [dir]. *)
Definition holds_only_files (f : gmap path node) (dir : path) (es : list jstring)
  : Prop :=
  f !! dir = Some (Dir es) /\ NoDup es /\
  Forall (fun name => is_file f (path_join dir name) = true) es /\
  map_Forall (fun (q : path) (_ : node) =>
                path_dirname q = dir -> q <> [] -> path_basename q ∈ es) f.

(** The world after one diagram has been rendered. *)
Definition world_with_one_image `{Platform} : World :=
  snd (render_block (mkBlock (js "graph TD; A-->B") 0 29) test_world).

(** A file system whose scratch directory holds a file, a directory and
    another file, listed in this order. *)
Definition fs_with_nested_scratch : gmap path node :=
  <[ [js "tmp"; js "md-docx-mermaid"] := Dir [js "old.png"; js "keep"; js "new.png"] ]>
    (<[ [js "tmp"; js "md-docx-mermaid"; js "old.png"] := File (js "PNG") ]>
       (<[ [js "tmp"; js "md-docx-mermaid"; js "keep"] := Dir [] ]>
          (<[ [js "tmp"; js "md-docx-mermaid"; js "new.png"] := File (js "PNG") ]>
             test_fs))).

(** * The arguments of the command line (parseArgs in src/cli.ts) *)

Inductive Language := LanguageEn | LanguageZhTW.

(** [mermaid: boolean | "auto"]: the value is "auto" until [-m] sets it
    to true; no argument sets it to false. *)
Inductive MermaidMode := MermaidAuto | MermaidOn.

Record CliOptions := mkCliOptions {
  cli_input : jstring;
  cli_output : option jstring;
  cli_mermaid : MermaidMode;
  cli_separator : Separator;
  cli_noMermaid : bool;
  cli_lang : option Language
}.

(** How [parseArgs] ends: it returns the options, or the process exits
    with code 1 after the message about the separator (the value is
    [None] when the argument list ends after [-s]), or with code 0
    after the help text. *)
Inductive ParseOutcome :=
  | Parsed (options : CliOptions)
  | ExitInvalidSeparator (sep : option jstring)
  | ExitHelp.

Definition is_one_of (arg : jstring) (names : list jstring) : bool :=
  bool_decide (arg ∈ names).

Definition separator_of (sep : jstring) : option Separator :=
  if bool_decide (sep = js "pagebreak") then Some pagebreak
  else if bool_decide (sep = js "hr") then Some hr
  else if bool_decide (sep = js "none") then Some none
  else None.

Definition language_of (name : jstring) : option Language :=
  if bool_decide (name = js "en") then Some LanguageEn
  else if bool_decide (name = js "zh-TW") || bool_decide (name = js "zh")
  then Some LanguageZhTW
  else None.

(** The loop [for (let i = 0; i < args.length; i++)] from index [i] on,
    [args] being the arguments from there; [args[++i]] takes the next
    argument, which is undefined after the last one. *)
Fixpoint parse_from (args : list jstring) (options : CliOptions) : ParseOutcome :=
  match args with
  | [] => Parsed options
  | arg :: rest =>
      if is_one_of arg [js "-o"; js "--output"] then
        match rest with
        | value :: rest' =>
            parse_from rest'
              (mkCliOptions (cli_input options) (Some value) (cli_mermaid options)
                 (cli_separator options) (cli_noMermaid options) (cli_lang options))
        | [] =>
            Parsed (mkCliOptions (cli_input options) None (cli_mermaid options)
                      (cli_separator options) (cli_noMermaid options)
                      (cli_lang options))
        end
      else if is_one_of arg [js "-m"; js "--mermaid"] then
        parse_from rest
          (mkCliOptions (cli_input options) (cli_output options) MermaidOn
             (cli_separator options) (cli_noMermaid options) (cli_lang options))
      else if is_one_of arg [js "--no-mermaid"] then
        parse_from rest
          (mkCliOptions (cli_input options) (cli_output options) (cli_mermaid options)
             (cli_separator options) true (cli_lang options))
      else if is_one_of arg [js "-s"; js "--separator"] then
        match rest with
        | value :: rest' =>
            match separator_of value with
            | Some sep =>
                parse_from rest'
                  (mkCliOptions (cli_input options) (cli_output options)
                     (cli_mermaid options) sep (cli_noMermaid options)
                     (cli_lang options))
            | None => ExitInvalidSeparator (Some value)
            end
        | [] => ExitInvalidSeparator None
        end
      else if is_one_of arg [js "-l"; js "--lang"] then
        match rest with
        | value :: rest' =>
            parse_from rest'
              match language_of value with
              | Some language =>
                  mkCliOptions (cli_input options) (cli_output options)
                    (cli_mermaid options) (cli_separator options)
                    (cli_noMermaid options) (Some language)
              | None => options
              end
        | [] => Parsed options
        end
      else if is_one_of arg [js "-h"; js "--help"] then ExitHelp
      else if negb (starts_with (js "-") arg) then
        parse_from rest
          (mkCliOptions arg (cli_output options) (cli_mermaid options)
             (cli_separator options) (cli_noMermaid options) (cli_lang options))
      else parse_from rest options
  end.

Definition initial_options : CliOptions :=
  mkCliOptions [] None MermaidAuto pagebreak false None.

Definition parseArgs (args : list jstring) : ParseOutcome :=
  parse_from args initial_options.

(** The setting [main] derives from the options; the detection reads the
    input only in the automatic mode. *)
Definition main_enableMermaid `{Platform} (options : CliOptions) (inputPath : jstring)
  : M bool :=
  if cli_noMermaid options then ret false
  else match cli_mermaid options with
       | MermaidOn => ret true
       | MermaidAuto => detectMermaid inputPath
       end.

(** * Properties *)

(** ** Strings *)

Lemma starts_with_app (p s : jstring) :
  starts_with p s = true <-> exists r, s = p ++ r.
Proof.
  revert s. induction p as [|a p IH]; intros s; simpl.
  - split; eauto.
  - destruct s as [|b s].
    + split; [discriminate | intros [r Hr]; discriminate].
    + rewrite andb_true_iff, Ascii.eqb_eq, IH. split.
      * intros [-> [r ->]]. eauto.
      * intros [r Hr]. injection Hr as -> ->. eauto.
Qed.

Lemma starts_with_occurs (p s : jstring) (i : nat) :
  starts_with p (drop i s) = true <-> occurs_at p s i.
Proof.
  unfold occurs_at. rewrite starts_with_app. split.
  - intros [r ->]. by rewrite take_app_length.
  - intros Hp. exists (drop (length p) (drop i s)).
    rewrite <- Hp at 1. by rewrite take_drop.
Qed.

Lemma occurs_at_length (p s : jstring) (i : nat) :
  0 < length p -> occurs_at p s i -> i + length p <= length s.
Proof.
  unfold occurs_at. intros Hlen Hp.
  apply (f_equal length) in Hp. rewrite length_take, length_drop in Hp. lia.
Qed.

Lemma occurs_at_drop (p s : jstring) (i k : nat) :
  occurs_at p (drop k s) i <-> occurs_at p s (k + i).
Proof. unfold occurs_at. by rewrite drop_drop. Qed.

Lemma find_Some (p s : jstring) (j : nat) :
  find p s = Some j ->
  occurs_at p s j /\ forall k, k < j -> ~ occurs_at p s k.
Proof.
  revert j. induction s as [|c s IH]; intros j; simpl.
  - destruct (starts_with p []) eqn:Hp; [|discriminate].
    intros [= <-]. split; [by apply starts_with_occurs | lia].
  - destruct (starts_with p (c :: s)) eqn:Hp.
    + intros [= <-]. split; [by apply (starts_with_occurs p (c :: s) 0) | lia].
    + destruct (find p s) as [j'|]; [|discriminate].
      simpl. intros [= <-]. destruct (IH j' eq_refl) as [Hj Hmin]. split.
      * apply (occurs_at_drop p (c :: s) j' 1), Hj.
      * intros [|k] Hk.
        -- rewrite <- starts_with_occurs. simpl. by rewrite Hp.
        -- intros Hocc. apply (Hmin k); [lia|].
           by apply (occurs_at_drop p (c :: s) k 1).
Qed.

Lemma find_None (p s : jstring) (k : nat) :
  find p s = None -> ~ occurs_at p s k.
Proof.
  rewrite <- starts_with_occurs.
  revert k. induction s as [|c s IH]; intros k; simpl.
  - destruct (starts_with p []) eqn:Hp; [discriminate|].
    intros _. rewrite drop_nil. by rewrite Hp.
  - destruct (starts_with p (c :: s)) eqn:Hp; [discriminate|].
    destruct (find p s) eqn:Hf; [discriminate|]. intros _.
    destruct k as [|k]; simpl; [by rewrite Hp | by apply IH].
Qed.

Lemma find_is_Some (p s : jstring) (k : nat) :
  occurs_at p s k -> is_Some (find p s).
Proof.
  intros Hk. destruct (find p s) eqn:Hf; [eauto|].
  by apply (find_None p s k) in Hf.
Qed.

(** ** The scanner *)

Lemma fence_open_length : length fence_open = 11.
Proof. reflexivity. Qed.

Lemma fence_close_length : length fence_close = 3.
Proof. reflexivity. Qed.

Lemma match_here_Some (t body : jstring) (len : nat) :
  match_here t = Some (body, len) ->
  exists j, occurs_at fence_open t 0 /\
    occurs_at fence_close t (11 + j) /\
    (forall k, k < j -> ~ occurs_at fence_close t (11 + k)) /\
    body = take j (drop 11 t) /\ len = 11 + j + 3.
Proof.
  unfold match_here. destruct (starts_with fence_open t) eqn:Hopen; [|discriminate].
  rewrite fence_open_length, fence_close_length.
  destruct (find fence_close (drop 11 t)) as [j|] eqn:Hf; [|discriminate].
  intros [= <- <-]. exists j. apply find_Some in Hf as [Hj Hmin].
  split; [by apply (starts_with_occurs fence_open t 0)|].
  split; [by apply occurs_at_drop|].
  split; [|done]. intros k Hk Hocc. apply (Hmin k Hk). by apply occurs_at_drop.
Qed.

Lemma match_here_None (t : jstring) (j : nat) :
  match_here t = None -> occurs_at fence_open t 0 ->
  ~ occurs_at fence_close t (11 + j).
Proof.
  unfold match_here. intros Hm Hopen.
  apply (starts_with_occurs fence_open t 0) in Hopen. rewrite drop_0 in Hopen.
  rewrite Hopen, fence_open_length in Hm.
  destruct (find fence_close (drop 11 t)) eqn:Hf; [discriminate|].
  intros Hocc. apply (find_None _ _ j) in Hf. apply Hf. by apply occurs_at_drop.
Qed.

Lemma exec_from_Some (t body : jstring) (i len : nat) :
  exec_from t = Some (i, body, len) ->
  match_here (drop i t) = Some (body, len) /\
  forall k, k < i -> match_here (drop k t) = None.
Proof.
  revert i. induction t as [|c t IH]; intros i; cbn [exec_from].
  - destruct (match_here []) as [[b l]|] eqn:Hm; [|discriminate].
    intros [= <- <- <-]. split; [done | lia].
  - destruct (match_here (c :: t)) as [[b l]|] eqn:Hm.
    + intros [= <- <- <-]. split; [done | lia].
    + destruct (exec_from t) as [[[i' b] l]|]; [|discriminate].
      intros [= <- <- <-]. destruct (IH i' eq_refl) as [Hi Hmin].
      split; [done|]. intros [|k] Hk; [done|]. apply Hmin. lia.
Qed.

Lemma exec_from_None (t : jstring) (k : nat) :
  exec_from t = None -> match_here (drop k t) = None.
Proof.
  revert k. induction t as [|c t IH]; intros k; cbn [exec_from].
  - destruct (match_here []) as [[b l]|] eqn:Hm; [discriminate|].
    intros _. by rewrite drop_nil.
  - destruct (match_here (c :: t)) as [[b l]|] eqn:Hm; [discriminate|].
    destruct (exec_from t) as [[[i' b] l]|] eqn:He; [discriminate|].
    intros _. destruct k as [|k]; [done|]. by apply IH.
Qed.

Lemma exec_from_bounds (t body : jstring) (i len : nat) :
  exec_from t = Some (i, body, len) -> 14 <= len /\ i + len <= length t.
Proof.
  intros He. apply exec_from_Some in He as [Hm _].
  apply match_here_Some in Hm as (j & _ & Hclose & _ & _ & ->).
  apply occurs_at_length in Hclose; [|rewrite fence_close_length; lia].
  rewrite length_drop, fence_close_length in Hclose. lia.
Qed.

(** The fuel of the scanning loop is never the reason it stops. *)
Lemma scan_fuel (f1 f2 base : nat) (t : jstring) :
  length t <= f1 -> length t <= f2 -> scan f1 base t = scan f2 base t.
Proof.
  revert f2 base t. induction f1 as [|f1 IH]; intros f2 base t H1 H2.
  - destruct t; [|simpl in H1; lia]. by destruct f2.
  - destruct f2 as [|f2].
    + destruct t; [done | simpl in H2; lia].
    + cbn [scan]. destruct (exec_from t) as [[[i body] len]|] eqn:He; [|done].
      apply exec_from_bounds in He as [Hlen Hle].
      f_equal. apply IH; rewrite length_drop; lia.
Qed.

Lemma scan_sound (md : jstring) (fuel base : nat) (b : MermaidBlock) :
  b ∈ scan fuel base (drop base md) ->
  exists i j, base <= i /\ fenced_at md b i j.
Proof.
  revert base. induction fuel as [|fuel IH]; intros base; cbn [scan].
  - by intros ?%elem_of_nil.
  - destruct (exec_from (drop base md)) as [[[i body] len]|] eqn:He;
      [|by intros ?%elem_of_nil].
    pose proof (exec_from_bounds _ _ _ _ He) as [Hlen Hle].
    rewrite length_drop in Hle.
    intros [->|Hin]%elem_of_cons.
    + apply exec_from_Some in He as [Hm _]. rewrite drop_drop in Hm.
      apply match_here_Some in Hm as (j & Hopen & Hclose & Hmin & -> & ->).
      exists (base + i), j. split; [lia|]. unfold fenced_at. cbn.
      rewrite occurs_at_drop in Hopen, Hclose.
      replace (base + i + 0) with (base + i) in Hopen by lia.
      replace (base + i + (11 + j)) with (base + i + 11 + j) in Hclose by lia.
      repeat split; try done; try lia.
      * intros k Hk Hocc. apply (Hmin k Hk). apply occurs_at_drop.
        by replace (base + i + (11 + k)) with (base + i + 11 + k) by lia.
      * by rewrite drop_drop.
    + rewrite drop_drop in Hin.
      replace (base + (i + len)) with (base + i + len) in Hin by lia.
      apply IH in Hin as (i' & j' & Hi' & Hb). exists i', j'. split; [lia | done].
Qed.

Lemma scan_blocks_from (md : jstring) (fuel base : nat) :
  blocks_from (Z.of_nat base) (Z.of_nat (length md))
              (scan fuel base (drop base md)).
Proof.
  revert base. induction fuel as [|fuel IH]; intros base; cbn [scan]; [done|].
  destruct (exec_from (drop base md)) as [[[i body] len]|] eqn:He; [|done].
  apply exec_from_bounds in He as [Hlen Hle]. rewrite length_drop in Hle.
  cbn. repeat split; try lia.
  rewrite drop_drop. replace (base + (i + len)) with (base + i + len) by lia.
  replace (Z.of_nat (base + i) + Z.of_nat len)%Z with (Z.of_nat (base + i + len)) by lia.
  apply IH.
Qed.

Lemma extractMermaidBlocks_blocks_from (md : jstring) :
  blocks_from 0 (Z.of_nat (length md)) (extractMermaidBlocks md).
Proof. apply (scan_blocks_from md (length md) 0). Qed.

(** A text in which an opening fence is followed somewhere by a closing
    fence yields at least one block. *)
Lemma scan_complete (md : jstring) (i j : nat) :
  occurs_at fence_open md i -> occurs_at fence_close md (i + 11 + j) ->
  extractMermaidBlocks md <> [].
Proof.
  intros Hopen Hclose. unfold extractMermaidBlocks.
  assert (Hlen : 0 < length md).
  { apply occurs_at_length in Hopen; rewrite fence_open_length in *; lia. }
  destruct (length md) as [|fuel] eqn:Hfuel; [lia|]. cbn [scan].
  destruct (exec_from md) as [[[i' body] len]|] eqn:He; [done|].
  apply (exec_from_None _ i) in He. exfalso.
  apply (match_here_None _ j He).
  - apply occurs_at_drop. by replace (i + 0) with i by lia.
  - apply occurs_at_drop. by replace (i + (11 + j)) with (i + 11 + j) by lia.
Qed.

(** C9: The scanner recognizes a block only where the literal opening
    fence, the language tag immediately followed by a line feed, stands
    in the text, and the body of the block ends at the first closing
    fence after it, wherever that stands: every block returned for a text
    starts at an index [i] where the eleven code units of the opening
    literal occur, and ends three code units after the first index at or
    after [i + 11] where three backticks occur. An opening fence followed
    by a space or by attributes yields no block, and a body that holds
    three backticks is cut there. Conversely a text in which the opening
    literal is followed somewhere by three backticks yields a block. *)
Theorem C9_scanner_fence_shape :
  (forall (md : jstring) (b : MermaidBlock),
      b ∈ extractMermaidBlocks md -> exists i j, fenced_at md b i j) /\
  (forall (md : jstring) (i j : nat),
      occurs_at fence_open md i -> occurs_at fence_close md (i + 11 + j) ->
      extractMermaidBlocks md <> []) /\
  extractMermaidBlocks fence_with_trailing_space = [] /\
  extractMermaidBlocks fence_with_attributes = [] /\
  extractMermaidBlocks body_with_backticks = [mkBlock (js "A[x") 0 18].
Proof.
  split; [|split; [apply scan_complete | by vm_compute]].
  intros md b Hb. apply (scan_sound md (length md) 0) in Hb as (i & j & _ & Hb).
  eauto.
Qed.

(** ** The rewriter *)

Lemma substring_take_drop (s : jstring) (a b : Z) :
  (0 <= a <= b)%Z -> (b <= Z.of_nat (length s))%Z ->
  substring s a b = take (Z.to_nat b - Z.to_nat a) (drop (Z.to_nat a) s).
Proof.
  intros Hab Hb. unfold substring, clamp.
  replace (Z.to_nat (Z.min (Z.max a 0) (Z.of_nat (length s)))) with (Z.to_nat a) by lia.
  replace (Z.to_nat (Z.min (Z.max b 0) (Z.of_nat (length s)))) with (Z.to_nat b) by lia.
  by replace (Z.to_nat a `max` Z.to_nat b) with (Z.to_nat b) by lia;
     replace (Z.to_nat a `min` Z.to_nat b) with (Z.to_nat a) by lia.
Qed.

Lemma substring_from_drop (s : jstring) (a : Z) :
  (0 <= a <= Z.of_nat (length s))%Z ->
  substring_from s a = drop (Z.to_nat a) s.
Proof.
  intros Ha. unfold substring_from, clamp. f_equal. lia.
Qed.

Lemma substring_length (s : jstring) (a b : Z) :
  (0 <= a <= b)%Z -> (b <= Z.of_nat (length s))%Z ->
  Z.of_nat (length (substring s a b)) = (b - a)%Z.
Proof.
  intros Hab Hb. rewrite substring_take_drop by done.
  rewrite length_take, length_drop. lia.
Qed.

(** Cutting a text at [a], [b] and [c]. *)
Lemma substring_from_split (s : jstring) (a b : Z) :
  (0 <= a <= b)%Z -> (b <= Z.of_nat (length s))%Z ->
  substring_from s a = substring s a b ++ substring_from s b.
Proof.
  intros Hab Hb.
  rewrite substring_take_drop, !substring_from_drop by lia.
  rewrite <- (take_drop (Z.to_nat b - Z.to_nat a) (drop (Z.to_nat a) s)) at 1.
  rewrite drop_drop. do 2 f_equal. lia.
Qed.

(** In a text [R ++ drop c md] the span [a, b) of [md], shifted by the
    difference of the lengths, still holds what it held in [md]. *)
Lemma substring_shifted (R md : jstring) (c a b : Z) :
  (0 <= c <= a)%Z -> (a <= b)%Z -> (b <= Z.of_nat (length md))%Z ->
  let offset := (Z.of_nat (length R) - c)%Z in
  substring (R ++ substring_from md c) (a + offset) (b + offset)
  = substring md a b.
Proof.
  intros Hc Hab Hb offset. subst offset.
  rewrite substring_from_drop by lia.
  rewrite !substring_take_drop; rewrite ?length_app, ?length_drop; try lia.
  rewrite drop_app_ge by lia.
  rewrite drop_drop. f_equal; [lia|]. f_equal. lia.
Qed.

Lemma substring_prefix_shifted (R md : jstring) (c a : Z) :
  (0 <= c <= a)%Z -> (a <= Z.of_nat (length md))%Z ->
  substring (R ++ substring_from md c) 0 (a + (Z.of_nat (length R) - c))
  = R ++ substring md c a.
Proof.
  intros Hc Ha.
  rewrite substring_from_drop by lia.
  rewrite !substring_take_drop; rewrite ?length_app, ?length_drop; try lia.
  rewrite drop_0. change (Z.to_nat 0) with 0.
  rewrite take_app_ge by lia. do 2 f_equal. lia.
Qed.

Lemma substring_from_shifted (R md : jstring) (c b : Z) :
  (0 <= c <= b)%Z -> (b <= Z.of_nat (length md))%Z ->
  substring_from (R ++ substring_from md c) (b + (Z.of_nat (length R) - c))
  = substring_from md b.
Proof.
  intros Hc Hb.
  rewrite (substring_from_drop md c) by lia.
  rewrite !substring_from_drop; rewrite ?length_app, ?length_drop; try lia.
  rewrite drop_app_ge by lia. rewrite drop_drop. f_equal. lia.
Qed.

Lemma blocks_from_bounds (lo len : Z) (blocks : list MermaidBlock) (b : MermaidBlock) :
  blocks_from lo len blocks -> b ∈ blocks ->
  (lo <= startIndex b)%Z /\ (startIndex b < endIndex b)%Z /\ (endIndex b <= len)%Z.
Proof.
  revert lo. induction blocks as [|b0 blocks IH]; intros lo Hfrom Hin.
  - by apply elem_of_nil in Hin.
  - destruct Hfrom as (Hlo & Hlt & Hlen & Hrest).
    apply elem_of_cons in Hin as [->|Hin]; [done|].
    destruct (IH _ Hrest Hin) as (? & ? & ?). lia.
Qed.

Lemma blocks_from_app (lo len : Z) (pre post : list MermaidBlock) :
  blocks_from lo len (pre ++ post) ->
  blocks_from lo len pre /\
  blocks_from (last_end lo (zip pre (replicate (length pre) None))) len post /\
  (lo <= last_end lo (zip pre (replicate (length pre) None)))%Z.
Proof.
  revert lo. induction pre as [|b pre IH]; intros lo; cbn.
  - intros H. repeat split; [done | lia].
  - intros (Hlo & Hlt & Hlen & Hrest).
    destruct (IH _ Hrest) as (Hpre & Hpost & Hle). repeat split; try done. lia.
Qed.

Lemma last_end_zip (lo : Z) (blocks : list MermaidBlock)
    (o1 o2 : list (option jstring)) :
  length o1 = length blocks -> length o2 = length blocks ->
  last_end lo (zip blocks o1) = last_end lo (zip blocks o2).
Proof.
  revert lo o1 o2. induction blocks as [|b blocks IH]; intros lo o1 o2 H1 H2.
  - done.
  - destruct o1 as [|x1 o1], o2 as [|x2 o2]; try discriminate.
    cbn in *. apply IH; lia.
Qed.

Lemma block_outcomes_length `{Platform} (blocks : list MermaidBlock) (w : World) :
  length (block_outcomes blocks w) = length blocks.
Proof.
  revert w. induction blocks as [|b blocks IH]; intros w; cbn; [done|].
  destruct (render_block b w) as [[img|e] w']; cbn; by rewrite IH.
Qed.

Lemma streamed_copied (md : jstring) (c : Z)
    (items : list (MermaidBlock * option jstring)) :
  streamed md c items = copied md c items ++ substring_from md (last_end c items).
Proof.
  revert c. induction items as [|[b o] items IH]; intros c; cbn; [done|].
  by rewrite IH, <- !app_assoc.
Qed.

(** The loop invariant: the text built so far followed by the part of
    the original text that has not been reached, with the offset being
    the difference between the two positions. *)
Lemma apply_outcomes_invariant (md R : jstring) (c : Z)
    (items : list (MermaidBlock * option jstring)) :
  (0 <= c)%Z ->
  blocks_from c (Z.of_nat (length md)) (items.*1) ->
  fold_left apply_outcome items
            (R ++ substring_from md c, (Z.of_nat (length R) - c)%Z)
  = (R ++ copied md c items ++ substring_from md (last_end c items),
     (Z.of_nat (length R) - c
      + fold_right Z.add 0 (map (fun i => length_change i.1 i.2) items))%Z).
Proof.
  revert R c. induction items as [|[b o] items IH]; intros R c Hc Hfrom.
  - cbn. f_equal. lia.
  - cbn in Hfrom. destruct Hfrom as (Hlo & Hlt & Hlen & Hrest). cbn [fold_left].
    set (R' := R ++ substring md c (startIndex b)
                 ++ match o with Some img => img | None => span_text md b end).
    assert (Hstep : apply_outcome
                      (R ++ substring_from md c, (Z.of_nat (length R) - c)%Z) (b, o)
                    = (R' ++ substring_from md (endIndex b),
                       (Z.of_nat (length R') - endIndex b)%Z)).
    { unfold apply_outcome, R'. destruct o as [img|]; cbn [snd fst].
      - unfold splice.
        rewrite substring_prefix_shifted, substring_from_shifted by lia.
        rewrite <- !app_assoc. f_equal.
        rewrite !length_app.
        pose proof (substring_length md c (startIndex b)). lia.
      - rewrite (substring_from_split md c (startIndex b)) by lia.
        rewrite (substring_from_split md (startIndex b) (endIndex b)) by lia.
        unfold span_text. rewrite <- !app_assoc. f_equal.
        rewrite !length_app.
        pose proof (substring_length md c (startIndex b)).
        pose proof (substring_length md (startIndex b) (endIndex b)). lia. }
    rewrite Hstep. rewrite IH by (done || lia).
    unfold R'. cbn [copied last_end map fold_right fst snd].
    rewrite <- !app_assoc. f_equal.
    rewrite !length_app. unfold length_change, span_text.
    pose proof (substring_length md c (startIndex b)).
    pose proof (substring_length md (startIndex b) (endIndex b)).
    destruct o; lia.
Qed.

Lemma cumulative_offset_zip (blocks : list MermaidBlock)
    (outcomes : list (option jstring)) :
  fold_right Z.add 0%Z
    (map (fun i : MermaidBlock * option jstring => length_change i.1 i.2)
         (zip blocks outcomes))
  = cumulative_offset blocks outcomes.
Proof.
  unfold cumulative_offset. revert outcomes.
  induction blocks as [|b blocks IH]; intros [|o outcomes]; cbn; try done.
  by rewrite IH.
Qed.

(** One iteration, by the outcome of rendering its block. *)
Lemma rewrite_block_eq `{Platform} (st : jstring * Z) (b : MermaidBlock) (w : World) :
  rewrite_block st b w
  = match render_block b w with
    | (Ok img, w1) => (Ok (splice st b img), w1)
    | (Err e, w1) => (Ok st, snd (console_error e w1))
    end.
Proof.
  unfold rewrite_block, try_catch, bind, ret.
  by destruct (render_block b w) as [[img|e] w1].
Qed.

(** The monadic loop never throws and does what [apply_outcome] does on
    the outcomes of the blocks. *)
Lemma for_blocks_outcomes `{Platform} (blocks : list MermaidBlock)
    (st : jstring * Z) (w : World) :
  exists w', for_blocks blocks st w
             = (Ok (fold_left apply_outcome
                              (zip blocks (block_outcomes blocks w)) st), w').
Proof.
  revert st w. induction blocks as [|b blocks IH]; intros st w.
  - by exists w.
  - cbn [for_blocks block_outcomes]. unfold bind. rewrite rewrite_block_eq.
    destruct (render_block b w) as [[img|e] w1].
    + destruct (IH (splice st b img) w1) as [w' Hw']. exists w'.
      by rewrite Hw'.
    + destruct (IH st (snd (console_error e w1))) as [w' Hw']. exists w'.
      by rewrite Hw'.
Qed.

Lemma for_blocks_app `{Platform} (pre post : list MermaidBlock)
    (st : jstring * Z) (w : World) :
  for_blocks (pre ++ post) st w
  = (let* st' := for_blocks pre st in for_blocks post st') w.
Proof.
  revert st w. induction pre as [|b pre IH]; intros st w.
  - done.
  - cbn [for_blocks app]. unfold bind.
    destruct (rewrite_block st b w) as [[st1|e] w1]; [|done].
    rewrite IH. done.
Qed.

Lemma block_outcomes_app `{Platform} (pre post : list MermaidBlock) (w : World) :
  exists w', block_outcomes (pre ++ post) w
             = block_outcomes pre w ++ block_outcomes post w'
             /\ forall st, exists r, for_blocks pre st w = (r, w').
Proof.
  revert w. induction pre as [|b pre IH]; intros w.
  - exists w. split; [done|]. intros st. by exists (Ok st).
  - cbn [block_outcomes app for_blocks]. unfold bind.
    setoid_rewrite rewrite_block_eq.
    destruct (render_block b w) as [[img|e] w1].
    + destruct (IH w1) as (w' & Happ & Hw'). exists w'. split; [by rewrite Happ|].
      intros st. apply Hw'.
    + destruct (IH (snd (console_error e w1))) as (w' & Happ & Hw').
      exists w'. split; [by rewrite Happ|]. intros st. apply Hw'.
Qed.

Lemma copied_length (md : jstring) (c : Z)
    (items : list (MermaidBlock * option jstring)) :
  (0 <= c <= Z.of_nat (length md))%Z ->
  blocks_from c (Z.of_nat (length md)) (items.*1) ->
  (Z.of_nat (length (copied md c items)) - last_end c items
   = fold_right Z.add 0 (map (fun i => length_change i.1 i.2) items) - c)%Z
  /\ (c <= last_end c items <= Z.of_nat (length md))%Z.
Proof.
  revert c. induction items as [|[b o] items IH]; intros c Hc Hfrom.
  - cbn in *. lia.
  - cbn in Hfrom. destruct Hfrom as (Hlo & Hlt & Hlen & Hrest).
    destruct (IH (endIndex b)) as [IH1 IH2]; [lia | done |].
    cbn [copied last_end map fold_right fst snd].
    rewrite !length_app. unfold length_change, span_text in *.
    pose proof (substring_length md c (startIndex b)).
    pose proof (substring_length md (startIndex b) (endIndex b)).
    destruct o; lia.
Qed.

Lemma substring_from_0 (s : jstring) : substring_from s 0 = s.
Proof. unfold substring_from, clamp. by replace (Z.to_nat _) with 0 by lia. Qed.

(** The text of a block is the opening fence, the body and the closing
    fence. *)
Lemma fenced_at_span_text (md : jstring) (b : MermaidBlock) (i j : nat) :
  fenced_at md b i j ->
  span_text md b = fence_open ++ take j (drop (i + 11) md) ++ fence_close.
Proof.
  intros (Hs & He & Hlen & Hopen & Hclose & _ & _).
  unfold span_text. rewrite Hs, He, substring_take_drop by lia.
  rewrite !Nat2Z.id. replace (i + 11 + j + 3 - i) with (11 + (j + 3)) by lia.
  rewrite <- take_take_drop, <- take_take_drop, !drop_drop.
  unfold occurs_at in Hopen, Hclose.
  rewrite fence_open_length in Hopen. rewrite fence_close_length in Hclose.
  by rewrite Hopen, Hclose.
Qed.

(** C1: The rewriter walks the scanned blocks in ascending order of
    their original start offset. When it reaches a block, the running
    offset is the sum, over the blocks already handled, of the length of
    each replacement minus the length of the span it replaced, and for
    the block reached and every later one the span shifted by that offset
    in the text rewritten so far holds exactly the fenced text the block
    had in the original: the stored offsets of later blocks stay valid. *)
Theorem C1_offsets_stay_valid `{Platform} (md : jstring) (w : World)
    (pre post : list MermaidBlock) (b : MermaidBlock) :
  extractMermaidBlocks md = pre ++ b :: post ->
  blocks_from 0 (Z.of_nat (length md)) (pre ++ b :: post) /\
  exists (result : jstring) (offset : Z) (w' : World),
    for_blocks pre (md, 0%Z) w = (Ok (result, offset), w') /\
    for_blocks (pre ++ b :: post) (md, 0%Z) w
      = for_blocks (b :: post) (result, offset) w' /\
    offset = cumulative_offset pre (block_outcomes pre w) /\
    forall b', b' ∈ b :: post ->
      (0 <= startIndex b' + offset)%Z /\
      substring result (startIndex b' + offset) (endIndex b' + offset)
        = span_text md b' /\
      exists i j, fenced_at md b' i j /\
        span_text md b' = fence_open ++ take j (drop (i + 11) md) ++ fence_close.
Proof.
  intros Hscan.
  pose proof (extractMermaidBlocks_blocks_from md) as Hfrom. rewrite Hscan in Hfrom.
  split; [done|].
  destruct (for_blocks_outcomes pre (md, 0%Z) w) as [w' Hloop].
  set (items := zip pre (block_outcomes pre w)) in *.
  assert (Hitems : items.*1 = pre).
  { apply fst_zip. by rewrite block_outcomes_length. }
  apply blocks_from_app in Hfrom as (Hpre & Hpost & _).
  rewrite (last_end_zip _ _ _ (block_outcomes pre w)) in Hpost
    by (by rewrite ?length_replicate, ?block_outcomes_length).
  fold items in Hpost.
  pose proof (apply_outcomes_invariant md [] 0 items) as Hinv.
  rewrite Hitems in Hinv. specialize (Hinv ltac:(lia) Hpre).
  cbn [app length] in Hinv. rewrite substring_from_0 in Hinv.
  change (Z.of_nat 0 - 0)%Z with 0%Z in Hinv.
  pose proof (cumulative_offset_zip pre (block_outcomes pre w)) as Hcz.
  fold items in Hcz. rewrite Hcz in Hinv.
  destruct (copied_length md 0 items) as [Hcum Hend];
    [lia | by rewrite Hitems |].
  rewrite Hcz in Hcum.
  eexists _, _, w'. split; [by rewrite Hloop, Hinv|].
  split.
  { rewrite for_blocks_app. unfold bind. by rewrite Hloop, Hinv. }
  split; [lia|].
  intros b' Hb'.
  destruct (blocks_from_bounds _ _ _ _ Hpost Hb') as (Hlo & Hlt & Hlen).
  split; [lia|]. split.
  - replace (0 + cumulative_offset pre (block_outcomes pre w))%Z
      with (Z.of_nat (length (copied md 0 items)) - last_end 0 items)%Z by lia.
    apply substring_shifted; lia.
  - assert (Hin : b' ∈ extractMermaidBlocks md).
    { rewrite Hscan. apply elem_of_app. by right. }
    apply (scan_sound md (length md) 0) in Hin as (i & j & _ & Hshape).
    exists i, j. split; [done|]. by apply fenced_at_span_text.
Qed.

Lemma C1_offsets_stay_valid_witness :
  let P := test_platform working_mmdc echo_engine in
  extractMermaidBlocks two_diagrams
    = [two_diagrams_first] ++ two_diagrams_second :: [] /\
  exists (result : jstring) (offset : Z) (w' : World),
    for_blocks [two_diagrams_first] (two_diagrams, 0%Z) test_world
      = (Ok (result, offset), w') /\
    offset = cumulative_offset [two_diagrams_first]
               (block_outcomes [two_diagrams_first] test_world) /\
    substring result (startIndex two_diagrams_second + offset)
              (endIndex two_diagrams_second + offset)
      = span_text two_diagrams two_diagrams_second.
Proof.
  intros P.
  assert (Hscan : extractMermaidBlocks two_diagrams
                  = [two_diagrams_first] ++ two_diagrams_second :: [])
    by (vm_compute; reflexivity).
  split; [exact Hscan|].
  destruct (C1_offsets_stay_valid two_diagrams test_world
              [two_diagrams_first] [] two_diagrams_second Hscan)
    as (_ & result & offset & w' & Hloop & _ & Hoff & Hlater).
  exists result, offset, w'. split; [exact Hloop|]. split; [exact Hoff|].
  apply (Hlater two_diagrams_second). apply elem_of_cons. left. reflexivity.
Defined.

(** ** The replacement text *)

Lemma b64_char_not_backtick (n : nat) : b64_char n <> "`"%char.
Proof.
  unfold b64_char. destruct (decide (n < length b64_alphabet)) as [Hn|Hn].
  - assert (Hall : Forall (fun c => c <> "`"%char) b64_alphabet).
    { unfold b64_alphabet. cbn. repeat (constructor; [discriminate|]). constructor. }
    rewrite Forall_forall in Hall. apply Hall, list_elem_of_In. by apply nth_In.
  - rewrite nth_overflow by lia. discriminate.
Qed.

Lemma base64_no_backtick (bytes : jstring) : "`"%char ∉ base64 bytes.
Proof.
  assert (Hgen : forall n bs, length bs <= n -> "`"%char ∉ base64 bs).
  { induction n as [|n IH]; intros bs Hlen.
    - destruct bs; [|simpl in Hlen; lia]. apply not_elem_of_nil.
    - destruct bs as [|a [|b [|c rest]]]; cbn [base64].
      + apply not_elem_of_nil.
      + rewrite !not_elem_of_cons. pose proof b64_char_not_backtick.
        repeat split; auto; try discriminate. apply not_elem_of_nil.
      + rewrite !not_elem_of_cons. pose proof b64_char_not_backtick.
        repeat split; auto; try discriminate. apply not_elem_of_nil.
      + rewrite !not_elem_of_cons. pose proof b64_char_not_backtick.
        repeat split; auto. apply IH. simpl in Hlen. lia. }
  by apply (Hgen (length bytes)).
Qed.

Lemma imgMarkdown_no_backtick (bytes : jstring) :
  "`"%char ∉ imgMarkdown (base64 bytes).
Proof.
  unfold imgMarkdown. rewrite !not_elem_of_app.
  pose proof (base64_no_backtick bytes).
  repeat split; try done;
    cbn; rewrite ?not_elem_of_cons; repeat split; try discriminate;
    apply not_elem_of_nil.
Qed.

Lemma render_block_shape `{Platform} (b : MermaidBlock) (w w' : World) (img : jstring) :
  render_block b w = (Ok img, w') -> exists bytes, img = imgMarkdown (base64 bytes).
Proof.
  unfold render_block, bind, ret.
  destruct (renderMermaidToPng (code b) w) as [[p|e] w1]; [|discriminate].
  destruct (readFileSync p w1) as [[bytes|e] w2]; [|discriminate].
  intros [= <- _]. by exists bytes.
Qed.

Lemma block_outcomes_shape `{Platform} (blocks : list MermaidBlock) (w : World)
    (i : nat) (img : jstring) :
  block_outcomes blocks w !! i = Some (Some img) ->
  exists bytes, img = imgMarkdown (base64 bytes).
Proof.
  revert w i. induction blocks as [|b blocks IH]; intros w i; cbn [block_outcomes].
  - by rewrite lookup_nil.
  - destruct (render_block b w) as [[img0|e] w1] eqn:Hr.
    + destruct i as [|i]; cbn.
      * intros [= ->]. by apply render_block_shape in Hr.
      * apply IH.
    + destruct i as [|i]; cbn; [discriminate | apply IH].
Qed.

(** C2: Rewriting never throws: when rendering a block fails the
    failure is logged, the block keeps its original fenced text in the
    output and the loop goes on with the remaining blocks. The output is
    the original text in which the whole span of every block whose render
    succeeded is replaced by its image reference: two line feeds, the
    image with the base64 data URI, two line feeds. An image reference
    holds no backtick, so nothing of the fence of a rendered block is
    left. *)
Theorem C2_failed_blocks_are_kept `{Platform} (md : jstring) (w : World) :
  let blocks := extractMermaidBlocks md in
  let outcomes := block_outcomes blocks w in
  (exists w', preprocessMermaid md w
              = (Ok (streamed md 0 (zip blocks outcomes)), w')) /\
  length outcomes = length blocks /\
  forall (i : nat) (img : jstring),
    outcomes !! i = Some (Some img) ->
    ("`"%char ∉ img) /\
    exists bytes,
      img = [LF; LF] ++ js "![Mermaid Diagram](data:image/png;base64,"
            ++ base64 bytes ++ js ")" ++ [LF; LF].
Proof.
  intros blocks outcomes. subst outcomes blocks. split; [|split].
  - unfold preprocessMermaid.
    pose proof (extractMermaidBlocks_blocks_from md) as Hfrom.
    destruct (extractMermaidBlocks md) as [|b0 blocks] eqn:Hblocks.
    + exists w. cbn. by rewrite substring_from_0.
    + cbn [length Nat.eqb]. unfold bind.
      destruct (for_blocks_outcomes (b0 :: blocks) (md, 0%Z) w) as [w' Hloop].
      rewrite Hloop. exists w'. unfold ret. do 2 f_equal.
      pose proof (apply_outcomes_invariant md [] 0
                    (zip (b0 :: blocks) (block_outcomes (b0 :: blocks) w))) as Hinv.
      rewrite fst_zip in Hinv by (by rewrite block_outcomes_length).
      specialize (Hinv ltac:(lia) Hfrom).
      cbn [app length] in Hinv. rewrite substring_from_0 in Hinv.
      change (Z.of_nat 0 - 0)%Z with 0%Z in Hinv.
      rewrite Hinv. cbn [fst]. by rewrite streamed_copied.
  - apply block_outcomes_length.
  - intros i img Hi. apply block_outcomes_shape in Hi as [bytes ->].
    split; [apply imgMarkdown_no_backtick|]. exists bytes.
    unfold imgMarkdown. cbn. done.
Qed.

(** ** The render cache *)

Lemma renderMermaidToPng_Ok `{Platform} (mermaidCode : jstring) (w w1 : World) (p : path) :
  renderMermaidToPng mermaidCode w = (Ok p, w1) ->
  p = cache_output_file mermaidCode /\
  is_Some (fs w1 !! cache_output_file mermaidCode) /\
  (w1 = w \/ length (spawned w1) = S (length (spawned w))).
Proof.
  unfold renderMermaidToPng, bind, existsSync, ret, throw.
  destruct (bool_decide (is_Some (fs w !! cache_output_file mermaidCode))) eqn:Hc.
  - intros [= <- <-]. apply bool_decide_eq_true in Hc. auto.
  - destruct (writeFileSync _ _ w) as [[u|e] w2] eqn:Hw; [|discriminate].
    assert (Hsp2 : spawned w2 = spawned w).
    { unfold writeFileSync in Hw.
      destruct (put_file _ _ (fs w)); by simplify_eq. }
    destruct (spawn _ _ w2) as [[[msg|exit_code stderr]|e] w3] eqn:Hs;
      [discriminate| |discriminate].
    assert (Hsp3 : length (spawned w3) = S (length (spawned w2))).
    { unfold spawn in Hs.
      destruct (mmdc _ _) as [?|? ? [bytes|]]; simplify_eq; cbn;
        try destruct (put_file _ _ _); cbn; rewrite length_app; cbn; lia. }
    destruct (negb (exit_code =? 0)%Z); [discriminate|].
    destruct (bool_decide (is_Some (fs w3 !! cache_output_file mermaidCode))) eqn:Hp;
      [|discriminate].
    cbn. intros [= <- <-]. apply bool_decide_eq_true in Hp.
    repeat split; [done|]. right. by rewrite Hsp3, Hsp2.
Qed.

Lemma renderMermaidToPng_hit `{Platform} (mermaidCode : jstring) (w : World) :
  is_Some (fs w !! cache_output_file mermaidCode) ->
  renderMermaidToPng mermaidCode w = (Ok (cache_output_file mermaidCode), w).
Proof.
  intros Hc. unfold renderMermaidToPng, bind, existsSync, ret.
  by rewrite bool_decide_eq_true_2.
Qed.

(** With a renderer that exits with code 1, two calls with the same
    source text run the renderer twice and neither returns a path. *)
Lemma C3_renderer_runs_on_every_failure :
  let P := test_platform failing_mmdc echo_engine in
  resolve_twice (js "graph TD; A-->B") test_world
    = (Err (RenderFailure (js "Parse error")),
       Err (RenderFailure (js "Parse error")), 2)
  /\ ~ renders_at_most_once (js "graph TD; A-->B") test_world.
Proof.
  intros P.
  assert (Hrun : resolve_twice (js "graph TD; A-->B") test_world
                 = (Err (RenderFailure (js "Parse error")),
                    Err (RenderFailure (js "Parse error")), 2))
    by (vm_compute; reflexivity).
  split; [exact Hrun|]. unfold renders_at_most_once. rewrite Hrun.
  intros [Hruns _]. lia.
Qed.

(** C3 (amended): The cache key and the image path are computed from
    the trimmed source text of a block alone, so two blocks with the same
    trimmed source text, wherever they stand and whatever text they come
    from, have the same key and the same path. When a call of
    [renderMermaidToPng] succeeds, it returns that path, the file of
    that path exists, the call has spawned the renderer at most once,
    and a second call with the same source text in the world the first
    one leaves returns the same path without spawning the renderer or
    changing anything. *)
Theorem C3_cache_hit_after_success `{Platform} :
  (forall (md1 md2 : jstring) (b1 b2 : MermaidBlock) (i1 j1 i2 j2 : nat),
      fenced_at md1 b1 i1 j1 -> fenced_at md2 b2 i2 j2 ->
      trim (take j1 (drop (i1 + 11) md1)) = trim (take j2 (drop (i2 + 11) md2)) ->
      cache_key (code b1) = cache_key (code b2) /\
      cache_output_file (code b1) = cache_output_file (code b2)) /\
  (forall (mermaidCode : jstring) (w w1 : World) (p : path),
      renderMermaidToPng mermaidCode w = (Ok p, w1) ->
      p = cache_output_file mermaidCode /\
      is_Some (fs w1 !! p) /\
      length (spawned w1) <= length (spawned w) + 1 /\
      renderMermaidToPng mermaidCode w1 = (Ok p, w1)).
Proof.
  split.
  - intros md1 md2 b1 b2 i1 j1 i2 j2 H1 H2 Heq.
    destruct H1 as (_ & _ & _ & _ & _ & _ & ->).
    destruct H2 as (_ & _ & _ & _ & _ & _ & ->).
    by rewrite Heq.
  - intros mermaidCode w w1 p Hcall.
    apply renderMermaidToPng_Ok in Hcall as (-> & Hfile & Hsp).
    split; [done|]. split; [done|]. split.
    + destruct Hsp as [-> | ->]; lia.
    + by apply renderMermaidToPng_hit.
Qed.

(** ** Tokens of a name *)

Lemma span_app (p : ascii -> bool) (s : jstring) :
  (span p s).1 ++ (span p s).2 = s.
Proof.
  induction s as [|c s IH]; cbn; [done|].
  destruct (p c); [|done]. destruct (span p s) as [run rest]. cbn in *.
  by rewrite IH.
Qed.

Lemma span_forallb (p : ascii -> bool) (s : jstring) :
  forallb p (span p s).1 = true.
Proof.
  induction s as [|c s IH]; cbn; [done|].
  destruct (p c) eqn:Hc; [|done]. destruct (span p s) as [run rest]. cbn in *.
  by rewrite Hc, IH.
Qed.

Lemma span_rest (p : ascii -> bool) (s : jstring) :
  match (span p s).2 with
  | [] => True
  | c :: _ => p c = false
  end.
Proof.
  induction s as [|c s IH]; cbn; [done|].
  destruct (p c) eqn:Hc; [|done]. by destruct (span p s) as [run rest].
Qed.

Lemma span_head (p : ascii -> bool) (c : ascii) (s : jstring) :
  p c = true -> exists run, (span p (c :: s)).1 = c :: run.
Proof.
  intros Hc. cbn. rewrite Hc. destruct (span p s) as [run rest]. by exists run.
Qed.

Lemma span_all (p : ascii -> bool) (s : jstring) :
  forallb p s = true -> span p s = (s, []).
Proof.
  induction s as [|c s IH]; cbn; [done|].
  intros [Hc Hs]%andb_true_iff. by rewrite Hc, IH.
Qed.

Lemma span_none (p : ascii -> bool) (c : ascii) (s : jstring) :
  p c = false -> span p (c :: s) = ([], c :: s).
Proof. intros Hc. cbn. by rewrite Hc. Qed.

Lemma match_runs_spec (fuel : nat) (s : jstring) :
  length s <= fuel ->
  concat (match_runs fuel s) = s /\ alternating (match_runs fuel s)
  /\ starts_like s (match_runs fuel s).
Proof.
  revert s. induction fuel as [|fuel IH]; intros s Hlen.
  - destruct s; [done | cbn in Hlen; lia].
  - destruct s as [|c s]; [done|]. cbn [match_runs].
    destruct (is_digit c) eqn:Hc.
    + destruct (span_head is_digit c s Hc) as [run Hrun].
      pose proof (span_app is_digit (c :: s)) as Happ.
      pose proof (span_forallb is_digit (c :: s)) as Hall.
      pose proof (span_rest is_digit (c :: s)) as Hrest.
      destruct (span is_digit (c :: s)) as [digits rest]. cbn in Hrun, Happ, Hall, Hrest.
      subst digits.
      assert (Hrl : length rest <= fuel).
      { apply (f_equal length) in Happ. cbn in Happ. rewrite length_app in Happ.
        cbn in Hlen. lia. }
      destruct (IH rest Hrl) as (Hcat & Halt & Hstart).
      assert (Hnum : is_numeric (c :: run) = true) by done.
      split; [cbn [concat]; by rewrite Hcat|]. split.
      * cbn [alternating]. destruct rest as [|d rest'].
        -- cbn in Hstart. rewrite Hstart. by left.
        -- destruct Hstart as (t & ts & Heq & Ht). rewrite Hrest in Ht.
           rewrite Heq in Halt |- *. split; [by left | done].
      * cbn. rewrite Hc. eauto.
    + rewrite (span_none is_digit c s Hc).
      assert (Hc' : is_non_digit c = true) by (unfold is_non_digit; by rewrite Hc).
      destruct (span_head is_non_digit c s Hc') as [run Hrun].
      pose proof (span_app is_non_digit (c :: s)) as Happ.
      pose proof (span_forallb is_non_digit (c :: s)) as Hall.
      pose proof (span_rest is_non_digit (c :: s)) as Hrest.
      destruct (span is_non_digit (c :: s)) as [others rest].
      cbn in Hrun, Happ, Hall, Hrest. subst others.
      assert (Hrl : length rest <= fuel).
      { apply (f_equal length) in Happ. cbn in Happ. rewrite length_app in Happ.
        cbn in Hlen. lia. }
      destruct (IH rest Hrl) as (Hcat & Halt & Hstart).
      assert (Htxt : is_textual (c :: run) = true) by done.
      split; [cbn [concat]; by rewrite Hcat|]. split.
      * cbn [alternating]. destruct rest as [|d rest'].
        -- cbn in Hstart. rewrite Hstart. by right.
        -- destruct Hstart as (t & ts & Heq & Ht).
           unfold is_non_digit in Hrest. apply negb_false_iff in Hrest.
           rewrite Hrest in Ht. rewrite Heq in Halt |- *.
           split; [by right | done].
      * cbn. rewrite Hc. eauto.
Qed.

Lemma parts_spec (s : jstring) :
  concat (parts s) = s /\ alternating (parts s).
Proof.
  destruct (match_runs_spec (length s) s) as (Hcat & Halt & _); done.
Qed.

Lemma alternating_runs (tokens : list jstring) :
  alternating tokens ->
  Forall (fun t => is_numeric t = true \/ is_textual t = true) tokens.
Proof.
  induction tokens as [|t rest IH]; [constructor|].
  cbn [alternating]. destruct rest as [|u rest].
  - intros Ht. constructor; [exact Ht | constructor].
  - intros [[[Ht Hu]|[Ht Hu]] Hrest]; constructor; auto.
Qed.

(** ** Numbers *)

Lemma infinity_pos : (0 < infinity)%Z.
Proof. unfold infinity. by apply Z.pow_pos_nonneg. Qed.

Lemma infinity_large : (2 ^ 53 < infinity)%Z.
Proof. unfold infinity. by apply Z.pow_lt_mono_r. Qed.

Lemma to_double_small (z : Z) : (Z.abs z < 2 ^ 53)%Z -> to_double z = z.
Proof. intros Hz. unfold to_double. apply Z.ltb_lt in Hz. by rewrite Hz. Qed.

Lemma to_double_opp (z : Z) : to_double (- z) = (- to_double z)%Z.
Proof.
  unfold to_double. rewrite Z.abs_opp, Z.sgn_opp.
  destruct (_ <? _)%Z; [done|]. by rewrite Z.mul_opp_l.
Qed.

Lemma to_double_pos (z : Z) :
  (0 < z)%Z -> (0 < to_double z <= infinity)%Z.
Proof.
  intros Hz. pose proof infinity_pos as Hinf. pose proof infinity_large as Hlarge.
  unfold to_double. rewrite (Z.abs_eq z) by lia.
  destruct (Z.ltb_spec z (2 ^ 53)) as [Hsmall|Hbig]; [lia|].
  rewrite Z.sgn_pos, Z.mul_1_l by done.
  assert (Hlog : (53 <= Z.log2 z)%Z) by (by apply Z.log2_le_pow2).
  set (ulp := (2 ^ (Z.log2 z - 52))%Z).
  assert (Hulp : (0 < ulp)%Z) by (apply Z.pow_pos_nonneg; lia).
  assert (Hle : (ulp <= z)%Z).
  { transitivity (2 ^ Z.log2 z)%Z; [apply Z.pow_le_mono_r; lia|].
    by apply Z.log2_spec. }
  assert (Hq : (1 <= z / ulp)%Z) by (apply Z.div_le_lower_bound; lia).
  set (q := (z / ulp)%Z) in *. set (r := (z mod ulp)%Z).
  set (q' := if (2 * r <? ulp)%Z then q
             else if (ulp <? 2 * r)%Z then (q + 1)%Z
             else if Z.even q then q else (q + 1)%Z).
  assert (Hq' : (1 <= q')%Z).
  { unfold q'. destruct (2 * r <? ulp)%Z; [done|].
    destruct (ulp <? 2 * r)%Z; [lia|]. destruct (Z.even q); lia. }
  assert (Hrounded : (0 < q' * ulp)%Z) by (apply Z.mul_pos_pos; lia).
  destruct (Z.ltb_spec (q' * ulp) infinity); lia.
Qed.

Lemma to_double_sgn (z : Z) : Z.sgn (to_double z) = Z.sgn z.
Proof.
  destruct (Z.lt_trichotomy z 0) as [Hneg|[->|Hpos]].
  - replace z with (- - z)%Z by lia. rewrite to_double_opp.
    pose proof (to_double_pos (- z)). lia.
  - done.
  - pose proof (to_double_pos z). lia.
Qed.

Lemma to_double_range (z : Z) : (Z.abs (to_double z) <= infinity)%Z.
Proof.
  pose proof infinity_pos.
  destruct (Z.lt_trichotomy z 0) as [Hneg|[->|Hpos]].
  - replace z with (- - z)%Z by lia. rewrite to_double_opp.
    pose proof (to_double_pos (- z)). lia.
  - rewrite to_double_small by done. cbn. lia.
  - pose proof (to_double_pos z). lia.
Qed.

(** The difference of two numbers that are not equal has the sign of
    their difference as integers. *)
Lemma number_minus_sgn (x y : Z) :
  (Z.abs x <= infinity)%Z -> (Z.abs y <= infinity)%Z -> x <> y ->
  Z.sgn (number_minus x y) = Z.sgn (x - y).
Proof.
  intros Hx Hy Hne. pose proof infinity_pos. unfold number_minus.
  destruct (Z.eqb_spec (Z.abs x) infinity); [lia|].
  destruct (Z.eqb_spec (Z.abs y) infinity); [lia|].
  apply to_double_sgn.
Qed.

Lemma number_minus_small (x y : Z) :
  (0 <= x < 2 ^ 53)%Z -> (0 <= y < 2 ^ 53)%Z -> number_minus x y = (x - y)%Z.
Proof.
  intros Hx Hy. pose proof infinity_large. unfold number_minus.
  destruct (Z.eqb_spec (Z.abs x) infinity); [lia|].
  destruct (Z.eqb_spec (Z.abs y) infinity); [lia|].
  apply to_double_small. lia.
Qed.

Lemma mathInt_nonneg (digits : jstring) :
  forallb is_digit digits = true -> (0 <= mathInt digits)%Z.
Proof.
  unfold mathInt.
  assert (Hgen : forall acc, (0 <= acc)%Z -> forallb is_digit digits = true ->
            (0 <= fold_left (fun acc c => (10 * acc + digit_value c)%Z) digits acc)%Z).
  { induction digits as [|c digits IH]; intros acc Hacc Hall; cbn [fold_left]; [done|].
    cbn [forallb] in Hall. apply andb_true_iff in Hall as [Hc Hall].
    apply IH; [|done]. unfold is_digit in Hc. apply andb_true_iff in Hc as [Hlo _].
    apply Nat.leb_le in Hlo. unfold digit_value. lia. }
  by apply Hgen.
Qed.

Lemma decimal_value_small (digits : jstring) :
  forallb is_digit digits = true -> (mathInt digits < 2 ^ 53)%Z ->
  decimal_value digits = mathInt digits.
Proof.
  intros Hall Hsmall. pose proof (mathInt_nonneg digits Hall).
  unfold decimal_value. apply to_double_small. lia.
Qed.

(** ** The comparator *)

Lemma digit_is_plain (c : ascii) :
  is_digit c = true ->
  is_white_space c = false /\ Ascii.eqb c "-"%char = false
  /\ Ascii.eqb c "+"%char = false.
Proof.
  destruct c as [[] [] [] [] [] [] [] []]; cbn; intros Hd; try discriminate; done.
Qed.

Lemma forallb_trimStart (p : ascii -> bool) (s : jstring) :
  forallb p s = true -> forallb p (trimStart s) = true.
Proof.
  induction s as [|c s IH]; cbn; [done|].
  intros [Hc Hs]%andb_true_iff. destruct (is_white_space c); [auto|].
  cbn. by rewrite Hc, Hs.
Qed.

Lemma is_numeric_digits (t : jstring) :
  is_numeric t = true -> forallb is_digit t = true.
Proof. by destruct t. Qed.

Lemma parseInt_numeric (t : jstring) :
  is_numeric t = true -> parseInt t = Some (decimal_value t).
Proof.
  destruct t as [|c r]; [discriminate|]. cbn [is_numeric]. intros Hall.
  assert (Hc : is_digit c = true) by (cbn in Hall; by apply andb_true_iff in Hall as [? _]).
  destruct (digit_is_plain c Hc) as (Hws & Hminus & Hplus).
  unfold parseInt. cbn [trimStart]. rewrite Hws, Hminus, Hplus.
  rewrite (span_all is_digit (c :: r) Hall). cbn [fst].
  by rewrite Z.mul_1_l.
Qed.

Lemma parseInt_no_digit (t : jstring) :
  forallb is_non_digit t = true -> parseInt t = None.
Proof.
  intros Hall. apply forallb_trimStart in Hall. unfold parseInt.
  assert (Hnone : forall s, forallb is_non_digit s = true ->
                            (span is_digit s).1 = []).
  { intros [|d s]; [done|]. cbn [forallb]. intros [Hd _]%andb_true_iff.
    unfold is_non_digit in Hd. apply negb_true_iff in Hd.
    by rewrite (span_none is_digit d s Hd). }
  destruct (trimStart t) as [|c r] eqn:Ht.
  - done.
  - assert (Hr : forallb is_non_digit r = true)
      by (cbn in Hall; by apply andb_true_iff in Hall as [_ ?]).
    destruct (Ascii.eqb c "-"); [by rewrite (Hnone r Hr)|].
    destruct (Ascii.eqb c "+"); [by rewrite (Hnone r Hr)|].
    by rewrite (Hnone (c :: r) Hall).
Qed.

(** What a position holds: a token of the name, or nothing. *)
Lemma parseInt_token (t : jstring) :
  is_part t ->
  parseInt t = if is_numeric t then Some (decimal_value t) else None.
Proof.
  intros [->|[Hn|Ht]].
  - done.
  - rewrite Hn. by apply parseInt_numeric.
  - destruct t as [|c r]; [discriminate|]. cbn [is_textual] in Ht.
    rewrite (parseInt_no_digit _ Ht).
    assert (Hc : is_digit c = false).
    { cbn in Ht. apply andb_true_iff in Ht as [Hc _].
      by apply negb_true_iff in Hc. }
    cbn. by rewrite Hc.
Qed.

Lemma parseInt_range (s : jstring) (n : Z) :
  parseInt s = Some n -> (Z.abs n <= infinity)%Z.
Proof.
  unfold parseInt.
  destruct (match trimStart s with
            | [] => (1%Z, trimStart s)
            | c :: r =>
                if Ascii.eqb c "-" then ((-1)%Z, r)
                else if Ascii.eqb c "+" then (1%Z, r) else (1%Z, trimStart s)
            end) as [sign s2] eqn:Hsign.
  assert (Hone : sign = 1%Z \/ sign = (-1)%Z).
  { destruct (trimStart s) as [|c r]; [by injection Hsign; auto|].
    destruct (Ascii.eqb c "-"); [by injection Hsign; auto|].
    destruct (Ascii.eqb c "+"); by injection Hsign; auto. }
  destruct (span is_digit s2).1 as [|d digits]; [done|]. intros [= <-].
  pose proof (to_double_range (mathInt (d :: digits))) as Hrange.
  unfold decimal_value. destruct Hone as [-> | ->]; lia.
Qed.

(** Two numeric tokens are compared as the numbers they are parsed to. *)
Lemma compare_part_numeric `{Platform} (x y : jstring) :
  is_numeric x = true -> is_numeric y = true ->
  compare_part x y
  = if (decimal_value x =? decimal_value y)%Z then None
    else Some (number_minus (decimal_value x) (decimal_value y)).
Proof.
  intros Hx Hy. unfold compare_part. rewrite !parseInt_numeric by done.
  by destruct (_ =? _)%Z.
Qed.

(** Two tokens that are not both numeric are compared as strings. *)
Lemma compare_part_other `{Platform} (x y : jstring) :
  is_part x ->
  is_part y ->
  is_numeric x && is_numeric y = false ->
  compare_part x y
  = if (localeCompare x y =? 0)%Z then None else Some (localeCompare x y).
Proof.
  intros Hx Hy Hboth. unfold compare_part.
  rewrite (parseInt_token x Hx), (parseInt_token y Hy).
  destruct (is_numeric x), (is_numeric y); try done; by destruct (_ =? 0)%Z.
Qed.

(** A comparison that returns does not return 0. *)
Lemma compare_part_nonzero `{Platform} (x y : jstring) (r : Z) :
  compare_part x y = Some r -> r <> 0%Z.
Proof.
  unfold compare_part.
  destruct (parseInt x) as [aNum|] eqn:Hx, (parseInt y) as [bNum|] eqn:Hy;
    try (destruct (Z.eqb_spec (localeCompare x y) 0); cbn; [done|by intros [= <-]]).
  destruct (Z.eqb_spec aNum bNum) as [|Hne]; cbn; [done|]. intros [= <-].
  apply parseInt_range in Hx, Hy.
  pose proof (number_minus_sgn aNum bNum Hx Hy Hne). lia.
Qed.

Lemma compare_part_refl `{Platform} (x : jstring) :
  compares_reflexively -> compare_part x x = None.
Proof.
  intros Hrefl. unfold compare_part.
  destruct (parseInt x) as [n|]; [by rewrite Z.eqb_refl|].
  by rewrite Hrefl.
Qed.

Lemma compare_part_tie `{Platform} (x y : jstring) :
  compares_reflexively ->
  x = y \/ (is_numeric x = true /\ is_numeric y = true
            /\ decimal_value x = decimal_value y) ->
  compare_part x y = None.
Proof.
  intros Hrefl [->|(Hx & Hy & Hv)]; [by apply compare_part_refl|].
  rewrite compare_part_numeric by done. by rewrite Hv, Z.eqb_refl.
Qed.

Lemma first_difference_nil_r `{Platform} (xs : list jstring) :
  first_difference xs [] = against_nothing_right xs.
Proof. by destruct xs. Qed.

Lemma compare_from_spec `{Platform} (n i : nat) (xs ys : list jstring) :
  n = Nat.max (length xs) (length ys) - i ->
  compare_from n i xs ys = first_difference (drop i xs) (drop i ys).
Proof.
  revert i. induction n as [|n IH]; intros i Hn.
  - rewrite !drop_ge by lia. done.
  - cbn [compare_from]. rewrite (IH (S i)) by lia.
    rewrite !nth_lookup.
    destruct (xs !! i) as [x|] eqn:Hx, (ys !! i) as [y|] eqn:Hy; cbn [default].
    + by rewrite (drop_S xs x i Hx), (drop_S ys y i Hy).
    + apply lookup_ge_None in Hy.
      rewrite (drop_S xs x i Hx), (drop_ge ys i), (drop_ge ys (S i)) by lia.
      by rewrite first_difference_nil_r.
    + apply lookup_ge_None in Hx.
      by rewrite (drop_S ys y i Hy), (drop_ge xs i), (drop_ge xs (S i)) by lia.
    + apply lookup_ge_None in Hx. apply lookup_ge_None in Hy. lia.
Qed.

(** The loop of [naturalSort] returns what the first comparison that
    returns gives, the tokens being taken in pairs from the left. *)
Lemma naturalSort_first_difference `{Platform} (a b : jstring) :
  naturalSort a b = first_difference (parts a) (parts b).
Proof.
  unfold naturalSort. rewrite compare_from_spec by lia. by rewrite !drop_0.
Qed.

Lemma first_difference_ties `{Platform} (xs ys : list jstring) :
  Forall2 (fun x y => compare_part x y = None) xs ys ->
  first_difference xs ys = 0%Z.
Proof.
  induction 1 as [|x y xs ys Hxy _ IH]; [done|].
  cbn [first_difference]. by rewrite Hxy.
Qed.

Lemma first_difference_shorter `{Platform} (xs pre rest : list jstring) (y : jstring) :
  Forall2 (fun x p => compare_part x p = None) xs pre ->
  first_difference xs (pre ++ y :: rest) = first_difference [] (y :: rest).
Proof.
  induction 1 as [|x p xs pre Hxp _ IH]; [done|].
  cbn [first_difference app]. by rewrite Hxp.
Qed.

Lemma first_difference_longer `{Platform} (xs pre rest : list jstring) (y : jstring) :
  Forall2 (fun p x => compare_part p x = None) pre xs ->
  first_difference (pre ++ y :: rest) xs = first_difference (y :: rest) [].
Proof.
  induction 1 as [|p x pre xs Hpx _ IH]; [done|].
  cbn [first_difference app]. by rewrite Hpx.
Qed.

Lemma token_nonempty (t : jstring) :
  is_numeric t = true \/ is_textual t = true -> t <> [].
Proof. by intros [Ht|Ht] ->. Qed.

(** ** The specified order *)

Lemma code_unit_compare_refl (s : jstring) : code_unit_compare s s = 0%Z.
Proof.
  induction s as [|c s IH]; cbn [code_unit_compare]; [done|].
  by rewrite Nat.ltb_irrefl.
Qed.

(** Where [localeCompare] orders strings as the plain lexical
    comparison does and the numbers are small, a comparison of two
    tokens decides as the specified one. *)
Lemma compare_part_as_specified `{Platform} (x y : jstring) (later : Z) :
  compares_lexically ->
  is_numeric x = true \/ is_textual x = true ->
  is_numeric y = true \/ is_textual y = true ->
  (is_numeric x = true -> (mathInt x < 2 ^ 53)%Z) ->
  (is_numeric y = true -> (mathInt y < 2 ^ 53)%Z) ->
  Z.sgn (decided (compare_part x y) later)
  = if (spec_token_order x y =? 0)%Z then Z.sgn later
    else Z.sgn (spec_token_order x y).
Proof.
  intros Hlex Hx Hy Hsx Hsy. unfold spec_token_order.
  destruct (is_numeric x && is_numeric y) eqn:Hboth.
  - apply andb_true_iff in Hboth as [Hnx Hny].
    rewrite compare_part_numeric by done.
    pose proof (mathInt_nonneg x (is_numeric_digits x Hnx)).
    pose proof (mathInt_nonneg y (is_numeric_digits y Hny)).
    rewrite !decimal_value_small by auto using is_numeric_digits.
    destruct (Z.eqb_spec (mathInt x) (mathInt y)) as [Heq|Hne].
    + by rewrite Heq, Z.sub_diag.
    + cbn [decided]. rewrite number_minus_small by (split; auto).
      destruct (Z.eqb_spec (mathInt x - mathInt y) 0); [lia|done].
  - rewrite compare_part_other; [|by right|by right|done]. specialize (Hlex x y).
    destruct (Z.eqb_spec (localeCompare x y) 0) as [Heq|Hne]; cbn [decided].
    + rewrite Heq in Hlex. destruct (Z.eqb_spec (code_unit_compare x y) 0); [done|lia].
    + destruct (Z.eqb_spec (code_unit_compare x y) 0) as [Hz|]; [|done].
      rewrite Hz in Hlex. lia.
Qed.

Lemma first_difference_as_specified `{Platform} (xs ys : list jstring) :
  compares_lexically ->
  Forall (fun t => is_numeric t = true \/ is_textual t = true) xs ->
  Forall (fun t => is_numeric t = true \/ is_textual t = true) ys ->
  small_numbers xs -> small_numbers ys ->
  Z.sgn (first_difference xs ys) = Z.sgn (spec_order xs ys).
Proof.
  intros Hlex Hxs. revert ys.
  induction Hxs as [|x xs Hx Hxs IH]; intros ys Hys Hsx Hsy.
  - destruct Hys as [|y ys Hy Hys]; [done|].
    cbn [first_difference against_nothing_left spec_order].
    rewrite compare_part_other; [|by left|by right|done].
    pose proof (Hlex [] y) as Hl.
    assert (Hy0 : code_unit_compare [] y = (-1)%Z).
    { destruct y; [by destruct Hy|done]. }
    rewrite Hy0 in Hl.
    destruct (Z.eqb_spec (localeCompare [] y) 0) as [Heq|]; [rewrite Heq in Hl; done|].
    done.
  - apply Forall_cons in Hsx as [Hsx0 Hsx].
    destruct Hys as [|y ys Hy Hys].
    + cbn [first_difference against_nothing_right spec_order].
      rewrite compare_part_other; [|by right|by left|by rewrite andb_false_r].
      pose proof (Hlex x []) as Hl.
      assert (Hx0 : code_unit_compare x [] = 1%Z).
      { destruct x; [by destruct Hx|done]. }
      rewrite Hx0 in Hl.
      destruct (Z.eqb_spec (localeCompare x []) 0) as [Heq|]; [rewrite Heq in Hl; done|].
      done.
    + apply Forall_cons in Hsy as [Hsy0 Hsy].
      cbn [first_difference spec_order].
      rewrite compare_part_as_specified by done.
      destruct (_ =? 0)%Z; [by apply IH|done].
Qed.

(** ** Sorting *)

Section Sorting.
Context {A : Type} (cmp : A -> A -> Z).

Lemma insert_by_perm (x : A) (s : list A) : insert_by cmp x s ≡ₚ x :: s.
Proof.
  induction s as [|y s IH]; cbn; [done|].
  destruct (cmp x y <=? 0)%Z; [done|]. by rewrite IH, Permutation_swap.
Qed.

Lemma sort_by_cons (x : A) (l : list A) :
  sort_by cmp (x :: l) = insert_by cmp x (sort_by cmp l).
Proof. reflexivity. Qed.

Lemma sort_by_perm (l : list A) : sort_by cmp l ≡ₚ l.
Proof.
  induction l as [|x l IH]; [done|].
  by rewrite sort_by_cons, insert_by_perm, IH.
Qed.

(** The facts about a consistent comparator, on a set [dom] of elements. *)
Variable dom : A -> Prop.
Hypothesis cmp_refl : forall x, dom x -> cmp x x = 0%Z.
Hypothesis cmp_sym : forall x y, dom x -> dom y -> cmp x y = 0%Z -> cmp y x = 0%Z.
Hypothesis cmp_trans_eq : forall x y z, dom x -> dom y -> dom z ->
  cmp x y = 0%Z -> cmp y z = 0%Z -> cmp x z = 0%Z.
Hypothesis cmp_trans_lt : forall x y z, dom x -> dom y -> dom z ->
  (cmp x y < 0)%Z -> (cmp y z < 0)%Z -> (cmp x z < 0)%Z.
Hypothesis cmp_trans_gt : forall x y z, dom x -> dom y -> dom z ->
  (0 < cmp x y)%Z -> (0 < cmp y z)%Z -> (0 < cmp x z)%Z.

Lemma cmp_lt_gt (x y : A) :
  dom x -> dom y -> (cmp x y < 0)%Z -> (0 < cmp y x)%Z.
Proof using cmp_refl cmp_sym cmp_trans_lt.
  intros Hx Hy Hlt.
  destruct (Z.lt_trichotomy (cmp y x) 0%Z) as [Hc|[Hc|Hc]]; [| |done].
  - pose proof (cmp_trans_lt x y x Hx Hy Hx Hlt Hc).
    pose proof (cmp_refl x Hx). lia.
  - pose proof (cmp_sym y x Hy Hx Hc). lia.
Qed.

Lemma cmp_gt_lt (x y : A) :
  dom x -> dom y -> (0 < cmp x y)%Z -> (cmp y x < 0)%Z.
Proof using cmp_refl cmp_sym cmp_trans_gt.
  intros Hx Hy Hgt.
  destruct (Z.lt_trichotomy (cmp y x) 0%Z) as [Hc|[Hc|Hc]]; [done| |].
  - pose proof (cmp_sym y x Hy Hx Hc). lia.
  - pose proof (cmp_trans_gt x y x Hx Hy Hx Hgt Hc).
    pose proof (cmp_refl x Hx). lia.
Qed.

Lemma cmp_le_trans (x y z : A) :
  dom x -> dom y -> dom z ->
  (cmp x y <= 0)%Z -> (cmp y z <= 0)%Z -> (cmp x z <= 0)%Z.
Proof using cmp_refl cmp_sym cmp_trans_eq cmp_trans_lt cmp_trans_gt.
  intros Hx Hy Hz Hxy Hyz.
  destruct (Z.lt_trichotomy (cmp x z) 0%Z) as [Hc|[Hc|Hc]]; [lia|lia|].
  exfalso. apply cmp_gt_lt in Hc as Hzx; [|done..].
  destruct (Z.eq_dec (cmp x y) 0%Z) as [Hxy0|Hxy0].
  - destruct (Z.eq_dec (cmp y z) 0%Z) as [Hyz0|Hyz0].
    + pose proof (cmp_trans_eq x y z Hx Hy Hz Hxy0 Hyz0). lia.
    + assert (Hlt : (cmp y z < 0)%Z) by lia.
      pose proof (cmp_trans_lt y z x Hy Hz Hx Hlt Hzx).
      pose proof (cmp_sym x y Hx Hy Hxy0). lia.
  - assert (Hlt : (cmp x y < 0)%Z) by lia.
    pose proof (cmp_trans_lt z x y Hz Hx Hy Hzx Hlt) as Hzy.
    apply cmp_lt_gt in Hzy; [|done..]. lia.
Qed.

Lemma cmp_lt_eq (x y z : A) :
  dom x -> dom y -> dom z ->
  (cmp x y < 0)%Z -> cmp y z = 0%Z -> (cmp x z < 0)%Z.
Proof using cmp_refl cmp_sym cmp_trans_eq cmp_trans_lt cmp_trans_gt.
  intros Hx Hy Hz Hxy Hyz.
  pose proof (cmp_sym y z Hy Hz Hyz) as Hzy.
  destruct (Z.lt_trichotomy (cmp x z) 0%Z) as [Hc|[Hc|Hc]]; [done| |].
  - pose proof (cmp_trans_eq x z y Hx Hz Hy Hc Hzy). lia.
  - apply cmp_gt_lt in Hc; [|done..].
    pose proof (cmp_trans_lt z x y Hz Hx Hy Hc Hxy). lia.
Qed.

Lemma cmp_eq_lt (x y z : A) :
  dom x -> dom y -> dom z ->
  cmp x y = 0%Z -> (cmp y z < 0)%Z -> (cmp x z < 0)%Z.
Proof using cmp_refl cmp_sym cmp_trans_eq cmp_trans_lt cmp_trans_gt.
  intros Hx Hy Hz Hxy Hyz.
  pose proof (cmp_sym x y Hx Hy Hxy) as Hyx.
  destruct (Z.lt_trichotomy (cmp x z) 0%Z) as [Hc|[Hc|Hc]]; [done| |].
  - pose proof (cmp_trans_eq y x z Hy Hx Hz Hyx Hc). lia.
  - apply cmp_gt_lt in Hc; [|done..].
    pose proof (cmp_trans_lt y z x Hy Hz Hx Hyz Hc). lia.
Qed.

Lemma cmp_gt_eq (x y z : A) :
  dom x -> dom y -> dom z ->
  (0 < cmp x y)%Z -> cmp y z = 0%Z -> (0 < cmp x z)%Z.
Proof using cmp_refl cmp_sym cmp_trans_eq cmp_trans_lt cmp_trans_gt.
  intros Hx Hy Hz Hxy Hyz.
  apply cmp_lt_gt; [done..|]. apply (cmp_eq_lt z y x); [done..|auto|].
  by apply cmp_gt_lt.
Qed.

Lemma cmp_eq_gt (x y z : A) :
  dom x -> dom y -> dom z ->
  cmp x y = 0%Z -> (0 < cmp y z)%Z -> (0 < cmp x z)%Z.
Proof using cmp_refl cmp_sym cmp_trans_eq cmp_trans_lt cmp_trans_gt.
  intros Hx Hy Hz Hxy Hyz.
  apply cmp_lt_gt; [done..|]. apply (cmp_lt_eq z y x); [done..| |auto].
  by apply cmp_gt_lt.
Qed.

(** The lexicographic comparison of sequences is consistent when the
    comparison of their elements is. *)
Lemma lex_from_refl (n i : nat) (f : nat -> A) :
  (forall j, dom (f j)) -> lex_from cmp n i f f = 0%Z.
Proof using cmp_refl.
  intros Hf. revert i. induction n as [|n IH]; intros i; cbn [lex_from]; [done|].
  by rewrite cmp_refl, Z.eqb_refl.
Qed.

Lemma lex_from_sym (n i : nat) (f g : nat -> A) :
  (forall j, dom (f j)) -> (forall j, dom (g j)) ->
  lex_from cmp n i f g = 0%Z -> lex_from cmp n i g f = 0%Z.
Proof using cmp_sym.
  intros Hf Hg. revert i. induction n as [|n IH]; intros i; cbn [lex_from]; [done|].
  destruct (Z.eqb_spec (cmp (f i) (g i)) 0) as [Hfg|Hfg]; [|done].
  intros Hrest. rewrite (cmp_sym _ _ (Hf i) (Hg i) Hfg), Z.eqb_refl. by apply IH.
Qed.

Lemma lex_from_trans_eq (n i : nat) (f g h : nat -> A) :
  (forall j, dom (f j)) -> (forall j, dom (g j)) -> (forall j, dom (h j)) ->
  lex_from cmp n i f g = 0%Z -> lex_from cmp n i g h = 0%Z ->
  lex_from cmp n i f h = 0%Z.
Proof using cmp_trans_eq.
  intros Hf Hg Hh. revert i. induction n as [|n IH]; intros i; cbn [lex_from]; [done|].
  destruct (Z.eqb_spec (cmp (f i) (g i)) 0) as [Hfg|Hfg]; [|done].
  destruct (Z.eqb_spec (cmp (g i) (h i)) 0) as [Hgh|Hgh]; [|done].
  intros H1 H2.
  rewrite (cmp_trans_eq _ _ _ (Hf i) (Hg i) (Hh i) Hfg Hgh), Z.eqb_refl. by apply IH.
Qed.

Lemma lex_from_trans_lt (n i : nat) (f g h : nat -> A) :
  (forall j, dom (f j)) -> (forall j, dom (g j)) -> (forall j, dom (h j)) ->
  (lex_from cmp n i f g < 0)%Z -> (lex_from cmp n i g h < 0)%Z ->
  (lex_from cmp n i f h < 0)%Z.
Proof using cmp_refl cmp_sym cmp_trans_eq cmp_trans_lt cmp_trans_gt.
  intros Hf Hg Hh. revert i. induction n as [|n IH]; intros i; cbn [lex_from]; [lia|].
  destruct (Z.eqb_spec (cmp (f i) (g i)) 0) as [Hfg|Hfg],
           (Z.eqb_spec (cmp (g i) (h i)) 0) as [Hgh|Hgh]; intros H1 H2.
  - rewrite (cmp_trans_eq _ _ _ (Hf i) (Hg i) (Hh i) Hfg Hgh), Z.eqb_refl. by apply IH.
  - pose proof (cmp_eq_lt _ _ _ (Hf i) (Hg i) (Hh i) Hfg H2).
    destruct (Z.eqb_spec (cmp (f i) (h i)) 0); lia.
  - pose proof (cmp_lt_eq _ _ _ (Hf i) (Hg i) (Hh i) H1 Hgh).
    destruct (Z.eqb_spec (cmp (f i) (h i)) 0); lia.
  - pose proof (cmp_trans_lt _ _ _ (Hf i) (Hg i) (Hh i) H1 H2).
    destruct (Z.eqb_spec (cmp (f i) (h i)) 0); lia.
Qed.

Lemma lex_from_trans_gt (n i : nat) (f g h : nat -> A) :
  (forall j, dom (f j)) -> (forall j, dom (g j)) -> (forall j, dom (h j)) ->
  (0 < lex_from cmp n i f g)%Z -> (0 < lex_from cmp n i g h)%Z ->
  (0 < lex_from cmp n i f h)%Z.
Proof using cmp_refl cmp_sym cmp_trans_eq cmp_trans_lt cmp_trans_gt.
  intros Hf Hg Hh. revert i. induction n as [|n IH]; intros i; cbn [lex_from]; [lia|].
  destruct (Z.eqb_spec (cmp (f i) (g i)) 0) as [Hfg|Hfg],
           (Z.eqb_spec (cmp (g i) (h i)) 0) as [Hgh|Hgh]; intros H1 H2.
  - rewrite (cmp_trans_eq _ _ _ (Hf i) (Hg i) (Hh i) Hfg Hgh), Z.eqb_refl. by apply IH.
  - pose proof (cmp_eq_gt _ _ _ (Hf i) (Hg i) (Hh i) Hfg H2).
    destruct (Z.eqb_spec (cmp (f i) (h i)) 0); lia.
  - pose proof (cmp_gt_eq _ _ _ (Hf i) (Hg i) (Hh i) H1 Hgh).
    destruct (Z.eqb_spec (cmp (f i) (h i)) 0); lia.
  - pose proof (cmp_trans_gt _ _ _ (Hf i) (Hg i) (Hh i) H1 H2).
    destruct (Z.eqb_spec (cmp (f i) (h i)) 0); lia.
Qed.

Lemma insert_by_sorted (x : A) (s : list A) :
  dom x -> Forall dom s -> sorted_by cmp s -> sorted_by cmp (insert_by cmp x s).
Proof using cmp_refl cmp_sym cmp_trans_eq cmp_trans_lt cmp_trans_gt.
  intros Hx. induction s as [|y s IH]; intros Hdom Hs; cbn.
  - by split.
  - apply Forall_cons in Hdom as [Hy Hdom]. destruct Hs as [Hall Hs].
    destruct (cmp x y <=? 0)%Z eqn:Hc.
    + apply Z.leb_le in Hc. cbn. repeat split; try done.
      constructor; [done|].
      rewrite Forall_forall in Hall, Hdom |- *. intros z Hz.
      apply (cmp_le_trans x y z); auto.
    + apply Z.leb_gt in Hc. cbn. split; [|by apply IH].
      rewrite insert_by_perm. constructor; [|done].
      apply cmp_gt_lt in Hc; [lia|done..].
Qed.

Lemma sort_by_sorted (l : list A) :
  Forall dom l -> sorted_by cmp (sort_by cmp l).
Proof using cmp_refl cmp_sym cmp_trans_eq cmp_trans_lt cmp_trans_gt.
  induction l as [|x l IH]; intros Hdom; [done|]. rewrite sort_by_cons.
  apply Forall_cons in Hdom as [Hx Hdom].
  apply insert_by_sorted; [done| |by apply IH].
  by rewrite sort_by_perm.
Qed.

Lemma insert_by_ties (c x : A) (s : list A) :
  dom c -> dom x -> Forall dom s ->
  ties_of cmp c (insert_by cmp x s) = ties_of cmp c (x :: s).
Proof using cmp_sym cmp_trans_eq.
  intros Hc Hx. unfold ties_of.
  induction s as [|y s IH]; intros Hdom; cbn [insert_by]; [done|].
  apply Forall_cons in Hdom as [Hy Hdom].
  destruct (cmp x y <=? 0)%Z eqn:Hxy; [done|]. apply Z.leb_gt in Hxy.
  rewrite filter_cons, (IH Hdom), !filter_cons.
  destruct (decide (cmp c y = 0%Z)) as [Hcy|Hcy],
           (decide (cmp c x = 0%Z)) as [Hcx|Hcx]; try done.
  pose proof (cmp_sym c x Hc Hx Hcx) as Hxc.
  pose proof (cmp_trans_eq x c y Hx Hc Hy Hxc Hcy). lia.
Qed.

Lemma sort_by_ties (c : A) (l : list A) :
  dom c -> Forall dom l -> ties_of cmp c (sort_by cmp l) = ties_of cmp c l.
Proof using cmp_sym cmp_trans_eq.
  intros Hc. induction l as [|x l IH]; intros Hdom; [done|]. rewrite sort_by_cons.
  apply Forall_cons in Hdom as [Hx Hdom].
  rewrite insert_by_ties; [|done..|by rewrite sort_by_perm].
  unfold ties_of in *. rewrite !filter_cons. by rewrite (IH Hdom).
Qed.

(** Two sorted arrangements of the same elements that keep the same
    order among the elements comparing equal are the same list. *)
Lemma sorted_stable_unique (l1 l2 : list A) :
  Forall dom l1 -> l1 ≡ₚ l2 -> sorted_by cmp l1 -> sorted_by cmp l2 ->
  (forall c, dom c -> ties_of cmp c l1 = ties_of cmp c l2) -> l1 = l2.
Proof using cmp_refl cmp_sym cmp_trans_lt.
  revert l2. induction l1 as [|x r1 IH]; intros l2 Hdom Hperm Hs1 Hs2 Hties.
  - by apply Permutation_nil_l in Hperm.
  - destruct l2 as [|y r2]; [by apply Permutation_nil_r in Hperm|].
    apply Forall_cons in Hdom as [Hx Hdom].
    destruct Hs1 as [Hmin1 Hs1], Hs2 as [Hmin2 Hs2].
    assert (Hy : dom y).
    { assert (Hin : y ∈ x :: r1) by (rewrite Hperm; by left).
      apply elem_of_cons in Hin as [->|Hin]; [done|].
      rewrite Forall_forall in Hdom. auto. }
    assert (Hxy : cmp x y = 0%Z).
    { assert (Hle1 : (cmp x y <= 0)%Z).
      { assert (Hin : y ∈ x :: r1) by (rewrite Hperm; by left).
        apply elem_of_cons in Hin as [->|Hin]; [rewrite cmp_refl; done|].
        rewrite Forall_forall in Hmin1. auto. }
      assert (Hle2 : (cmp y x <= 0)%Z).
      { assert (Hin : x ∈ y :: r2) by (rewrite <- Hperm; by left).
        apply elem_of_cons in Hin as [->|Hin]; [rewrite cmp_refl; done|].
        rewrite Forall_forall in Hmin2. auto. }
      destruct (Z.eq_dec (cmp x y) 0%Z) as [|Hne]; [done|].
      assert (Hlt : (cmp x y < 0)%Z) by lia.
      apply cmp_lt_gt in Hlt; [lia|done..]. }
    assert (Hhead : x = y).
    { pose proof (Hties x Hx) as Ht. unfold ties_of in Ht.
      rewrite !filter_cons in Ht.
      rewrite (decide_True _ _ (cmp_refl x Hx)), (decide_True _ _ Hxy) in Ht.
      by injection Ht. }
    subst y. f_equal. apply IH; try done.
    + by apply Permutation_cons_inv in Hperm.
    + intros c Hc. specialize (Hties c Hc). unfold ties_of in *.
      rewrite !filter_cons in Hties.
      destruct (decide (cmp c x = 0%Z)); [by injection Hties | done].
Qed.
End Sorting.

(** ** The order of names *)

(** The names 9007199254740993.md and 9007199254740992.md start with
    numeric tokens that differ as integers, so the specified order puts
    the second name first; both tokens are parsed to the number 2^53,
    the comparator returns 0 and the sort leaves the names as they
    come. *)
Lemma C4_long_numbers_compare_equal :
  let P := test_platform working_mmdc echo_engine in
  let a := js "9007199254740993.md" in
  let b := js "9007199254740992.md" in
  parts a = [js "9007199254740993"; js ".md"] /\
  parts b = [js "9007199254740992"; js ".md"] /\
  (mathInt (js "9007199254740992") < mathInt (js "9007199254740993"))%Z /\
  (0 < spec_order (parts a) (parts b))%Z /\
  decimal_value (js "9007199254740993") = (2 ^ 53)%Z /\
  decimal_value (js "9007199254740992") = (2 ^ 53)%Z /\
  naturalSort a b = 0%Z /\
  sort_by naturalSort [a; b] = [a; b].
Proof. intros P a b. repeat split; vm_compute; reflexivity. Qed.

(** C4 (amended): The comparator of the document set orderer. A name is
    cut into runs of digits and runs of other code units that
    alternate. The tokens of two names are compared position by
    position, and the first comparison that is not equal is the result.
    Two numeric tokens are compared as the numbers [parseInt] returns,
    which are doubles: tokens parsed to the same number compare equal,
    otherwise the sign of the result is that of the difference of the
    two numbers, and when both tokens spell integers below 2^53 the
    numbers are these integers and the result is their difference (so 2
    comes before 10). Tokens that are not both numeric are compared with
    [localeCompare]. When the tokens of one name run out while all
    compared tokens are equal, the tokens left of the other name are
    compared with the empty string, so the shorter name sorts first when
    [localeCompare] puts the empty string before the first token left.
    Whenever [localeCompare] orders strings as the plain lexical
    comparison does and every numeric token is below 2^53, the result
    has the sign of the specified order (integers, plain lexical
    strings, the shorter name first). When [localeCompare] returns 0 for
    equal strings, the names f10.md, f2.md, f1.md are ordered f1.md,
    f2.md, f10.md. *)
Theorem C4_natural_sort_comparator `{Platform} :
  (forall s, concat (parts s) = s /\ alternating (parts s)) /\
  (forall a b, naturalSort a b = first_difference (parts a) (parts b)) /\
  (forall x y, is_numeric x = true -> is_numeric y = true ->
     (decimal_value x = decimal_value y -> compare_part x y = None) /\
     (decimal_value x <> decimal_value y ->
      exists r, compare_part x y = Some r /\
                Z.sgn r = Z.sgn (decimal_value x - decimal_value y)) /\
     ((mathInt x < 2 ^ 53)%Z -> (mathInt y < 2 ^ 53)%Z ->
      decimal_value x = mathInt x /\ decimal_value y = mathInt y /\
      (mathInt x <> mathInt y ->
       compare_part x y = Some (mathInt x - mathInt y)%Z))) /\
  compare_part (js "2") (js "10") = Some (-8)%Z /\
  (forall x y,
     is_part x ->
     is_part y ->
     is_numeric x && is_numeric y = false ->
     compare_part x y
     = if (localeCompare x y =? 0)%Z then None else Some (localeCompare x y)) /\
  (forall a b pre y rest,
     parts b = pre ++ y :: rest ->
     Forall2 (fun x p => compare_part x p = None) (parts a) pre ->
     naturalSort a b = first_difference [] (y :: rest) /\
     ((localeCompare [] y < 0)%Z -> (naturalSort a b < 0)%Z)) /\
  (forall a b pre x rest,
     parts a = pre ++ x :: rest ->
     Forall2 (fun p y => compare_part p y = None) pre (parts b) ->
     naturalSort a b = first_difference (x :: rest) [] /\
     ((0 < localeCompare x [])%Z -> (0 < naturalSort a b)%Z)) /\
  (compares_lexically ->
   forall a b, small_numbers (parts a) -> small_numbers (parts b) ->
     Z.sgn (naturalSort a b) = Z.sgn (spec_order (parts a) (parts b))) /\
  (compares_reflexively ->
   sort_by naturalSort chapter_names = [js "f1.md"; js "f2.md"; js "f10.md"]).
Proof.
  assert (Htok : forall (s : jstring) pre y rest, parts s = pre ++ y :: rest ->
                   is_numeric y = true \/ is_textual y = true).
  { intros s pre y rest Hs.
    destruct (parts_spec s) as [_ Halt]. apply alternating_runs in Halt.
    rewrite Hs, Forall_app, Forall_cons in Halt. tauto. }
  split; [apply parts_spec|].
  split; [apply naturalSort_first_difference|].
  split; [|split; [vm_compute; reflexivity|]].
  { intros x y Hx Hy. rewrite compare_part_numeric by done.
    split; [by intros ->; rewrite Z.eqb_refl|]. split.
    - intros Hne. destruct (Z.eqb_spec (decimal_value x) (decimal_value y)); [done|].
      eexists. split; [reflexivity|].
      apply number_minus_sgn; [apply to_double_range..|done].
    - intros Hsx Hsy.
      pose proof (mathInt_nonneg x (is_numeric_digits x Hx)).
      pose proof (mathInt_nonneg y (is_numeric_digits y Hy)).
      rewrite !decimal_value_small by auto using is_numeric_digits.
      split; [done|]. split; [done|]. intros Hne.
      destruct (Z.eqb_spec (mathInt x) (mathInt y)); [done|].
      by rewrite number_minus_small. }
  split; [apply @compare_part_other|].
  split; [|split; [|split]].
  - intros a b pre y rest Hb Hpre.
    rewrite naturalSort_first_difference, Hb, first_difference_shorter by done.
    split; [done|]. intros Hlt.
    cbn [first_difference against_nothing_left].
    rewrite compare_part_other; [|by left|right; by eapply Htok|done].
    destruct (Z.eqb_spec (localeCompare [] y) 0); [lia|done].
  - intros a b pre x rest Ha Hpre.
    rewrite naturalSort_first_difference, Ha, first_difference_longer by done.
    split; [done|]. intros Hgt.
    cbn [first_difference against_nothing_right].
    rewrite compare_part_other;
      [|right; by eapply Htok|by left|by rewrite andb_false_r].
    destruct (Z.eqb_spec (localeCompare x []) 0); [lia|done].
  - intros Hlex a b Hsa Hsb. rewrite naturalSort_first_difference.
    apply first_difference_as_specified; try done;
      apply alternating_runs, parts_spec.
  - intros Hrefl.
    assert (H21 : naturalSort (js "f2.md") (js "f1.md") = 1%Z).
    { rewrite naturalSort_first_difference.
      change (parts (js "f2.md")) with [js "f"; js "2"; js ".md"].
      change (parts (js "f1.md")) with [js "f"; js "1"; js ".md"].
      cbn [first_difference]. rewrite compare_part_refl by done.
      vm_compute. reflexivity. }
    assert (H101 : naturalSort (js "f10.md") (js "f1.md") = 9%Z).
    { rewrite naturalSort_first_difference.
      change (parts (js "f10.md")) with [js "f"; js "10"; js ".md"].
      change (parts (js "f1.md")) with [js "f"; js "1"; js ".md"].
      cbn [first_difference]. rewrite compare_part_refl by done.
      vm_compute. reflexivity. }
    assert (H102 : naturalSort (js "f10.md") (js "f2.md") = 8%Z).
    { rewrite naturalSort_first_difference.
      change (parts (js "f10.md")) with [js "f"; js "10"; js ".md"].
      change (parts (js "f2.md")) with [js "f"; js "2"; js ".md"].
      cbn [first_difference]. rewrite compare_part_refl by done.
      vm_compute. reflexivity. }
    unfold chapter_names, sort_by. cbn [fold_right insert_by].
    rewrite H21. cbn [Z.leb Z.compare insert_by].
    rewrite H101. cbn [Z.leb Z.compare insert_by].
    rewrite H102. done.
Qed.

(** C10: The comparator returns 0 for names that differ only in the
    spelling of numerically equal numeric tokens: whenever the tokens of
    two names are, position by position, the same string or two numeric
    tokens with the same value, the result is 0; so it is for the two
    distinct names 01-intro.md and 1-intro.md. Sorting leaves two names
    that compare equal in the order they were enumerated in. Of
    [localeCompare] it is assumed that a string equals itself. *)
Theorem C10_zero_padding_is_invisible `{Platform} :
  compares_reflexively ->
  (forall a b,
     Forall2 (fun x y => x = y \/ (is_numeric x = true /\ is_numeric y = true
                                   /\ decimal_value x = decimal_value y))
             (parts a) (parts b) ->
     naturalSort a b = 0%Z) /\
  js "01-intro.md" <> js "1-intro.md" /\
  naturalSort (js "01-intro.md") (js "1-intro.md") = 0%Z /\
  naturalSort (js "1-intro.md") (js "01-intro.md") = 0%Z /\
  (forall a b, naturalSort a b = 0%Z -> sort_by naturalSort [a; b] = [a; b]) /\
  sort_by naturalSort [js "01-intro.md"; js "1-intro.md"]
    = [js "01-intro.md"; js "1-intro.md"] /\
  sort_by naturalSort [js "1-intro.md"; js "01-intro.md"]
    = [js "1-intro.md"; js "01-intro.md"].
Proof.
  intros Hrefl.
  assert (Hgen : forall a b,
     Forall2 (fun x y => x = y \/ (is_numeric x = true /\ is_numeric y = true
                                   /\ decimal_value x = decimal_value y))
             (parts a) (parts b) ->
     naturalSort a b = 0%Z).
  { intros a b Hab. rewrite naturalSort_first_difference.
    apply first_difference_ties.
    eapply Forall2_impl; [exact Hab|]. intros x y Hxy. by apply compare_part_tie. }
  assert (Hsort : forall a b, naturalSort a b = 0%Z ->
                              sort_by naturalSort [a; b] = [a; b]).
  { intros a b Hab. unfold sort_by. cbn [fold_right insert_by]. by rewrite Hab. }
  assert (H1 : naturalSort (js "01-intro.md") (js "1-intro.md") = 0%Z).
  { apply Hgen.
    change (parts (js "01-intro.md")) with [js "01"; js "-intro.md"].
    change (parts (js "1-intro.md")) with [js "1"; js "-intro.md"].
    constructor; [by right|]. constructor; [by left|]. constructor. }
  assert (H2 : naturalSort (js "1-intro.md") (js "01-intro.md") = 0%Z).
  { apply Hgen.
    change (parts (js "01-intro.md")) with [js "01"; js "-intro.md"].
    change (parts (js "1-intro.md")) with [js "1"; js "-intro.md"].
    constructor; [by right|]. constructor; [by left|]. constructor. }
  repeat split; auto.
Qed.

(** ** The plain lexical comparison *)

Lemma code_unit_compare_empty (s : jstring) :
  s <> [] ->
  (code_unit_compare [] s < 0)%Z /\ (0 < code_unit_compare s [])%Z.
Proof. destruct s; [done|]. cbn. lia. Qed.

Lemma code_unit_compare_swap (a b : jstring) :
  code_unit_compare b a = (- code_unit_compare a b)%Z.
Proof.
  revert b. induction a as [|x a IH]; intros [|y b]; cbn [code_unit_compare]; try done.
  destruct (Nat.ltb_spec (nat_of_ascii x) (nat_of_ascii y)),
           (Nat.ltb_spec (nat_of_ascii y) (nat_of_ascii x)); try done; lia.
Qed.

Lemma code_unit_compare_trans_eq (a b c : jstring) :
  code_unit_compare a b = 0%Z -> code_unit_compare b c = 0%Z ->
  code_unit_compare a c = 0%Z.
Proof.
  revert b c. induction a as [|x a IH]; intros [|y b] [|z c];
    cbn [code_unit_compare]; try done.
  destruct (Nat.ltb_spec (nat_of_ascii x) (nat_of_ascii y)),
           (Nat.ltb_spec (nat_of_ascii y) (nat_of_ascii x)),
           (Nat.ltb_spec (nat_of_ascii y) (nat_of_ascii z)),
           (Nat.ltb_spec (nat_of_ascii z) (nat_of_ascii y)),
           (Nat.ltb_spec (nat_of_ascii x) (nat_of_ascii z)),
           (Nat.ltb_spec (nat_of_ascii z) (nat_of_ascii x)); try lia.
  apply IH.
Qed.

Lemma code_unit_compare_trans_lt (a b c : jstring) :
  (code_unit_compare a b < 0)%Z -> (code_unit_compare b c < 0)%Z ->
  (code_unit_compare a c < 0)%Z.
Proof.
  revert b c. induction a as [|x a IH]; intros [|y b] [|z c];
    cbn [code_unit_compare]; try lia.
  destruct (Nat.ltb_spec (nat_of_ascii x) (nat_of_ascii y)),
           (Nat.ltb_spec (nat_of_ascii y) (nat_of_ascii x)),
           (Nat.ltb_spec (nat_of_ascii y) (nat_of_ascii z)),
           (Nat.ltb_spec (nat_of_ascii z) (nat_of_ascii y)),
           (Nat.ltb_spec (nat_of_ascii x) (nat_of_ascii z)),
           (Nat.ltb_spec (nat_of_ascii z) (nat_of_ascii x)); try lia.
  apply IH.
Qed.

(** The plain lexical comparison is a consistent comparator, and a
    string without digits stands before every run of digits when it is
    empty or starts below the digit 0, and after every run of digits
    otherwise. *)
Lemma code_unit_compare_consistent :
  (forall x, code_unit_compare x x = 0%Z) /\
  (forall x y, code_unit_compare x y = 0%Z -> code_unit_compare y x = 0%Z) /\
  (forall x y z, code_unit_compare x y = 0%Z -> code_unit_compare y z = 0%Z ->
                 code_unit_compare x z = 0%Z) /\
  (forall x y z, (code_unit_compare x y < 0)%Z -> (code_unit_compare y z < 0)%Z ->
                 (code_unit_compare x z < 0)%Z) /\
  (forall x y z, (0 < code_unit_compare x y)%Z -> (0 < code_unit_compare y z)%Z ->
                 (0 < code_unit_compare x z)%Z).
Proof.
  split; [apply code_unit_compare_refl|].
  split; [intros x y Hxy; rewrite code_unit_compare_swap; lia|].
  split; [apply code_unit_compare_trans_eq|].
  split; [apply code_unit_compare_trans_lt|].
  intros x y z Hxy Hyz.
  pose proof (code_unit_compare_swap x y). pose proof (code_unit_compare_swap y z).
  pose proof (code_unit_compare_swap x z).
  pose proof (code_unit_compare_trans_lt z y x). lia.
Qed.

Lemma code_unit_compare_keeps_digits (t : jstring) :
  forallb is_non_digit t = true ->
  (forall d, is_numeric d = true -> (code_unit_compare t d < 0)%Z) \/
  (forall d, is_numeric d = true -> (0 < code_unit_compare t d)%Z).
Proof.
  destruct t as [|c t]; [left; by intros [|d ds]|].
  cbn [forallb]. intros [Hc _]%andb_true_iff.
  unfold is_non_digit, is_digit in Hc. apply negb_true_iff, andb_false_iff in Hc.
  destruct Hc as [Hc|Hc]; [left | right].
  - apply Nat.leb_gt in Hc. intros [|d ds]; [done|]. cbn [is_numeric forallb].
    intros [Hd _]%andb_true_iff. unfold is_digit in Hd.
    apply andb_true_iff in Hd as [Hlo _]. apply Nat.leb_le in Hlo.
    cbn [code_unit_compare].
    destruct (Nat.ltb_spec (nat_of_ascii c) (nat_of_ascii d)); lia.
  - apply Nat.leb_gt in Hc. intros [|d ds]; [done|]. cbn [is_numeric forallb].
    intros [Hd _]%andb_true_iff. unfold is_digit in Hd.
    apply andb_true_iff in Hd as [_ Hhi]. apply Nat.leb_le in Hhi.
    cbn [code_unit_compare].
    destruct (Nat.ltb_spec (nat_of_ascii c) (nat_of_ascii d)); [lia|].
    destruct (Nat.ltb_spec (nat_of_ascii d) (nat_of_ascii c)); lia.
Qed.

(** ** The comparator is consistent *)

Lemma part_order_cases `{Platform} (x y : jstring) :
  is_part x -> is_part y ->
  (is_numeric x = true /\ is_numeric y = true /\
   Z.sgn (part_order x y) = Z.sgn (decimal_value x - decimal_value y)) \/
  ((is_numeric x = false \/ is_numeric y = false) /\
   part_order x y = localeCompare x y).
Proof.
  intros Hx Hy. unfold part_order.
  destruct (is_numeric x) eqn:Nx, (is_numeric y) eqn:Ny.
  - left. split; [done|]. split; [done|]. rewrite compare_part_numeric by done.
    destruct (Z.eqb_spec (decimal_value x) (decimal_value y)) as [->|Hne]; cbn [decided].
    + by rewrite Z.sub_diag.
    + apply number_minus_sgn; [apply to_double_range..|done].
  - right. split; [by right|].
    rewrite compare_part_other by (by rewrite ?Nx, ?Ny).
    by destruct (Z.eqb_spec (localeCompare x y) 0) as [->|].
  - right. split; [by left|].
    rewrite compare_part_other by (by rewrite ?Nx, ?Ny).
    by destruct (Z.eqb_spec (localeCompare x y) 0) as [->|].
  - right. split; [by left|].
    rewrite compare_part_other by (by rewrite ?Nx, ?Ny).
    by destruct (Z.eqb_spec (localeCompare x y) 0) as [->|].
Qed.

Lemma part_without_digits (t : jstring) :
  is_part t -> is_numeric t = false -> forallb is_non_digit t = true.
Proof.
  intros [->|[Hn|Ht]] Hf; [done|congruence|]. by destruct t.
Qed.

Lemma part_at_is_part (s : jstring) (j : nat) : is_part (part_at (parts s) j).
Proof.
  unfold part_at. rewrite nth_lookup.
  destruct (parts s !! j) as [t|] eqn:Hj; cbn [default]; [right|by left].
  pose proof (alternating_runs _ (proj2 (parts_spec s))) as Hall.
  rewrite Forall_forall in Hall. apply Hall. by eapply list_elem_of_lookup_2.
Qed.

Lemma compare_from_lex `{Platform} (n i : nat) (xs ys : list jstring) :
  compare_from n i xs ys = lex_from part_order n i (part_at xs) (part_at ys).
Proof.
  revert i. induction n as [|n IH]; intros i; cbn [compare_from lex_from]; [done|].
  rewrite IH.
  assert (Hstep : part_order (part_at xs i) (part_at ys i)
                  = decided (compare_part (nth i xs []) (nth i ys [])) 0%Z)
    by reflexivity.
  rewrite Hstep.
  destruct (compare_part (nth i xs []) (nth i ys [])) as [r|] eqn:Hc; cbn [decided].
  - apply compare_part_nonzero in Hc. by destruct (Z.eqb_spec r 0).
  - done.
Qed.

Lemma lex_from_nothing `{Platform} (k i : nat) (f g : nat -> jstring) :
  part_order [] [] = 0%Z ->
  (forall j, i <= j -> f j = [] /\ g j = []) ->
  lex_from part_order k i f g = 0%Z.
Proof.
  intros Hnil. revert i. induction k as [|k IH]; intros i Hfg; cbn [lex_from]; [done|].
  destruct (Hfg i) as [-> ->]; [lia|]. rewrite Hnil. cbn.
  apply IH. intros j Hj. apply Hfg. lia.
Qed.

Lemma lex_from_beyond `{Platform} (n k i : nat) (f g : nat -> jstring) :
  part_order [] [] = 0%Z ->
  (forall j, i + n <= j -> f j = [] /\ g j = []) ->
  lex_from part_order (n + k) i f g = lex_from part_order n i f g.
Proof.
  intros Hnil. revert i. induction n as [|n IH]; intros i Hfg.
  - cbn [Nat.add]. cbn [lex_from]. apply lex_from_nothing; [done|].
    intros j Hj. apply Hfg. lia.
  - cbn [Nat.add lex_from].
    destruct (_ =? 0)%Z; [|done]. apply IH. intros j Hj. apply Hfg. lia.
Qed.

Lemma naturalSort_lex `{Platform} (N : nat) (a b : jstring) :
  compares_reflexively ->
  Nat.max (length (parts a)) (length (parts b)) <= N ->
  naturalSort a b = lex_from part_order N 0 (part_at (parts a)) (part_at (parts b)).
Proof.
  intros Hrefl HN. unfold naturalSort. rewrite compare_from_lex.
  set (m := Nat.max _ _) in *. replace N with (m + (N - m)) by lia.
  symmetry. apply lex_from_beyond.
  - unfold part_order. by rewrite compare_part_refl.
  - intros j Hj. unfold part_at. split; apply nth_overflow; lia.
Qed.

Section Comparator.
Context `{Platform}.
Hypothesis Hcons : compares_consistently.
Hypothesis Hkeep : keeps_digits_together.

Lemma localeCompare_swap (x y : jstring) :
  ((localeCompare x y < 0)%Z -> (0 < localeCompare y x)%Z) /\
  ((0 < localeCompare x y)%Z -> (localeCompare y x < 0)%Z).
Proof using Hcons.
  destruct Hcons as (Lr & Ls & Le & Ll & Lg). split; intros Hxy.
  - apply (cmp_lt_gt localeCompare (fun _ => True)); eauto.
  - apply (cmp_gt_lt localeCompare (fun _ => True)); eauto.
Qed.

Lemma mixed_cases (t d1 d2 : jstring) :
  is_part t -> is_numeric t = false ->
  is_numeric d1 = true -> is_numeric d2 = true ->
  ((localeCompare t d1 < 0)%Z /\ (0 < localeCompare d1 t)%Z /\
   (localeCompare t d2 < 0)%Z /\ (0 < localeCompare d2 t)%Z) \/
  ((0 < localeCompare t d1)%Z /\ (localeCompare d1 t < 0)%Z /\
   (0 < localeCompare t d2)%Z /\ (localeCompare d2 t < 0)%Z).
Proof using Hcons Hkeep.
  intros Ht Nt N1 N2.
  destruct (Hkeep t (part_without_digits t Ht Nt)) as [Hlow|Hhigh].
  - left. pose proof (Hlow d1 N1). pose proof (Hlow d2 N2).
    pose proof (proj1 (localeCompare_swap t d1)).
    pose proof (proj1 (localeCompare_swap t d2)). auto.
  - right. pose proof (Hhigh d1 N1). pose proof (Hhigh d2 N2).
    pose proof (proj2 (localeCompare_swap t d1)).
    pose proof (proj2 (localeCompare_swap t d2)). auto.
Qed.

Lemma part_order_refl (x : jstring) : is_part x -> part_order x x = 0%Z.
Proof using Hcons.
  intros _. unfold part_order. rewrite compare_part_refl; [done|].
  exact (proj1 Hcons).
Qed.

Lemma part_order_sym (x y : jstring) :
  is_part x -> is_part y -> part_order x y = 0%Z -> part_order y x = 0%Z.
Proof using Hcons.
  intros Hx Hy. destruct Hcons as (Lr & Ls & Le & Ll & Lg).
  pose proof (Ls x y).
  destruct (part_order_cases x y Hx Hy) as [(Nx & Ny & Hxy)|(Hn & Hxy)],
           (part_order_cases y x Hy Hx) as [(Ny' & Nx' & Hyx)|(Hn' & Hyx)];
    try (destruct Hn; congruence); try (destruct Hn'; congruence); lia.
Qed.

Lemma part_order_trans (x y z : jstring) :
  is_part x -> is_part y -> is_part z ->
  (part_order x y = 0%Z -> part_order y z = 0%Z -> part_order x z = 0%Z) /\
  ((part_order x y < 0)%Z -> (part_order y z < 0)%Z -> (part_order x z < 0)%Z) /\
  ((0 < part_order x y)%Z -> (0 < part_order y z)%Z -> (0 < part_order x z)%Z).
Proof using Hcons Hkeep.
  intros Hx Hy Hz.
  pose proof (proj1 (proj2 (proj2 Hcons)) x y z) as Le.
  pose proof (proj1 (proj2 (proj2 (proj2 Hcons))) x y z) as Ll.
  pose proof (proj2 (proj2 (proj2 (proj2 Hcons))) x y z) as Lg.
  destruct (is_numeric x) eqn:Nx, (is_numeric y) eqn:Ny, (is_numeric z) eqn:Nz;
    destruct (part_order_cases x y Hx Hy) as [(? & ? & Hxy)|([?|?] & Hxy)];
    try congruence;
    destruct (part_order_cases y z Hy Hz) as [(? & ? & Hyz)|([?|?] & Hyz)];
    try congruence;
    destruct (part_order_cases x z Hx Hz) as [(? & ? & Hxz)|([?|?] & Hxz)];
    try congruence;
    try (destruct (mixed_cases z x y Hz Nz Nx Ny) as [Hm|Hm]);
    try (destruct (mixed_cases y x z Hy Ny Nx Nz) as [Hm|Hm]);
    try (destruct (mixed_cases x y z Hx Nx Ny Nz) as [Hm|Hm]);
    lia.
Qed.

Lemma naturalSort_consistent (a b c : jstring) :
  naturalSort a a = 0%Z /\
  (naturalSort a b = 0%Z -> naturalSort b a = 0%Z) /\
  (naturalSort a b = 0%Z -> naturalSort b c = 0%Z -> naturalSort a c = 0%Z) /\
  ((naturalSort a b < 0)%Z -> (naturalSort b c < 0)%Z -> (naturalSort a c < 0)%Z) /\
  ((0 < naturalSort a b)%Z -> (0 < naturalSort b c)%Z -> (0 < naturalSort a c)%Z).
Proof using Hcons Hkeep.
  assert (Hrefl : compares_reflexively) by exact (proj1 Hcons).
  set (N := length (parts a) + length (parts b) + length (parts c)).
  rewrite (naturalSort_lex N a a), (naturalSort_lex N a b), (naturalSort_lex N b a),
    (naturalSort_lex N b c), (naturalSort_lex N a c) by (done || lia).
  assert (Peq : forall x y z, is_part x -> is_part y -> is_part z ->
            part_order x y = 0%Z -> part_order y z = 0%Z -> part_order x z = 0%Z)
    by (intros x y z Hx Hy Hz; apply (part_order_trans x y z Hx Hy Hz)).
  assert (Plt : forall x y z, is_part x -> is_part y -> is_part z ->
            (part_order x y < 0)%Z -> (part_order y z < 0)%Z -> (part_order x z < 0)%Z)
    by (intros x y z Hx Hy Hz; apply (part_order_trans x y z Hx Hy Hz)).
  assert (Pgt : forall x y z, is_part x -> is_part y -> is_part z ->
            (0 < part_order x y)%Z -> (0 < part_order y z)%Z -> (0 < part_order x z)%Z)
    by (intros x y z Hx Hy Hz; apply (part_order_trans x y z Hx Hy Hz)).
  split; [apply (lex_from_refl part_order is_part part_order_refl);
          apply part_at_is_part|].
  split; [apply (lex_from_sym part_order is_part part_order_sym);
          apply part_at_is_part|].
  split; [apply (lex_from_trans_eq part_order is_part Peq); apply part_at_is_part|].
  split.
  - apply (lex_from_trans_lt part_order is_part part_order_refl part_order_sym
             Peq Plt Pgt); apply part_at_is_part.
  - apply (lex_from_trans_gt part_order is_part part_order_refl part_order_sym
             Peq Plt Pgt); apply part_at_is_part.
Qed.

Lemma naturalSort_consistent_on (names : list jstring) :
  consistent_on naturalSort names.
Proof using Hcons Hkeep.
  unfold consistent_on. apply Forall_forall. intros x _.
  split; [exact (proj1 (naturalSort_consistent x x x))|].
  apply Forall_forall. intros y _.
  split; [exact (proj1 (proj2 (naturalSort_consistent x y y)))|].
  apply Forall_forall. intros z _.
  exact (proj2 (proj2 (naturalSort_consistent x y z))).
Qed.
End Comparator.

(** ** Sorted lists *)

Lemma consistent_on_facts {A} (cmp : A -> A -> Z) (l : list A) :
  consistent_on cmp l ->
  (forall x, x ∈ l -> cmp x x = 0%Z) /\
  (forall x y, x ∈ l -> y ∈ l -> cmp x y = 0%Z -> cmp y x = 0%Z) /\
  (forall x y z, x ∈ l -> y ∈ l -> z ∈ l ->
     cmp x y = 0%Z -> cmp y z = 0%Z -> cmp x z = 0%Z) /\
  (forall x y z, x ∈ l -> y ∈ l -> z ∈ l ->
     (cmp x y < 0)%Z -> (cmp y z < 0)%Z -> (cmp x z < 0)%Z) /\
  (forall x y z, x ∈ l -> y ∈ l -> z ∈ l ->
     (0 < cmp x y)%Z -> (0 < cmp y z)%Z -> (0 < cmp x z)%Z).
Proof.
  unfold consistent_on. rewrite Forall_forall. intros Hall.
  repeat split.
  - intros x Hx. by destruct (Hall x Hx).
  - intros x y Hx Hy. destruct (Hall x Hx) as [_ Hx2].
    rewrite Forall_forall in Hx2. by destruct (Hx2 y Hy).
  - intros x y z Hx Hy Hz. destruct (Hall x Hx) as [_ Hx2].
    rewrite Forall_forall in Hx2. destruct (Hx2 y Hy) as [_ Hy2].
    rewrite Forall_forall in Hy2. by destruct (Hy2 z Hz) as (? & ? & ?).
  - intros x y z Hx Hy Hz. destruct (Hall x Hx) as [_ Hx2].
    rewrite Forall_forall in Hx2. destruct (Hx2 y Hy) as [_ Hy2].
    rewrite Forall_forall in Hy2. by destruct (Hy2 z Hz) as (? & ? & ?).
  - intros x y z Hx Hy Hz. destruct (Hall x Hx) as [_ Hx2].
    rewrite Forall_forall in Hx2. destruct (Hx2 y Hy) as [_ Hy2].
    rewrite Forall_forall in Hy2. by destruct (Hy2 z Hz) as (? & ? & ?).
Qed.

(** With a comparator that is consistent on the elements of a list, the
    sorted list is the one arrangement of these elements that is in
    order and keeps the elements comparing equal in their order. *)
Lemma sort_by_characterised {A} (cmp : A -> A -> Z) (l : list A) :
  consistent_on cmp l ->
  sort_by cmp l ≡ₚ l /\ sorted_by cmp (sort_by cmp l) /\
  same_tie_order cmp l (sort_by cmp l) /\
  (forall other, other ≡ₚ l -> sorted_by cmp other ->
                 same_tie_order cmp l other -> other = sort_by cmp l).
Proof.
  intros (Hrefl & Hsym & Heq & Hlt & Hgt)%consistent_on_facts.
  assert (Hdom : Forall (fun x => x ∈ l) l) by by apply Forall_forall.
  split; [apply sort_by_perm|].
  split; [by apply (sort_by_sorted cmp (fun x => x ∈ l))|].
  split; [intros x Hx; by apply (sort_by_ties cmp (fun x => x ∈ l))|].
  intros other Hperm Hsorted Hties.
  apply (sorted_stable_unique cmp (fun x => x ∈ l)); try done.
  - apply Forall_forall. intros x Hx. by rewrite <- Hperm.
  - by rewrite Hperm, sort_by_perm.
  - by apply (sort_by_sorted cmp (fun x => x ∈ l)).
  - intros c Hc. rewrite (Hties c Hc).
    symmetry. by apply (sort_by_ties cmp (fun x => x ∈ l)).
Qed.

Lemma consistent_on_perm {A} (cmp : A -> A -> Z) (l1 l2 : list A) :
  l1 ≡ₚ l2 -> consistent_on cmp l1 -> consistent_on cmp l2.
Proof.
  intros Hperm Hc. unfold consistent_on in *.
  rewrite <- Hperm.
  eapply Forall_impl; [exact Hc|]. intros x [Hx Hall]. split; [done|].
  rewrite <- Hperm.
  eapply Forall_impl; [exact Hall|]. intros y [Hy Hall2]. split; [done|].
  by rewrite <- Hperm.
Qed.

Lemma ties_of_alone {A} (cmp : A -> A -> Z) (x : A) (l : list A) :
  NoDup l -> x ∈ l -> cmp x x = 0%Z ->
  (forall y, y ∈ l -> cmp x y = 0%Z -> x = y) ->
  ties_of cmp x l = [x].
Proof.
  intros Hnodup Hx Hrefl Halone. unfold ties_of.
  induction Hnodup as [|z l Hz Hnodup IH].
  - by apply elem_of_nil in Hx.
  - rewrite filter_cons. apply elem_of_cons in Hx as [->|Hx].
    + rewrite decide_True by done. f_equal.
      clear IH Hnodup. induction l as [|y l IHl]; [done|].
      rewrite filter_cons, decide_False.
      * apply IHl.
        -- intros Hin. apply Hz, elem_of_cons. by right.
        -- intros y' Hy'. apply Halone.
           apply elem_of_cons in Hy' as [->|Hy']; rewrite !elem_of_cons; auto.
      * intros Hzy. apply Hz, elem_of_cons. left.
        apply Halone; [rewrite !elem_of_cons; auto | done].
    + rewrite decide_False.
      * apply IH; [done|]. intros y Hy. apply Halone. by right.
      * intros Hxz. assert (x = z) as -> by (apply Halone; [by left | done]). done.
Qed.


(** ** The order of the files of a directory *)

Lemma existsSync_eq (p : path) (w : World) :
  existsSync p w = (Ok (bool_decide (is_Some (fs w !! p))), w).
Proof. reflexivity. Qed.

(** What [convertDirectory] does with a directory that lists at least
    one name ending in ".md": the files are read in sorted order, their
    contents joined with the separator, converted and written. *)
Lemma convertDirectory_on_listing `{Platform} (inputDir outputPath : jstring)
    (options : MergeOptions) (w : World) (listing : list jstring) :
  fs w !! path_resolve inputDir = Some (Dir listing) ->
  let files := sort_by (default naturalSort (sortFn options))
                       (List.filter (ends_with (js ".md")) listing) in
  files <> [] ->
  convertDirectory inputDir outputPath options w
  = (let* contents := read_directory_files (path_resolve inputDir) files in
     let* buffer :=
       convert (join (separatorMarkdown (default pagebreak (separator options)))
                     contents) options in
     write_output (path_resolve outputPath) buffer) w.
Proof.
  intros Hdir files Hfiles.
  unfold convertDirectory. unfold bind at 1. rewrite existsSync_eq, Hdir.
  rewrite bool_decide_eq_true_2 by eauto. cbn [negb].
  unfold bind at 1. unfold is_directory. rewrite Hdir. cbn [negb].
  unfold bind at 1. unfold readdirSync. rewrite Hdir. fold files.
  destruct files as [|f0 files0]; [done|]. reflexivity.
Qed.



(** ** Joining *)

Lemma join_cons (sep c : jstring) (rest : list jstring) :
  join sep (c :: rest) = c ++ flat_map (app sep) rest.
Proof.
  revert c. induction rest as [|c' rest IH]; intros c.
  - cbn. by rewrite app_nil_r.
  - change (join sep (c :: c' :: rest)) with (c ++ sep ++ join sep (c' :: rest)).
    rewrite IH. cbn [flat_map]. by rewrite <- app_assoc.
Qed.

Lemma join_length (sep : jstring) (contents : list jstring) :
  length (join sep contents)
  = list_sum (map length contents) + (length contents - 1) * length sep.
Proof.
  unfold list_sum. destruct contents as [|c rest]; [done|].
  rewrite join_cons, length_app. cbn [map fold_right length].
  rewrite Nat.sub_succ, Nat.sub_0_r.
  assert (Hrest : length (flat_map (app sep) rest)
                  = fold_right Nat.add 0 (map length rest) + length rest * length sep).
  { induction rest as [|r rest IH]; [done|].
    cbn [flat_map map fold_right length Nat.mul].
    rewrite !length_app, IH. lia. }
  lia.
Qed.

(** C5: The separator is the page-break fragment for pagebreak (and when
    none is chosen), the rule fragment for hr and the empty string for
    none. Joining puts it between consecutive bodies only: the merged
    text is the first body followed, for each further body, by the
    separator and that body, so its length is that of the bodies and of
    one separator less than there are bodies. Both merging entry points
    convert the text joined in this way: [convertDirectory] that of the
    contents of the files of the directory in sorted order, and
    [convertFiles] that of the contents of the files given. Joining A,
    B and C with the rule separator gives A, the separator, B, the
    separator, C, in which the separator occurs exactly twice and
    neither at the start nor at the end. *)
Theorem C5_separator_between_bodies `{Platform} :
  separatorMarkdown pagebreak
    = [LF; LF] ++ js "<div style=" ++ [DQUOTE] ++ js "page-break-after: always;"
      ++ [DQUOTE] ++ js "></div>" ++ [LF; LF] /\
  separatorMarkdown hr = [LF; LF] ++ js "---" ++ [LF; LF] /\
  separatorMarkdown none = [] /\
  default pagebreak (separator unset_options) = pagebreak /\
  (forall sep, join sep [] = []) /\
  (forall sep c rest, join sep (c :: rest) = c ++ flat_map (app sep) rest) /\
  (forall sep contents,
     length (join sep contents)
     = list_sum (map length contents) + (length contents - 1) * length sep) /\
  (forall inputDir outputPath options w listing,
     fs w !! path_resolve inputDir = Some (Dir listing) ->
     let files := sort_by (default naturalSort (sortFn options))
                          (List.filter (ends_with (js ".md")) listing) in
     files <> [] ->
     convertDirectory inputDir outputPath options w
     = (let* contents := read_directory_files (path_resolve inputDir) files in
        let* buffer :=
          convert (join (separatorMarkdown (default pagebreak (separator options)))
                        contents) options in
        write_output (path_resolve outputPath) buffer) w) /\
  (forall inputPaths outputPath options,
     inputPaths <> [] ->
     convertFiles inputPaths outputPath options
     = (let* contents := read_input_files inputPaths in
        let* buffer :=
          convert (join (separatorMarkdown (default pagebreak (separator options)))
                        contents) options in
        write_output (path_resolve outputPath) buffer)) /\
  (let sep := separatorMarkdown hr in
   let merged := join sep [js "A"; js "B"; js "C"] in
   merged = js "A" ++ sep ++ js "B" ++ sep ++ js "C" /\
   count_occurrences sep merged = 2 /\
   starts_with sep merged = false /\ ends_with sep merged = false).
Proof.
  split; [done|]. split; [done|]. split; [done|]. split; [done|]. split; [done|].
  split; [apply join_cons|]. split; [apply join_length|].
  split; [apply @convertDirectory_on_listing|].
  split; [|done].
  intros [|p inputPaths] outputPath options Hne; done.
Qed.

(** ** Preconditions of the merging entry points *)

Lemma read_input_files_missing `{Platform} (before after : list jstring)
    (missing : jstring) (w : World) :
  Forall (fun p => exists c, fs w !! path_resolve p = Some (File c)) before ->
  fs w !! path_resolve missing = None ->
  read_input_files (before ++ missing :: after) w
  = (Err (InputNotFound (path_resolve missing)), w).
Proof.
  intros Hbefore Hmissing. induction Hbefore as [|p before [c Hp] _ IH].
  - cbn [app read_input_files]. unfold bind. rewrite existsSync_eq, Hmissing.
    rewrite bool_decide_eq_false_2 by (by intros [? ?]). done.
  - cbn [app read_input_files]. unfold bind at 1. rewrite existsSync_eq, Hp.
    rewrite bool_decide_eq_true_2 by eauto. cbn [negb].
    unfold bind at 1. unfold readFileSync at 1. rewrite Hp.
    unfold bind at 1. by rewrite IH.
Qed.

(** C6: The precondition failures. [convertDirectory] fails with
    DirectoryNotFound when the input path does not exist, with
    NotADirectory when it is a file, and with NoEligibleFiles when it is
    a directory in which no name ends with .md. [convertFiles] fails with
    NoInputFiles on the empty list, and with InputNotFound naming the
    first listed path that does not exist when the paths listed before
    it are files. Each failure carries the resolved path and leaves the
    world as it was: nothing has been written. *)
Theorem C6_precondition_failures `{Platform}
    (inputDir outputPath : jstring) (options : MergeOptions) (w : World) :
  (fs w !! path_resolve inputDir = None ->
   convertDirectory inputDir outputPath options w
   = (Err (DirectoryNotFound (path_resolve inputDir)), w)) /\
  (forall content,
     fs w !! path_resolve inputDir = Some (File content) ->
     convertDirectory inputDir outputPath options w
     = (Err (NotADirectory (path_resolve inputDir)), w)) /\
  (forall names,
     fs w !! path_resolve inputDir = Some (Dir names) ->
     List.filter (ends_with (js ".md")) names = [] ->
     convertDirectory inputDir outputPath options w
     = (Err (NoEligibleFiles (path_resolve inputDir)), w)) /\
  convertFiles [] outputPath options w = (Err NoInputFiles, w) /\
  (forall before missing after,
     Forall (fun p => exists c, fs w !! path_resolve p = Some (File c)) before ->
     fs w !! path_resolve missing = None ->
     convertFiles (before ++ missing :: after) outputPath options w
     = (Err (InputNotFound (path_resolve missing)), w)).
Proof.
  repeat split.
  - intros Hnone. unfold convertDirectory, bind. rewrite existsSync_eq, Hnone.
    rewrite bool_decide_eq_false_2 by (by intros [? ?]). done.
  - intros content Hfile. unfold convertDirectory, bind.
    rewrite existsSync_eq, Hfile.
    rewrite bool_decide_eq_true_2 by eauto. cbn [negb].
    unfold is_directory. by rewrite Hfile.
  - intros names Hdir Hnomd. unfold convertDirectory, bind.
    rewrite existsSync_eq, Hdir.
    rewrite bool_decide_eq_true_2 by eauto. cbn [negb].
    unfold is_directory, readdirSync. rewrite Hdir. cbn [negb].
    rewrite Hdir, Hnomd. done.
  - intros before missing after Hbefore Hmissing.
    unfold convertFiles.
    replace (length (before ++ missing :: after) =? 0)%nat with false
      by (rewrite length_app; cbn; symmetry; apply Nat.eqb_neq; lia).
    unfold bind at 1. by rewrite read_input_files_missing.
Qed.

(** ** What a conversion call changes *)

Lemma same_outside_scratch_refl `{Platform} (w : World) : same_outside_scratch w w.
Proof. by intros q _. Qed.

Lemma same_outside_scratch_fs `{Platform} (w w' : World) :
  fs w' = fs w -> same_outside_scratch w w'.
Proof. intros Hfs q _. by rewrite Hfs. Qed.

Lemma same_outside_scratch_trans `{Platform} (w1 w2 w3 : World) :
  same_outside_scratch w1 w2 -> same_outside_scratch w2 w3 ->
  same_outside_scratch w1 w3.
Proof. intros H12 H23 q Hq. by rewrite H23, H12. Qed.

Lemma put_file_frame (p q : path) (c : jstring) (f f' : gmap path node) :
  put_file p c f = Ok f' -> q <> p -> q <> path_dirname p -> f' !! q = f !! q.
Proof.
  unfold put_file. intros Hput Hp Hd.
  destruct (f !! p) as [[?|?]|]; try discriminate;
    destruct (f !! path_dirname p) as [[?|es]|]; try discriminate;
    injection Hput as <-; by rewrite !lookup_insert_ne.
Qed.

Lemma put_file_error (p : path) (c : jstring) (f : gmap path node) (e : error) :
  put_file p c f = Err e -> is_write_failure e = true.
Proof.
  unfold put_file. intros Hput.
  destruct (f !! p) as [[?|?]|]; try (by injection Hput as <-);
    destruct (f !! path_dirname p) as [[?|es]|]; try discriminate;
    by injection Hput as <-.
Qed.

Lemma put_file_lookup (p : path) (c : jstring) (f f' : gmap path node) :
  put_file p c f = Ok f' -> f' !! p = Some (File c).
Proof.
  unfold put_file. intros Hput.
  destruct (f !! p) as [[?|?]|]; try discriminate;
    destruct (f !! path_dirname p) as [[?|es]|]; try discriminate;
    injection Hput as <-; by rewrite lookup_insert_eq.
Qed.

Lemma make_dirs_error (f : gmap path node) (pre : path) (segs : list jstring)
    (e : error) :
  make_dirs f pre segs = Err e -> is_write_failure e = true.
Proof.
  revert f pre. induction segs as [|s segs IH]; intros f pre; cbn [make_dirs].
  - discriminate.
  - destruct (f !! (pre ++ [s])) as [[?|?]|]; [by intros [= <-] | apply IH..].
Qed.

Lemma scratch_file_inside `{Platform} (name : jstring) (q : path) :
  ~ tempDir `prefix_of` q ->
  q <> path_join tempDir name /\ q <> path_dirname (path_join tempDir name).
Proof.
  intros Hq. unfold path_dirname, path_join. rewrite removelast_last. split.
  - intros ->. apply Hq. by exists [name].
  - intros ->. by apply Hq.
Qed.

Lemma writeFileSync_scratch `{Platform} (name c : jstring) (w w' : World) (r : result unit) :
  writeFileSync (path_join tempDir name) c w = (r, w') -> same_outside_scratch w w'.
Proof.
  unfold writeFileSync.
  destruct (put_file _ _ (fs w)) as [f|e] eqn:Hput; intros [= <- <-].
  - intros q Hq. destruct (scratch_file_inside name q Hq).
    cbn. by apply (put_file_frame _ _ _ _ _ Hput).
  - apply same_outside_scratch_refl.
Qed.

Lemma spawn_scratch `{Platform} (inputFile : path) (name : jstring) (w w' : World)
    (r : result ProcEvent) :
  spawn inputFile (path_join tempDir name) w = (r, w') -> same_outside_scratch w w'.
Proof.
  unfold spawn. destruct (mmdc _ _) as [msg|exit_code stderr [bytes|]];
    intros [= <- <-]; try (by apply same_outside_scratch_fs).
  cbn [fs]. destruct (put_file _ _ (fs w)) as [f|e] eqn:Hput;
    [|by apply same_outside_scratch_fs].
  intros q Hq. destruct (scratch_file_inside name q Hq).
  cbn. by apply (put_file_frame _ _ _ _ _ Hput).
Qed.

Lemma renderMermaidToPng_scratch `{Platform} (mermaidCode : jstring) (w w' : World)
    (r : result path) :
  renderMermaidToPng mermaidCode w = (r, w') -> same_outside_scratch w w'.
Proof.
  unfold renderMermaidToPng, bind, ret, throw. rewrite existsSync_eq.
  destruct (bool_decide _); [intros [= <- <-]; apply same_outside_scratch_refl|].
  destruct (writeFileSync _ _ w) as [[u|e] w1] eqn:Hw;
    apply writeFileSync_scratch in Hw;
    [|by intros [= <- <-]].
  destruct (spawn _ _ w1) as [[[msg|exit_code stderr]|e] w2] eqn:Hs;
    apply spawn_scratch in Hs;
    pose proof (same_outside_scratch_trans _ _ _ Hw Hs) as Hws;
    try (by intros [= <- <-]).
  destruct (negb (exit_code =? 0)%Z); [by intros [= <- <-]|].
  rewrite existsSync_eq. destruct (negb _); by intros [= <- <-].
Qed.

Lemma render_block_scratch `{Platform} (b : MermaidBlock) (w w' : World)
    (r : result jstring) :
  render_block b w = (r, w') -> same_outside_scratch w w'.
Proof.
  unfold render_block, bind, ret.
  destruct (renderMermaidToPng (code b) w) as [[p|e] w1] eqn:Hr;
    apply renderMermaidToPng_scratch in Hr; [|by intros [= <- <-]].
  unfold readFileSync. destruct (fs w1 !! p) as [[c|es]|]; by intros [= <- <-].
Qed.

Lemma for_blocks_scratch `{Platform} (blocks : list MermaidBlock) (st : jstring * Z)
    (w w' : World) (r : result (jstring * Z)) :
  for_blocks blocks st w = (r, w') -> same_outside_scratch w w'.
Proof.
  revert st w. induction blocks as [|b blocks IH]; intros st w; cbn [for_blocks].
  - intros [= <- <-]. apply same_outside_scratch_refl.
  - unfold bind. rewrite rewrite_block_eq.
    destruct (render_block b w) as [[img|e] w1] eqn:Hr;
      apply render_block_scratch in Hr; intros Hloop; apply IH in Hloop.
    + by apply (same_outside_scratch_trans _ w1).
    + apply (same_outside_scratch_trans _ w1); [done|].
      intros q Hq. by rewrite (Hloop q Hq).
Qed.

Lemma preprocessMermaid_scratch `{Platform} (md : jstring) (w w' : World)
    (r : result jstring) :
  preprocessMermaid md w = (r, w') ->
  same_outside_scratch w w' /\ exists text, r = Ok text.
Proof.
  unfold preprocessMermaid.
  destruct (length (extractMermaidBlocks md) =? 0).
  - intros [= <- <-]. split; [apply same_outside_scratch_refl | eauto].
  - unfold bind, ret.
    destruct (for_blocks_outcomes (extractMermaidBlocks md) (md, 0%Z) w) as [w1 Hloop].
    pose proof (for_blocks_scratch _ _ _ _ _ Hloop). rewrite Hloop.
    intros [= <- <-]. eauto.
Qed.

Lemma convert_scratch `{Platform} (md : jstring) (options : ConvertOptions)
    (w w' : World) (r : result jstring) :
  convert md options w = (r, w') ->
  same_outside_scratch w w' /\
  (default false (enableMermaid options) = false -> w' = w) /\
  (forall e, r = Err e -> is_write_failure e = false).
Proof.
  unfold convert, bind.
  destruct (default false (enableMermaid options)).
  - destruct (preprocessMermaid md w) as [r1 w1] eqn:Hp.
    apply preprocessMermaid_scratch in Hp as [Hframe [text ->]].
    destruct (remark_docx (fs w1) text); intros [= <- <-];
      repeat split; try done; by intros e [= <-].
  - unfold ret. destruct (remark_docx (fs w) md); intros [= <- <-];
      repeat split; try done; try apply same_outside_scratch_refl;
      by intros e [= <-].
Qed.

Lemma write_output_error (p : path) (buffer : jstring) (w w' : World) (e : error) :
  write_output p buffer w = (Err e, w') -> is_write_failure e = true.
Proof.
  unfold write_output, bind. rewrite existsSync_eq.
  destruct (negb _).
  - unfold mkdirSync_recursive.
    destruct (make_dirs (fs w) [] (path_dirname p)) as [f|e1] eqn:Hm.
    + unfold writeFileSync. cbn [fs set_fs].
      destruct (put_file p buffer f) as [f2|e2] eqn:Hput; [discriminate|].
      intros [= <- <-]. by apply put_file_error in Hput.
    + intros [= <- <-]. by apply make_dirs_error in Hm.
  - unfold ret, writeFileSync.
    destruct (put_file p buffer (fs w)) as [f2|e2] eqn:Hput; [discriminate|].
    intros [= <- <-]. by apply put_file_error in Hput.
Qed.

Lemma write_output_done (p : path) (buffer : jstring) (w w' : World) (u : unit) :
  write_output p buffer w = (Ok u, w') -> fs w' !! p = Some (File buffer).
Proof.
  unfold write_output, bind. rewrite existsSync_eq.
  destruct (negb _).
  - unfold mkdirSync_recursive.
    destruct (make_dirs (fs w) [] (path_dirname p)) as [f|e1] eqn:Hm; [|discriminate].
    unfold writeFileSync. cbn [fs set_fs].
    destruct (put_file p buffer f) as [f2|e2] eqn:Hput; [|discriminate].
    intros [= _ <-]. by apply put_file_lookup in Hput.
  - unfold ret, writeFileSync.
    destruct (put_file p buffer (fs w)) as [f2|e2] eqn:Hput; [|discriminate].
    intros [= _ <-]. by apply put_file_lookup in Hput.
Qed.

Lemma read_directory_files_pure `{Platform} (dir : path) (files : list jstring)
    (w w' : World) (r : result (list jstring)) :
  read_directory_files dir files w = (r, w') ->
  w' = w /\ forall e, r = Err e -> is_write_failure e = false.
Proof.
  revert r w'. induction files as [|file files IH]; intros r w';
    cbn [read_directory_files].
  - intros [= <- <-]. split; [done | discriminate].
  - unfold bind, readFileSync, ret.
    destruct (fs w !! path_join dir file) as [[c|es]|];
      try (intros [= <- <-]; split; [done | by intros e [= <-]]).
    destruct (read_directory_files dir files w) as [[contents|e1] w1] eqn:Hr;
      destruct (IH _ _ eq_refl) as [-> Herr]; intros [= <- <-];
      (split; [done|]); intros e [= <-]; by apply Herr.
Qed.

Lemma read_input_files_pure `{Platform} (inputPaths : list jstring)
    (w w' : World) (r : result (list jstring)) :
  read_input_files inputPaths w = (r, w') ->
  w' = w /\ forall e, r = Err e -> is_write_failure e = false.
Proof.
  revert r w'. induction inputPaths as [|p inputPaths IH]; intros r w';
    cbn [read_input_files].
  - intros [= <- <-]. split; [done | discriminate].
  - unfold bind. rewrite existsSync_eq. destruct (negb _).
    + intros [= <- <-]. split; [done | by intros e [= <-]].
    + unfold readFileSync, ret.
      destruct (fs w !! path_resolve p) as [[c|es]|];
        try (intros [= <- <-]; split; [done | by intros e [= <-]]).
      destruct (read_input_files inputPaths w) as [[contents|e1] w1] eqn:Hr;
        destruct (IH _ _ eq_refl) as [-> Herr]; intros [= <- <-];
        (split; [done|]); intros e [= <-]; by apply Herr.
Qed.

(** A conversion followed by the Writing step either fails before the
    Writing step, with a failure that is not one of that step and with
    everything outside the scratch directory as it was, or [convert] has
    returned its buffer and the outcome is that of the Writing step. *)
Lemma convert_then_write `{Platform} (md : jstring) (options : ConvertOptions)
    (p : path) (w w' : World) (r : result unit) :
  (let* buffer := convert md options in write_output p buffer) w = (r, w') ->
  (exists e, r = Err e /\ is_write_failure e = false /\ same_outside_scratch w w')
  \/ (exists buffer w1, convert md options w = (Ok buffer, w1)
                        /\ write_output p buffer w1 = (r, w')).
Proof.
  unfold bind at 1.
  destruct (convert md options w) as [[buffer|e1] w1] eqn:Hc.
  - intros Hw. right. eauto.
  - apply convert_scratch in Hc as (Hframe & _ & Herr).
    intros [= <- <-]. left. exists e1. auto.
Qed.

(** The outcome of a call that stops before [convert]: a failure that is
    not one of the Writing step, in an unchanged world. *)
Lemma stops_before_convert `{Platform} (e : error) (w : World) (p : path)
    (options : ConvertOptions) :
  is_write_failure e = false ->
  (exists e', @Err unit e = Err e' /\ is_write_failure e' = false
              /\ same_outside_scratch w w)
  \/ (exists text buffer w1, convert text options w = (Ok buffer, w1)
                             /\ write_output p buffer w1 = (@Err unit e, w)).
Proof.
  intros He. left. exists e. split; [done|]. split; [done|].
  apply same_outside_scratch_refl.
Qed.

Lemma convertFile_phases `{Platform} (inputPath outputPath : jstring)
    (options : ConvertOptions) (w w' : World) (r : result unit) :
  convertFile inputPath outputPath options w = (r, w') ->
  (exists e, r = Err e /\ is_write_failure e = false /\ same_outside_scratch w w')
  \/ (exists text buffer w1, convert text options w = (Ok buffer, w1)
        /\ write_output (path_resolve outputPath) buffer w1 = (r, w')).
Proof.
  unfold convertFile. unfold bind at 1. rewrite existsSync_eq. destruct (negb _).
  { intros [= <- <-]. by apply stops_before_convert. }
  unfold bind at 1. unfold readFileSync.
  destruct (fs w !! path_resolve inputPath) as [[c|es]|];
    try (intros [= <- <-]; by apply stops_before_convert).
  intros [Hfail|(buffer & w1 & Hc & Hw)]%convert_then_write; [by left|].
  right. eauto.
Qed.

Lemma convertDirectory_phases `{Platform} (inputDir outputPath : jstring)
    (options : MergeOptions) (w w' : World) (r : result unit) :
  convertDirectory inputDir outputPath options w = (r, w') ->
  (exists e, r = Err e /\ is_write_failure e = false /\ same_outside_scratch w w')
  \/ (exists text buffer w1, convert text options w = (Ok buffer, w1)
        /\ write_output (path_resolve outputPath) buffer w1 = (r, w')).
Proof.
  unfold convertDirectory.
  unfold bind at 1. rewrite existsSync_eq. destruct (negb _).
  { intros [= <- <-]. by apply stops_before_convert. }
  unfold bind at 1. unfold is_directory.
  destruct (fs w !! path_resolve inputDir) as [[c|es]|] eqn:Hdir;
    try (intros [= <- <-]; by apply stops_before_convert).
  cbn [negb]. unfold bind at 1. unfold readdirSync. rewrite Hdir.
  destruct (length _ =? 0).
  { intros [= <- <-]. by apply stops_before_convert. }
  unfold bind at 1.
  destruct (read_directory_files _ _ w) as [[contents|e1] w1] eqn:Hr;
    apply read_directory_files_pure in Hr as [-> Herr].
  - intros [Hfail|(buffer & w1 & Hc & Hw)]%convert_then_write; [by left|].
    right. eauto.
  - intros [= <- <-]. apply stops_before_convert. by apply Herr.
Qed.

Lemma convertFiles_phases `{Platform} (inputPaths : list jstring)
    (outputPath : jstring) (options : MergeOptions) (w w' : World)
    (r : result unit) :
  convertFiles inputPaths outputPath options w = (r, w') ->
  (exists e, r = Err e /\ is_write_failure e = false /\ same_outside_scratch w w')
  \/ (exists text buffer w1, convert text options w = (Ok buffer, w1)
        /\ write_output (path_resolve outputPath) buffer w1 = (r, w')).
Proof.
  unfold convertFiles.
  destruct (length inputPaths =? 0).
  { intros [= <- <-]. by apply stops_before_convert. }
  unfold bind at 1.
  destruct (read_input_files inputPaths w) as [[contents|e1] w1] eqn:Hr;
    apply read_input_files_pure in Hr as [-> Herr].
  - intros [Hfail|(buffer & w1 & Hc & Hw)]%convert_then_write; [by left|].
    right. eauto.
  - intros [= <- <-]. apply stops_before_convert. by apply Herr.
Qed.

(** A failure that is not one of the Writing step comes from before it. *)
Lemma failure_before_writing `{Platform} (out : path) (options : ConvertOptions)
    (w w' : World) (e : error) :
  (exists e', Err e = @Err unit e' /\ is_write_failure e' = false
              /\ same_outside_scratch w w')
  \/ (exists text buffer w1, convert text options w = (Ok buffer, w1)
        /\ write_output out buffer w1 = (Err e, w')) ->
  is_write_failure e = false -> same_outside_scratch w w'.
Proof.
  intros [(e' & [= <-] & _ & Hsame)|(text & buffer & w1 & _ & Hw)] Hnot; [done|].
  apply write_output_error in Hw. congruence.
Qed.

(** C7: no partial output. A call of [convert] changes nothing outside
    the scratch directory, and nothing at all when diagrams are not
    enabled. A call of [convertFile], [convertDirectory] or
    [convertFiles] either fails before the Writing step, with a failure
    that is not one of that step (a precondition failure, a failure of
    the engine, an unexpected output type) and with everything outside
    the scratch directory, the destination path and its directory
    included, as it was before the call; or [convert] has returned a
    complete buffer and the outcome of the call is the outcome of the
    Writing step on that buffer. So a call that fails with anything but
    a failure of the Writing step has written nothing outside the scratch
    directory. The Writing step fails only with failures of its own, and
    when it succeeds the destination holds exactly the buffer. *)
Theorem C7_no_partial_output `{Platform} (w w' : World) :
  (forall md (options : ConvertOptions) r,
     convert md options w = (r, w') ->
     same_outside_scratch w w' /\
     (default false (enableMermaid options) = false -> w' = w)) /\
  (forall inputPath outputPath (options : ConvertOptions) r,
     convertFile inputPath outputPath options w = (r, w') ->
     (exists e, r = Err e /\ is_write_failure e = false
                /\ same_outside_scratch w w')
     \/ (exists text buffer w1, convert text options w = (Ok buffer, w1)
           /\ write_output (path_resolve outputPath) buffer w1 = (r, w'))) /\
  (forall inputDir outputPath (options : MergeOptions) r,
     convertDirectory inputDir outputPath options w = (r, w') ->
     (exists e, r = Err e /\ is_write_failure e = false
                /\ same_outside_scratch w w')
     \/ (exists text buffer w1, convert text options w = (Ok buffer, w1)
           /\ write_output (path_resolve outputPath) buffer w1 = (r, w'))) /\
  (forall inputPaths outputPath (options : MergeOptions) r,
     convertFiles inputPaths outputPath options w = (r, w') ->
     (exists e, r = Err e /\ is_write_failure e = false
                /\ same_outside_scratch w w')
     \/ (exists text buffer w1, convert text options w = (Ok buffer, w1)
           /\ write_output (path_resolve outputPath) buffer w1 = (r, w'))) /\
  (forall inputPath outputPath (options : ConvertOptions) e,
     convertFile inputPath outputPath options w = (Err e, w') ->
     is_write_failure e = false -> same_outside_scratch w w') /\
  (forall inputDir outputPath (options : MergeOptions) e,
     convertDirectory inputDir outputPath options w = (Err e, w') ->
     is_write_failure e = false -> same_outside_scratch w w') /\
  (forall inputPaths outputPath (options : MergeOptions) e,
     convertFiles inputPaths outputPath options w = (Err e, w') ->
     is_write_failure e = false -> same_outside_scratch w w') /\
  (forall p buffer e,
     write_output p buffer w = (Err e, w') -> is_write_failure e = true) /\
  (forall p buffer u,
     write_output p buffer w = (Ok u, w') -> fs w' !! p = Some (File buffer)).
Proof.
  split; [|split; [|split; [|split; [|split; [|split; [|split; [|split]]]]]]].
  - intros md options r Hc. by apply convert_scratch in Hc as (? & ? & _).
  - intros inputPath outputPath options r. apply convertFile_phases.
  - intros inputDir outputPath options r. apply convertDirectory_phases.
  - intros inputPaths outputPath options r. apply convertFiles_phases.
  - intros inputPath outputPath options e Hcall%convertFile_phases.
    by apply (failure_before_writing (path_resolve outputPath) options).
  - intros inputDir outputPath options e Hcall%convertDirectory_phases.
    by apply (failure_before_writing (path_resolve outputPath) options).
  - intros inputPaths outputPath options e Hcall%convertFiles_phases.
    by apply (failure_before_writing (path_resolve outputPath) options).
  - intros p buffer e. apply write_output_error.
  - intros p buffer u. apply write_output_done.
Qed.

(** ** The theorems at concrete inputs *)

Lemma C9_scanner_fence_shape_witness :
  two_diagrams_second ∈ extractMermaidBlocks two_diagrams /\
  exists i j, fenced_at two_diagrams two_diagrams_second i j.
Proof.
  assert (Hin : two_diagrams_second ∈ extractMermaidBlocks two_diagrams).
  { vm_compute. apply elem_of_cons. right. apply elem_of_cons. left. reflexivity. }
  split; [exact Hin|].
  exact (proj1 C9_scanner_fence_shape two_diagrams two_diagrams_second Hin).
Defined.

Lemma C2_failed_blocks_are_kept_witness :
  let P := test_platform flaky_mmdc echo_engine in
  block_outcomes (extractMermaidBlocks two_diagrams) test_world !! 1
    = Some (Some png_reference) /\
  (exists w', preprocessMermaid two_diagrams test_world
              = (Ok (streamed two_diagrams 0
                       [(two_diagrams_first, None);
                        (two_diagrams_second, Some png_reference)]), w')) /\
  ("`"%char ∉ png_reference).
Proof.
  intros P.
  assert (Hout : block_outcomes (extractMermaidBlocks two_diagrams) test_world !! 1
                 = Some (Some png_reference)) by (vm_compute; reflexivity).
  destruct (C2_failed_blocks_are_kept two_diagrams test_world) as (Hrun & _ & Himg).
  split; [exact Hout|]. split.
  - exact Hrun.
  - exact (proj1 (Himg 1 png_reference Hout)).
Defined.

Lemma C3_cache_hit_after_success_witness :
  let P := test_platform working_mmdc echo_engine in
  (fenced_at two_diagrams two_diagrams_first 5 16 /\
   fenced_at other_document other_document_block 6 20 /\
   cache_output_file (code two_diagrams_first)
     = cache_output_file (code other_document_block)) /\
  (let '(r, w1) := renderMermaidToPng (js "graph TD; A-->B") test_world in
   r = Ok (cache_output_file (js "graph TD; A-->B")) /\
   is_Some (fs w1 !! cache_output_file (js "graph TD; A-->B")) /\
   renderMermaidToPng (js "graph TD; A-->B") w1 = (r, w1)).
Proof.
  intros P.
  assert (Hshape : forall md b i j,
            startIndex b = Z.of_nat i -> endIndex b = Z.of_nat (i + 11 + j + 3) ->
            find fence_close (drop (i + 11) md) = Some j ->
            i + 11 + j + 3 <= length md ->
            occurs_at fence_open md i ->
            code b = trim (take j (drop (i + 11) md)) ->
            fenced_at md b i j).
  { intros md b i j Hs He Hfind Hlen Hopen Hcode.
    apply find_Some in Hfind as [Hclose Hmin].
    repeat split; try assumption.
    - apply occurs_at_drop in Hclose. exact Hclose.
    - intros k Hk Hocc. apply (Hmin k Hk). apply occurs_at_drop. exact Hocc. }
  assert (H1 : fenced_at two_diagrams two_diagrams_first 5 16).
  { apply Hshape; vm_compute; try reflexivity; lia. }
  assert (H2 : fenced_at other_document other_document_block 6 20).
  { apply Hshape; vm_compute; try reflexivity; lia. }
  destruct (@C3_cache_hit_after_success P) as [Hkey Hhit].
  split.
  - split; [exact H1|]. split; [exact H2|].
    apply (Hkey two_diagrams other_document two_diagrams_first other_document_block
                5 16 6 20 H1 H2).
    vm_compute. reflexivity.
  - assert (Hfst : fst (renderMermaidToPng (js "graph TD; A-->B") test_world)
                   = Ok (cache_output_file (js "graph TD; A-->B")))
      by (vm_compute; reflexivity).
    destruct (renderMermaidToPng (js "graph TD; A-->B") test_world) as [r w1] eqn:Hcall.
    cbn [fst] in Hfst. subst r. split; [reflexivity|].
    split; [exact (proj1 (proj2 (Hhit _ _ _ _ Hcall)))|].
    exact (proj2 (proj2 (proj2 (Hhit _ _ _ _ Hcall)))).
Defined.

Lemma C4_natural_sort_comparator_witness :
  let P := test_platform working_mmdc echo_engine in
  compares_lexically /\ compares_reflexively /\
  small_numbers (parts (js "f2.md")) /\ small_numbers (parts (js "f10.md")) /\
  Z.sgn (naturalSort (js "f2.md") (js "f10.md"))
  = Z.sgn (spec_order (parts (js "f2.md")) (parts (js "f10.md"))) /\
  (naturalSort (js "f") (js "f1.md") < 0)%Z /\
  sort_by naturalSort chapter_names = [js "f1.md"; js "f2.md"; js "f10.md"].
Proof.
  intros P.
  assert (Hlex : compares_lexically) by (intros x y; reflexivity).
  assert (Hrefl : compares_reflexively) by exact code_unit_compare_refl.
  assert (Hs2 : small_numbers (parts (js "f2.md")))
    by (apply (bool_decide_unpack _); vm_compute; exact I).
  assert (Hs10 : small_numbers (parts (js "f10.md")))
    by (apply (bool_decide_unpack _); vm_compute; exact I).
  assert (Hparts : parts (js "f1.md") = [js "f"] ++ js "1" :: [js ".md"])
    by reflexivity.
  assert (Hties : Forall2 (fun x p => compare_part x p = None) (parts (js "f")) [js "f"]).
  { constructor; [vm_compute; reflexivity | constructor]. }
  assert (Hempty : (localeCompare [] (js "1") < 0)%Z) by reflexivity.
  destruct (@C4_natural_sort_comparator P)
    as (_ & _ & _ & _ & _ & Hshorter & _ & Hspec & Hexample).
  split; [exact Hlex|]. split; [exact Hrefl|].
  split; [exact Hs2|]. split; [exact Hs10|].
  split; [exact (Hspec Hlex (js "f2.md") (js "f10.md") Hs2 Hs10)|].
  split; [exact (proj2 (Hshorter (js "f") (js "f1.md") [js "f"] (js "1") [js ".md"]
                          Hparts Hties) Hempty)|].
  exact (Hexample Hrefl).
Defined.

Lemma C10_zero_padding_is_invisible_witness :
  let P := test_platform working_mmdc echo_engine in
  compares_reflexively /\
  naturalSort (js "01-intro.md") (js "1-intro.md") = 0%Z /\
  sort_by naturalSort [js "1-intro.md"; js "01-intro.md"]
    = [js "1-intro.md"; js "01-intro.md"].
Proof.
  intros P.
  assert (Hrefl : compares_reflexively) by exact code_unit_compare_refl.
  destruct (C10_zero_padding_is_invisible Hrefl)
    as (_ & _ & Htie & _ & _ & _ & Hsorted).
  split; [exact Hrefl|]. split; [exact Htie | exact Hsorted].
Defined.


Lemma C5_separator_between_bodies_witness :
  let P := test_platform working_mmdc echo_engine in
  let listing := [js "b.md"; js "a.md"; js "notes.txt"; js "c.md"] in
  let files := sort_by (default naturalSort (sortFn mermaid_options))
                       (List.filter (ends_with (js ".md")) listing) in
  fs test_world !! path_resolve (js "/docs") = Some (Dir listing) /\
  files = [js "a.md"; js "b.md"; js "c.md"] /\
  convertDirectory (js "/docs") (js "/out/x.docx") mermaid_options test_world
  = (let* contents := read_directory_files (path_resolve (js "/docs")) files in
     let* buffer := convert (join (separatorMarkdown hr) contents) mermaid_options in
     write_output [js "out"; js "x.docx"] buffer) test_world /\
  [js "/docs/b.md"; js "/docs/a.md"] <> [] /\
  convertFiles [js "/docs/b.md"; js "/docs/a.md"] (js "/out/x.docx") mermaid_options
  = (let* contents := read_input_files [js "/docs/b.md"; js "/docs/a.md"] in
     let* buffer := convert (join (separatorMarkdown hr) contents) mermaid_options in
     write_output [js "out"; js "x.docx"] buffer) /\
  fs (snd (convertFiles [js "/docs/b.md"; js "/docs/a.md"] (js "/out/x.docx")
             mermaid_options test_world)) !! [js "out"; js "x.docx"]
  = Some (File (js "B" ++ separatorMarkdown hr ++ js "A")).
Proof.
  intros P listing files.
  assert (Hdir : fs test_world !! path_resolve (js "/docs") = Some (Dir listing))
    by (vm_compute; reflexivity).
  assert (Hfiles : files = [js "a.md"; js "b.md"; js "c.md"])
    by (vm_compute; reflexivity).
  assert (Hsome : files <> []) by (rewrite Hfiles; discriminate).
  assert (Hne : [js "/docs/b.md"; js "/docs/a.md"] <> []) by discriminate.
  destruct (@C5_separator_between_bodies P)
    as (_ & _ & _ & _ & _ & _ & _ & Hdirectory & Hgiven & _).
  split; [exact Hdir|]. split; [exact Hfiles|].
  split; [exact (Hdirectory (js "/docs") (js "/out/x.docx") mermaid_options
                   test_world listing Hdir Hsome)|].
  split; [exact Hne|].
  split; [exact (Hgiven [js "/docs/b.md"; js "/docs/a.md"] (js "/out/x.docx")
                   mermaid_options Hne)|].
  vm_compute. reflexivity.
Defined.

Lemma C6_precondition_failures_witness :
  let P := test_platform working_mmdc echo_engine in
  convertDirectory (js "/missing") (js "/out/x.docx") unset_options test_world
    = (Err (DirectoryNotFound [js "missing"]), test_world) /\
  convertDirectory (js "/docs/a.md") (js "/out/x.docx") unset_options test_world
    = (Err (NotADirectory [js "docs"; js "a.md"]), test_world) /\
  convertDirectory (js "/empty") (js "/out/x.docx") unset_options test_world
    = (Err (NoEligibleFiles [js "empty"]), test_world) /\
  convertFiles [js "/docs/a.md"; js "/docs/zz.md"; js "/docs/b.md"]
               (js "/out/x.docx") unset_options test_world
    = (Err (InputNotFound [js "docs"; js "zz.md"]), test_world).
Proof.
  intros P.
  assert (H1 : fs test_world !! path_resolve (js "/missing") = None)
    by (vm_compute; reflexivity).
  assert (H2 : fs test_world !! path_resolve (js "/docs/a.md") = Some (File (js "A")))
    by (vm_compute; reflexivity).
  assert (H3 : fs test_world !! path_resolve (js "/empty")
               = Some (Dir [js "readme.txt"]))
    by (vm_compute; reflexivity).
  assert (H3' : List.filter (ends_with (js ".md")) [js "readme.txt"] = [])
    by (vm_compute; reflexivity).
  assert (H4 : Forall (fun p => exists c, fs test_world !! path_resolve p = Some (File c))
                      [js "/docs/a.md"]).
  { constructor; [|constructor]. exists (js "A"). exact H2. }
  assert (H5 : fs test_world !! path_resolve (js "/docs/zz.md") = None)
    by (vm_compute; reflexivity).
  split; [|split; [|split]].
  - exact (proj1 (C6_precondition_failures (js "/missing") (js "/out/x.docx")
                    unset_options test_world) H1).
  - exact (proj1 (proj2 (C6_precondition_failures (js "/docs/a.md") (js "/out/x.docx")
                           unset_options test_world)) (js "A") H2).
  - exact (proj1 (proj2 (proj2 (C6_precondition_failures (js "/empty") (js "/out/x.docx")
                                  unset_options test_world))) [js "readme.txt"] H3 H3').
  - exact (proj2 (proj2 (proj2 (proj2
             (C6_precondition_failures (js "/empty") (js "/out/x.docx")
                unset_options test_world))))
             [js "/docs/a.md"] (js "/docs/zz.md") [js "/docs/b.md"] H4 H5).
Defined.

Lemma C7_no_partial_output_witness :
  let P := test_platform working_mmdc failing_engine in
  let '(r, w') := convertFile (js "/docs/c.md") (js "/out/x.docx")
                              mermaid_options test_world in
  r = Err (RenderEngineFailure (js "boom")) /\
  is_write_failure (RenderEngineFailure (js "boom")) = false /\
  fs w' !! [js "out"; js "x.docx"] = None /\
  fs w' !! [js "out"] = Some (Dir []) /\
  length (spawned w') = 1.
Proof.
  intros P.
  assert (Hfst : fst (convertFile (js "/docs/c.md") (js "/out/x.docx")
                        mermaid_options test_world)
                 = Err (RenderEngineFailure (js "boom")))
    by (vm_compute; reflexivity).
  assert (Hsp : length (spawned (snd (convertFile (js "/docs/c.md") (js "/out/x.docx")
                                        mermaid_options test_world))) = 1)
    by (vm_compute; reflexivity).
  destruct (convertFile (js "/docs/c.md") (js "/out/x.docx")
              mermaid_options test_world) as [r w'] eqn:Hcall.
  cbn [fst snd] in Hfst, Hsp. subst r.
  assert (Hnot : is_write_failure (RenderEngineFailure (js "boom")) = false)
    by reflexivity.
  pose proof (proj1 (proj2 (proj2 (proj2 (proj2 (C7_no_partial_output test_world w')))))
                (js "/docs/c.md") (js "/out/x.docx") mermaid_options
                _ Hcall Hnot) as Hsame.
  split; [reflexivity|]. split; [exact Hnot|].
  split; [|split; [|exact Hsp]].
  - rewrite (Hsame [js "out"; js "x.docx"]); [vm_compute; reflexivity|].
    apply (bool_decide_unpack _). vm_compute. exact I.
  - rewrite (Hsame [js "out"]); [vm_compute; reflexivity|].
    apply (bool_decide_unpack _). vm_compute. exact I.
Defined.

(** A run of a computation on a concrete world: the result is evaluated,
    the final world is named by the run itself. *)
Ltac by_running :=
  lazymatch goal with
  | |- ?c = (?r, _) =>
      let Hres := fresh "Hres" in
      assert (Hres : fst c = r) by (vm_compute; reflexivity);
      exact (eq_trans (surjective_pairing c) (f_equal (fun x => (x, snd c)) Hres))
  end.

(** * Further properties of the converter *)

(** ** The scanner *)

Lemma scan_covers (md : jstring) (fuel base i j : nat) :
  length md - base <= fuel -> base <= i ->
  occurs_at fence_open md i -> occurs_at fence_close md (i + 11 + j) ->
  exists b, b ∈ scan fuel base (drop base md)
            /\ (startIndex b <= Z.of_nat i < endIndex b)%Z.
Proof.
  revert base. induction fuel as [|fuel IH]; intros base Hfuel Hbase Hopen Hclose.
  - apply occurs_at_length in Hopen; rewrite ?fence_open_length in *; lia.
  - cbn [scan].
    destruct (exec_from (drop base md)) as [[[k body] len]|] eqn:He.
    + pose proof (exec_from_bounds _ _ _ _ He) as [Hlen Hle].
      rewrite length_drop in Hle.
      apply exec_from_Some in He as [Hm Hmin].
      destruct (decide (i < base + k + len)) as [Hin|Hout].
      * eexists. split; [apply elem_of_cons; by left|]. cbn.
        destruct (decide (i < base + k)) as [Hbefore|]; [|lia].
        exfalso. specialize (Hmin (i - base) ltac:(lia)).
        rewrite drop_drop in Hmin. replace (base + (i - base)) with i in Hmin by lia.
        apply (match_here_None _ j Hmin).
        -- apply occurs_at_drop. by replace (i + 0) with i by lia.
        -- apply occurs_at_drop. by replace (i + (11 + j)) with (i + 11 + j) by lia.
      * destruct (IH (base + k + len)) as (b & Hb & Hspan); try done; try lia.
        exists b. split; [|done]. apply elem_of_cons. right.
        rewrite drop_drop.
        by replace (base + (k + len)) with (base + k + len) by lia.
    + exfalso. apply (exec_from_None _ (i - base)) in He.
      rewrite drop_drop in He. replace (base + (i - base)) with i in He by lia.
      apply (match_here_None _ j He).
      * apply occurs_at_drop. by replace (i + 0) with i by lia.
      * apply occurs_at_drop. by replace (i + (11 + j)) with (i + 11 + j) by lia.
Qed.

(** X2: no fenced diagram is skipped. Wherever the opening literal stands
    in the text with three backticks somewhere after it, one of the
    scanned blocks covers that index. *)
Theorem scanner_covers_every_fence (md : jstring) (i j : nat) :
  occurs_at fence_open md i -> occurs_at fence_close md (i + 11 + j) ->
  exists b, b ∈ extractMermaidBlocks md
            /\ (startIndex b <= Z.of_nat i < endIndex b)%Z.
Proof.
  intros Hopen Hclose.
  apply (scan_covers md (length md) 0 i j); (done || lia).
Qed.

Lemma scanner_covers_every_fence_witness :
  occurs_at fence_open two_diagrams 44 /\
  occurs_at fence_close two_diagrams (44 + 11 + 16) /\
  exists b, b ∈ extractMermaidBlocks two_diagrams
            /\ (startIndex b <= Z.of_nat 44 < endIndex b)%Z.
Proof.
  assert (H1 : occurs_at fence_open two_diagrams 44) by (vm_compute; reflexivity).
  assert (H2 : occurs_at fence_close two_diagrams (44 + 11 + 16))
    by (vm_compute; reflexivity).
  split; [exact H1|]. split; [exact H2|].
  exact (scanner_covers_every_fence two_diagrams 44 16 H1 H2).
Defined.

Lemma no_fence_no_block (md : jstring) :
  (forall i j, occurs_at fence_open md i -> ~ occurs_at fence_close md (i + 11 + j)) ->
  extractMermaidBlocks md = [].
Proof.
  intros Hnone. destruct (extractMermaidBlocks md) as [|b blocks] eqn:Hscan; [done|].
  assert (Hb : b ∈ extractMermaidBlocks md) by (rewrite Hscan; by left).
  apply (scan_sound md (length md) 0) in Hb as (i & j & _ & Hf).
  destruct Hf as (_ & _ & _ & Hopen & Hclose & _). by destruct (Hnone i j).
Qed.

(** X1: a text in which no opening literal is followed by three backticks
    passes through the rewriter unchanged, and nothing is written,
    spawned or logged; converting it with diagrams enabled is converting
    it with diagrams disabled. *)
Theorem preprocess_without_fences `{Platform} (md : jstring) (w : World) :
  (forall i j, occurs_at fence_open md i -> ~ occurs_at fence_close md (i + 11 + j)) ->
  preprocessMermaid md w = (Ok md, w) /\
  convert md (mkConvertOptions (Some true)) w = convert md (mkConvertOptions None) w.
Proof.
  intros Hnone%no_fence_no_block.
  assert (Hpre : preprocessMermaid md w = (Ok md, w)).
  { unfold preprocessMermaid. by rewrite Hnone. }
  split; [done|]. unfold convert, bind.
  change (default false (enableMermaid (mkConvertOptions (Some true)))) with true.
  change (default false (enableMermaid (mkConvertOptions None))) with false.
  cbv iota. by rewrite Hpre.
Qed.

Lemma trimStart_split (s : jstring) :
  exists pre, s = pre ++ trimStart s /\ forallb is_white_space pre = true
              /\ match trimStart s with
                 | [] => True
                 | c :: _ => is_white_space c = false
                 end.
Proof.
  induction s as [|c s (pre & Hs & Hpre & Hhead)]; [by exists []|].
  cbn [trimStart]. destruct (is_white_space c) eqn:Hc.
  - exists (c :: pre). cbn. rewrite Hc, Hpre. by rewrite <- Hs.
  - by exists [].
Qed.

Lemma forallb_rev_true (p : ascii -> bool) (l : jstring) :
  forallb p l = true -> forallb p (rev l) = true.
Proof.
  rewrite !forallb_forall. intros Hall x Hx. apply Hall. by apply in_rev.
Qed.

Lemma trimEnd_split (s : jstring) :
  exists post, s = trimEnd s ++ post /\ forallb is_white_space post = true
               /\ match last (trimEnd s) with
                  | None => True
                  | Some c => is_white_space c = false
                  end.
Proof.
  unfold trimEnd. destruct (trimStart_split (rev s)) as (pre & Hs & Hpre & Hhead).
  exists (rev pre). split; [|split].
  - rewrite <- rev_app_distr, <- Hs. by rewrite rev_involutive.
  - by apply forallb_rev_true.
  - destruct (trimStart (rev s)) as [|c r]; [done|].
    cbn [rev]. by rewrite last_snoc.
Qed.

Lemma trimEnd_keeps_head (c : ascii) (r : jstring) :
  is_white_space c = false -> exists r', trimEnd (c :: r) = c :: r'.
Proof.
  intros Hc. destruct (trimEnd_split (c :: r)) as (post & Hs & Hpost & _).
  destruct (trimEnd (c :: r)) as [|c' r'] eqn:Ht.
  - cbn in Hs. subst post. cbn in Hpost. by rewrite Hc in Hpost.
  - injection Hs as <- _. by exists r'.
Qed.

Lemma trim_split (s : jstring) :
  exists pre post, s = pre ++ trim s ++ post /\
    match head (trim s) with Some c => is_white_space c = false | None => True end /\
    match last (trim s) with Some c => is_white_space c = false | None => True end.
Proof.
  unfold trim.
  destruct (trimStart_split s) as (pre & Hs & _ & Hhead).
  destruct (trimEnd_split (trimStart s)) as (post & Ht & _ & Hlast).
  exists pre, post. split; [by rewrite <- Ht|]. split; [|done].
  destruct (trimStart s) as [|c r]; [done|].
  destruct (trimEnd_keeps_head c r Hhead) as [r' ->]. done.
Qed.

Lemma occurs_at_middle (p s pre post : jstring) (k : nat) :
  0 < length p -> occurs_at p s k ->
  occurs_at p (pre ++ s ++ post) (length pre + k).
Proof.
  intros Hp Hocc. pose proof (occurs_at_length _ _ _ Hp Hocc) as Hk.
  unfold occurs_at in *.
  rewrite drop_app_ge by lia. replace (length pre + k - length pre) with k by lia.
  rewrite drop_app_le by lia. rewrite take_app_le by (rewrite length_drop; lia).
  done.
Qed.

(** X3: the diagram source the scanner stores for a block, which is what
    the renderer is given, never holds three backticks in a row, neither
    starts nor ends with white space, and is at least fourteen code units
    shorter than the span of the block. *)
Theorem scanned_code_is_clean (md : jstring) (b : MermaidBlock) :
  b ∈ extractMermaidBlocks md ->
  (forall k, ~ occurs_at fence_close (code b) k) /\
  (forall c, head (code b) = Some c -> is_white_space c = false) /\
  (forall c, last (code b) = Some c -> is_white_space c = false) /\
  (Z.of_nat (length (code b)) + 14 <= endIndex b - startIndex b)%Z.
Proof.
  intros Hb. apply (scan_sound md (length md) 0) in Hb as (i & j & _ & Hf).
  destruct Hf as (Hs & He & Hlen & _ & _ & Hmin & Hcode).
  destruct (trim_split (take j (drop (i + 11) md))) as (pre & post & Hbody & Hhead & Hlast).
  rewrite <- Hcode in Hbody, Hhead, Hlast.
  assert (Hsize : length pre + length (code b) + length post = j).
  { apply (f_equal length) in Hbody.
    rewrite length_take, length_drop, !length_app in Hbody. lia. }
  split; [|split; [|split]].
  - intros k Hocc.
    assert (Hk : k + 3 <= length (code b)).
    { apply occurs_at_length in Hocc; rewrite fence_close_length in *; lia. }
    apply (Hmin (length pre + k)); [lia|].
    replace (i + 11 + (length pre + k)) with ((i + 11) + (length pre + k)) by lia.
    apply occurs_at_drop.
    rewrite <- (take_drop j (drop (i + 11) md)), Hbody, <- !app_assoc.
    apply occurs_at_middle; [rewrite fence_close_length; lia | done].
  - intros c Hc. by rewrite Hc in Hhead.
  - intros c Hc. by rewrite Hc in Hlast.
  - lia.
Qed.

Lemma scanned_code_is_clean_witness :
  two_diagrams_first ∈ extractMermaidBlocks two_diagrams /\
  (forall k, ~ occurs_at fence_close (code two_diagrams_first) k) /\
  (Z.of_nat (length (code two_diagrams_first)) + 14
   <= endIndex two_diagrams_first - startIndex two_diagrams_first)%Z.
Proof.
  assert (Hin : two_diagrams_first ∈ extractMermaidBlocks two_diagrams).
  { vm_compute. apply elem_of_cons. left. reflexivity. }
  destruct (scanned_code_is_clean two_diagrams two_diagrams_first Hin)
    as (Hclean & _ & _ & Hlen).
  split; [exact Hin|]. split; [exact Hclean | exact Hlen].
Defined.

Lemma preprocess_without_fences_witness :
  let P := test_platform failing_mmdc echo_engine in
  (forall i j, occurs_at fence_open plain_text i ->
               ~ occurs_at fence_close plain_text (i + 11 + j)) /\
  preprocessMermaid plain_text test_world = (Ok plain_text, test_world).
Proof.
  intros P.
  assert (Hnone : forall i j, occurs_at fence_open plain_text i ->
                              ~ occurs_at fence_close plain_text (i + 11 + j)).
  { intros i j Hopen _. revert Hopen. apply find_None. vm_compute. reflexivity. }
  split; [exact Hnone|].
  exact (proj1 (preprocess_without_fences plain_text test_world Hnone)).
Defined.

(** ** Rendering one diagram *)

Lemma writeFileSync_spawned (p : path) (c : jstring) (w w' : World) (r : result unit) :
  writeFileSync p c w = (r, w') ->
  spawned w' = spawned w /\ console w' = console w.
Proof.
  unfold writeFileSync. destruct (put_file p c (fs w)); by intros [= <- <-].
Qed.

Lemma spawn_effects `{Platform} (inputFile outputFile : path) (w w' : World)
    (r : result ProcEvent) :
  spawn inputFile outputFile w = (r, w') ->
  spawned w' = spawned w ++ [(inputFile, outputFile)] /\ console w' = console w.
Proof.
  unfold spawn. destruct (mmdc _ _) as [msg|exit_code stderr [bytes|]];
    intros [= <- <-]; try done.
  cbn [fs]. by destruct (put_file _ _ (fs w)).
Qed.

Lemma renderMermaidToPng_effects `{Platform} (mermaidCode : jstring) (w w' : World)
    (r : result path) :
  renderMermaidToPng mermaidCode w = (r, w') ->
  console w' = console w /\
  (spawned w' = spawned w \/
   spawned w' = spawned w ++ [(cache_input_file mermaidCode,
                               cache_output_file mermaidCode)]).
Proof.
  unfold renderMermaidToPng, bind, ret, throw. rewrite existsSync_eq.
  destruct (bool_decide _); [by intros [= <- <-]; auto|].
  destruct (writeFileSync _ _ w) as [[u|e] w1] eqn:Hw;
    apply writeFileSync_spawned in Hw as [Hs1 Hc1];
    [|intros [= <- <-]; auto].
  destruct (spawn _ _ w1) as [[[msg|exit_code stderr]|e] w2] eqn:Hs;
    apply spawn_effects in Hs as [Hs2 Hc2]; rewrite Hs1 in Hs2; rewrite Hc1 in Hc2;
    try (intros [= <- <-]; auto).
  destruct (negb (exit_code =? 0)%Z); [intros [= <- <-]; auto|].
  rewrite existsSync_eq. destruct (negb _); intros [= <- <-]; auto.
Qed.

Lemma render_block_effects `{Platform} (b : MermaidBlock) (w w' : World)
    (r : result jstring) :
  render_block b w = (r, w') ->
  console w' = console w /\ length (spawned w') <= S (length (spawned w)).
Proof.
  unfold render_block, bind, ret.
  destruct (renderMermaidToPng (code b) w) as [[p|e] w1] eqn:Hr;
    apply renderMermaidToPng_effects in Hr as [Hc Hs].
  - unfold readFileSync. destruct (fs w1 !! p) as [[c|es]|]; intros [= <- <-];
      (split; [done|]); destruct Hs as [-> | ->]; rewrite ?length_app; cbn; lia.
  - intros [= <- <-]. split; [done|].
    destruct Hs as [-> | ->]; rewrite ?length_app; cbn; lia.
Qed.

Lemma for_blocks_effects `{Platform} (blocks : list MermaidBlock) (st : jstring * Z)
    (w w' : World) (r : result (jstring * Z)) :
  for_blocks blocks st w = (r, w') ->
  length (console w') = length (console w) + failed_count (block_outcomes blocks w) /\
  length (spawned w') <= length (spawned w) + length blocks.
Proof.
  revert st w. induction blocks as [|b blocks IH]; intros st w;
    cbn [for_blocks block_outcomes].
  - intros [= <- <-]. cbn. lia.
  - unfold bind. rewrite rewrite_block_eq.
    destruct (render_block b w) as [[img|e] w1] eqn:Hr;
      apply render_block_effects in Hr as [Hc Hs]; intros Hloop;
      apply IH in Hloop as [IHc IHs].
    + unfold failed_count in *. cbn [List.filter length]. rewrite Hc in IHc.
      split; [exact IHc | lia].
    + unfold failed_count in *. cbn [List.filter length].
      assert (Hl : length (console (console_error e w1).2) = length (console w) + 1)
        by (cbn; rewrite length_app, Hc; reflexivity).
      rewrite Hl in IHc. change (spawned (console_error e w1).2) with (spawned w1) in IHs.
      split; [|lia]. rewrite IHc. set (n := length (List.filter _ _)). lia.
Qed.

(** X4: every failed block is reported. Rewriting logs exactly one error
    line for each block whose rendering threw and none for the others,
    and it spawns the renderer at most once per block. *)
Theorem preprocess_reports_each_failure `{Platform} (md : jstring) (w : World) :
  exists text w',
    preprocessMermaid md w = (Ok text, w') /\
    length (console w')
      = length (console w)
        + failed_count (block_outcomes (extractMermaidBlocks md) w) /\
    length (spawned w') <= length (spawned w) + length (extractMermaidBlocks md).
Proof.
  unfold preprocessMermaid.
  destruct (extractMermaidBlocks md) as [|b0 blocks] eqn:Hscan.
  - exists md, w. cbn. repeat split; lia.
  - cbn [length Nat.eqb]. unfold bind, ret.
    destruct (for_blocks_outcomes (b0 :: blocks) (md, 0%Z) w) as [w' Hloop].
    rewrite Hloop. eexists _, w'. split; [done|].
    by apply for_blocks_effects in Hloop.
Qed.

(** ** The render cache on a miss *)

Lemma path_dirname_join (d : path) (n : jstring) : path_dirname (path_join d n) = d.
Proof. unfold path_dirname, path_join. apply removelast_last. Qed.

Lemma path_basename_join (d : path) (n : jstring) : path_basename (path_join d n) = n.
Proof. unfold path_basename, path_join. apply last_last. Qed.

Lemma path_join_not_dir (d : path) (n : jstring) : path_join d n <> d.
Proof.
  unfold path_join. intros Heq. apply (f_equal length) in Heq.
  rewrite length_app in Heq. cbn in Heq. lia.
Qed.

Lemma cache_files_differ `{Platform} (c c' : jstring) :
  cache_input_file c <> cache_output_file c'.
Proof.
  unfold cache_input_file, cache_output_file, path_join. intros Heq.
  apply app_inv_head in Heq. injection Heq as Heq.
  apply (f_equal (@rev ascii)) in Heq. rewrite !rev_app_distr in Heq.
  cbn in Heq. discriminate.
Qed.

Lemma cache_input_dirname `{Platform} (c : jstring) :
  path_dirname (cache_input_file c) = tempDir.
Proof. apply path_dirname_join. Qed.

Lemma cache_output_dirname `{Platform} (c : jstring) :
  path_dirname (cache_output_file c) = tempDir.
Proof. apply path_dirname_join. Qed.

(** Writing a file below an existing directory succeeds unless the name
    is taken by a directory; the parent stays a directory and no other
    path changes. *)
Lemma put_file_Ok (p : path) (c : jstring) (f : gmap path node) (es : list jstring) :
  f !! path_dirname p = Some (Dir es) ->
  (forall es', f !! p <> Some (Dir es')) ->
  exists f', put_file p c f = Ok f' /\
             f' !! p = Some (File c) /\
             f' !! path_dirname p = Some (Dir (add_entry (path_basename p) es)) /\
             forall q, q <> p -> q <> path_dirname p -> f' !! q = f !! q.
Proof.
  intros Hdir Hp.
  assert (Hne : path_dirname p <> p) by (intros Heq; rewrite Heq in Hdir; by eapply Hp).
  unfold put_file. rewrite Hdir.
  destruct (f !! p) as [[c0|es0]|] eqn:Hlook; [|by destruct (Hp es0)|];
    (eexists; split; [reflexivity|]; split; [by rewrite lookup_insert_eq|]; split;
     [by rewrite lookup_insert_ne, lookup_insert_eq
     |by intros q Hq1 Hq2; rewrite !lookup_insert_ne]).
Qed.

Lemma renderMermaidToPng_miss `{Platform} (mermaidCode : jstring) (w : World)
    (es : list jstring) :
  fs w !! tempDir = Some (Dir es) ->
  fs w !! cache_output_file mermaidCode = None ->
  (forall es', fs w !! cache_input_file mermaidCode <> Some (Dir es')) ->
  let answer := mmdc (length (spawned w)) mermaidCode in
  exists w',
    renderMermaidToPng mermaidCode w = (miss_result mermaidCode answer, w') /\
    spawned w' = spawned w ++ [(cache_input_file mermaidCode,
                                cache_output_file mermaidCode)] /\
    console w' = console w /\
    fs w' !! cache_input_file mermaidCode = Some (File mermaidCode) /\
    fs w' !! cache_output_file mermaidCode = left_behind answer.
Proof.
  intros Hdir Hout Hin answer.
  pose proof (cache_files_differ mermaidCode mermaidCode) as Hdiff.
  destruct (put_file_Ok (cache_input_file mermaidCode) mermaidCode (fs w) es)
    as (f1 & Hput1 & Hf1in & Hf1dir & Hf1);
    [by rewrite cache_input_dirname|done|].
  rewrite cache_input_dirname in Hf1dir.
  assert (Hf1out : f1 !! cache_output_file mermaidCode = None).
  { rewrite Hf1; [done|by apply not_eq_sym|].
    rewrite cache_input_dirname. apply path_join_not_dir. }
  unfold renderMermaidToPng, bind, ret, throw. rewrite existsSync_eq, Hout.
  rewrite bool_decide_eq_false_2 by (by intros [? ?]).
  unfold writeFileSync. rewrite Hput1.
  unfold spawn. cbn [set_fs fs spawned console]. rewrite Hf1in. fold answer.
  destruct answer as [msg|exit_code stderr [png|]]; cbn [miss_result left_behind].
  - eexists. split; [reflexivity|]. by cbn.
  - destruct (put_file_Ok (cache_output_file mermaidCode) png f1
                (add_entry (path_basename (cache_input_file mermaidCode)) es))
      as (f2 & Hput2 & Hf2out & _ & Hf2);
      [by rewrite cache_output_dirname|by rewrite Hf1out|].
    rewrite Hput2.
    assert (Hf2in : f2 !! cache_input_file mermaidCode = Some (File mermaidCode)).
    { rewrite Hf2; [done|done|].
      rewrite cache_output_dirname. apply path_join_not_dir. }
    destruct (exit_code =? 0)%Z; cbn [negb].
    + rewrite existsSync_eq. cbn [set_fs fs]. rewrite Hf2out.
      rewrite bool_decide_eq_true_2 by eauto. cbn [negb].
      eexists. split; [reflexivity|]. by cbn.
    + eexists. split; [reflexivity|]. by cbn.
  - destruct (exit_code =? 0)%Z; cbn [negb].
    + rewrite existsSync_eq. cbn [fs]. rewrite Hf1out.
      rewrite bool_decide_eq_false_2 by (by intros [? ?]). cbn [negb].
      eexists. split; [reflexivity|]. by cbn.
    + eexists. split; [reflexivity|]. by cbn.
Qed.

(** X5: a cache miss. When the scratch directory exists and holds no
    image for the source text, the source is written to the hash-named
    input file, the renderer runs exactly once on that text, and the call
    fails with the spawn error, with the error stream of a non-zero exit,
    with "output file not created" when a zero exit left no file, and
    returns the image path otherwise. *)
Theorem render_on_a_miss `{Platform} (mermaidCode : jstring) (w : World)
    (es : list jstring) :
  fs w !! tempDir = Some (Dir es) ->
  fs w !! cache_output_file mermaidCode = None ->
  (forall es', fs w !! cache_input_file mermaidCode <> Some (Dir es')) ->
  exists w',
    renderMermaidToPng mermaidCode w
    = (match mmdc (length (spawned w)) mermaidCode with
       | SpawnError msg => Err (SpawnFailure msg)
       | Exited exit_code stderr png =>
           if (exit_code =? 0)%Z
           then match png with
                | Some _ => Ok (cache_output_file mermaidCode)
                | None => Err RenderOutputMissing
                end
           else Err (RenderFailure stderr)
       end, w') /\
    spawned w' = spawned w ++ [(cache_input_file mermaidCode,
                                cache_output_file mermaidCode)] /\
    console w' = console w /\
    fs w' !! cache_input_file mermaidCode = Some (File mermaidCode).
Proof.
  intros Hdir Hout Hin.
  destruct (renderMermaidToPng_miss mermaidCode w es Hdir Hout Hin)
    as (w' & Hrun & Hs & Hc & Hi & _).
  exists w'. by rewrite Hrun.
Qed.

Lemma render_on_a_miss_witness :
  let P := test_platform flaky_mmdc echo_engine in
  let c := js "graph TD; A-->B" in
  fs test_world !! tempDir = Some (Dir []) /\
  exists w', renderMermaidToPng c test_world = (Err (RenderFailure (js "Parse error")), w')
             /\ fs w' !! cache_input_file c = Some (File c).
Proof.
  intros P c.
  assert (Hdir : fs test_world !! tempDir = Some (Dir [])) by (vm_compute; reflexivity).
  assert (Hout : fs test_world !! cache_output_file c = None) by (vm_compute; reflexivity).
  assert (Hin : forall es', fs test_world !! cache_input_file c <> Some (Dir es'))
    by (intros es'; vm_compute; discriminate).
  split; [exact Hdir|].
  destruct (render_on_a_miss c test_world [] Hdir Hout Hin) as (w' & Hrun & _ & _ & Hi).
  exists w'. split; [exact Hrun|exact Hi].
Defined.

(** X6: a rejected render can fill the cache. When the renderer exits
    with a non-zero code after writing its output file, the call is
    rejected with the error stream, and from then on the same source
    text is served from that file: the call returns the image path
    without running the renderer, and the block is replaced by the
    encoded bytes the failed run left behind. *)
Theorem rejected_render_fills_cache `{Platform} (b : MermaidBlock) (w : World)
    (es : list jstring) (exit_code : Z) (stderr png : jstring) :
  fs w !! tempDir = Some (Dir es) ->
  fs w !! cache_output_file (code b) = None ->
  (forall es', fs w !! cache_input_file (code b) <> Some (Dir es')) ->
  mmdc (length (spawned w)) (code b) = Exited exit_code stderr (Some png) ->
  exit_code <> 0%Z ->
  exists w',
    renderMermaidToPng (code b) w = (Err (RenderFailure stderr), w') /\
    renderMermaidToPng (code b) w' = (Ok (cache_output_file (code b)), w') /\
    render_block b w' = (Ok (imgMarkdown (base64 png)), w').
Proof.
  intros Hdir Hout Hin Hanswer Hcode.
  destruct (renderMermaidToPng_miss (code b) w es Hdir Hout Hin)
    as (w' & Hrun & _ & _ & _ & Hleft).
  rewrite Hanswer in Hrun, Hleft. cbn [miss_result left_behind] in Hrun, Hleft.
  apply Z.eqb_neq in Hcode. rewrite Hcode in Hrun.
  assert (Hhit : renderMermaidToPng (code b) w' = (Ok (cache_output_file (code b)), w'))
    by (apply renderMermaidToPng_hit; eauto).
  exists w'. split; [done|]. split; [done|].
  unfold render_block, bind. rewrite Hhit. unfold readFileSync. by rewrite Hleft.
Qed.

Lemma rejected_render_fills_cache_witness :
  let P := test_platform careless_mmdc echo_engine in
  let b := mkBlock (js "graph TD; A-->B") 0 29 in
  fs test_world !! tempDir = Some (Dir []) /\
  exists w', renderMermaidToPng (code b) test_world
             = (Err (RenderFailure (js "Deprecated flag")), w')
             /\ render_block b w' = (Ok (imgMarkdown (base64 (js "PNG"))), w').
Proof.
  intros P b.
  assert (Hdir : fs test_world !! tempDir = Some (Dir [])) by (vm_compute; reflexivity).
  assert (Hout : fs test_world !! cache_output_file (code b) = None)
    by (vm_compute; reflexivity).
  assert (Hin : forall es', fs test_world !! cache_input_file (code b) <> Some (Dir es'))
    by (intros es'; vm_compute; discriminate).
  assert (Hanswer : mmdc (length (spawned test_world)) (code b)
                    = Exited 1 (js "Deprecated flag") (Some (js "PNG")))
    by reflexivity.
  assert (Hcode : 1%Z <> 0%Z) by lia.
  split; [exact Hdir|].
  destruct (rejected_render_fills_cache b test_world [] 1 (js "Deprecated flag")
              (js "PNG") Hdir Hout Hin Hanswer Hcode) as (w' & Hrun & _ & Hblock).
  exists w'. split; [exact Hrun|exact Hblock].
Defined.

(** ** Rendering without a scratch directory *)

Lemma renderMermaidToPng_no_scratch `{Platform} (mermaidCode : jstring) (w : World) :
  (forall q, tempDir `prefix_of` q -> fs w !! q = None) ->
  renderMermaidToPng mermaidCode w
  = (Err (FsFailure WriteFile ENOENT (cache_input_file mermaidCode)), w).
Proof.
  intros Hnone.
  assert (Hdir : fs w !! tempDir = None) by (by apply Hnone).
  assert (Hin : fs w !! cache_input_file mermaidCode = None)
    by (apply Hnone; by eexists).
  assert (Hout : fs w !! cache_output_file mermaidCode = None)
    by (apply Hnone; by eexists).
  unfold renderMermaidToPng, bind, ret. rewrite existsSync_eq, Hout.
  rewrite bool_decide_eq_false_2 by (by intros [? ?]).
  unfold writeFileSync, put_file. by rewrite Hin, cache_input_dirname, Hdir.
Qed.

Lemma for_blocks_no_scratch `{Platform} (blocks : list MermaidBlock)
    (st : jstring * Z) (w : World) :
  (forall q, tempDir `prefix_of` q -> fs w !! q = None) ->
  for_blocks blocks st w
  = (Ok st,
     mkWorld (fs w) (spawned w)
       (console w ++ map (fun b => FsFailure WriteFile ENOENT
                                     (cache_input_file (code b))) blocks)).
Proof.
  revert w. induction blocks as [|b blocks IH]; intros w Hnone; cbn [for_blocks map].
  - rewrite app_nil_r. by destruct w.
  - unfold bind. rewrite rewrite_block_eq. unfold render_block, bind.
    rewrite renderMermaidToPng_no_scratch by done.
    cbn [console_error snd]. rewrite IH by done.
    cbn [fs spawned console]. by rewrite <- app_assoc.
Qed.

(** X7: the scratch directory is gone. When nothing exists at or below
    the scratch location (it was removed after the converter was
    constructed), rewriting returns the text as it was, leaves the file
    system alone, never starts the renderer, and logs for each block, in
    order, the failure to write its hash-named input file. *)
Theorem preprocess_without_scratch `{Platform} (md : jstring) (w : World) :
  (forall q, tempDir `prefix_of` q -> fs w !! q = None) ->
  preprocessMermaid md w
  = (Ok md,
     mkWorld (fs w) (spawned w)
       (console w ++ map (fun b => FsFailure WriteFile ENOENT
                                     (cache_input_file (code b)))
                         (extractMermaidBlocks md))).
Proof.
  intros Hnone. unfold preprocessMermaid.
  destruct (extractMermaidBlocks md) as [|b0 blocks] eqn:Hscan.
  - cbn. rewrite app_nil_r. by destruct w.
  - cbn [length Nat.eqb]. unfold bind. by rewrite for_blocks_no_scratch.
Qed.

Lemma preprocess_without_scratch_witness :
  let P := test_platform working_mmdc echo_engine in
  let w := mkWorld (delete tempDir test_fs) [] [] in
  (forall q, tempDir `prefix_of` q -> fs w !! q = None) /\
  preprocessMermaid two_diagrams w
  = (Ok two_diagrams,
     mkWorld (fs w) []
       [FsFailure WriteFile ENOENT (cache_input_file (js "graph TD; A-->B"));
        FsFailure WriteFile ENOENT (cache_input_file (js "graph LR; C-->D"))]).
Proof.
  intros P w.
  assert (Hnone : forall q, tempDir `prefix_of` q -> fs w !! q = None).
  { intros q Hpre. destruct (fs w !! q) as [n|] eqn:Hlook; [|done]. exfalso.
    apply elem_of_map_to_list, list_elem_of_In in Hlook.
    assert (Hall : forallb (fun pn : path * node =>
                              negb (bool_decide (tempDir `prefix_of` pn.1)))
                           (map_to_list (fs w)) = true) by (vm_compute; reflexivity).
    rewrite forallb_forall in Hall. apply Hall in Hlook. cbn [fst] in Hlook.
    rewrite bool_decide_eq_true_2 in Hlook by done. discriminate. }
  split; [exact Hnone|].
  exact (preprocess_without_scratch two_diagrams w Hnone).
Defined.

(** ** Images stay in the cache *)

Lemma put_file_keeps (p q : path) (c : jstring) (f f' : gmap path node) (n : node) :
  put_file p c f = Ok f' -> q <> p -> q <> path_dirname p ->
  f !! q = Some n -> f' !! q = Some n.
Proof. intros Hput Hp Hd Hq. by rewrite (put_file_frame p q c f f'). Qed.

Lemma renderMermaidToPng_keeps `{Platform} (mermaidCode kept : jstring) (png : jstring)
    (w w' : World) (r : result path) :
  fs w !! cache_output_file kept = Some (File png) ->
  renderMermaidToPng mermaidCode w = (r, w') ->
  fs w' !! cache_output_file kept = Some (File png).
Proof.
  intros Hkept. unfold renderMermaidToPng, bind, ret, throw. rewrite existsSync_eq.
  destruct (bool_decide (is_Some (fs w !! cache_output_file mermaidCode))) eqn:Hc;
    [by intros [= <- <-]|].
  apply bool_decide_eq_false in Hc.
  assert (Hother : cache_output_file kept <> cache_output_file mermaidCode).
  { intros Heq. apply Hc. rewrite <- Heq. eauto. }
  assert (Hdir : cache_output_file kept <> tempDir) by apply path_join_not_dir.
  unfold writeFileSync.
  destruct (put_file (cache_input_file mermaidCode) mermaidCode (fs w))
    as [f1|e] eqn:Hput1; [|by intros [= <- <-]].
  assert (Hkept1 : f1 !! cache_output_file kept = Some (File png)).
  { eapply put_file_keeps; [exact Hput1| |by rewrite cache_input_dirname|done].
    apply not_eq_sym, cache_files_differ. }
  unfold spawn. cbn [set_fs fs spawned console].
  destruct (mmdc _ _) as [msg|exit_code stderr [bytes|]].
  - by intros [= <- <-].
  - destruct (put_file (cache_output_file mermaidCode) bytes f1) as [f2|e] eqn:Hput2.
    + assert (Hkept2 : f2 !! cache_output_file kept = Some (File png)).
      { eapply put_file_keeps; [exact Hput2|done|by rewrite cache_output_dirname|done]. }
      destruct (negb (exit_code =? 0)%Z); [by intros [= <- <-]|].
      rewrite existsSync_eq. by destruct (negb _); intros [= <- <-].
    + destruct (negb (exit_code =? 0)%Z); [by intros [= <- <-]|].
      rewrite existsSync_eq. by destruct (negb _); intros [= <- <-].
  - destruct (negb (exit_code =? 0)%Z); [by intros [= <- <-]|].
    rewrite existsSync_eq. by destruct (negb _); intros [= <- <-].
Qed.

Lemma readFileSync_pure (p : path) (w w' : World) (r : result jstring) :
  readFileSync p w = (r, w') -> w' = w.
Proof. unfold readFileSync. by destruct (fs w !! p) as [[c|es]|]; intros [= <- <-]. Qed.

Lemma render_block_keeps `{Platform} (b : MermaidBlock) (kept png : jstring)
    (w w' : World) (r : result jstring) :
  fs w !! cache_output_file kept = Some (File png) ->
  render_block b w = (r, w') ->
  fs w' !! cache_output_file kept = Some (File png).
Proof.
  intros Hkept. unfold render_block, bind, ret.
  destruct (renderMermaidToPng (code b) w) as [[p|e] w1] eqn:Hr;
    apply (renderMermaidToPng_keeps _ kept png) in Hr; try done.
  - destruct (readFileSync p w1) as [[c|e] w2] eqn:Hread;
      apply readFileSync_pure in Hread as ->; by intros [= <- <-].
  - by intros [= <- <-].
Qed.

Lemma for_blocks_keeps `{Platform} (blocks : list MermaidBlock) (kept png : jstring)
    (st : jstring * Z) (w w' : World) (r : result (jstring * Z)) :
  fs w !! cache_output_file kept = Some (File png) ->
  for_blocks blocks st w = (r, w') ->
  fs w' !! cache_output_file kept = Some (File png).
Proof.
  revert st w. induction blocks as [|b blocks IH]; intros st w Hkept;
    cbn [for_blocks].
  - by intros [= <- <-].
  - unfold bind. rewrite rewrite_block_eq.
    destruct (render_block b w) as [[img|e] w1] eqn:Hr;
      apply (render_block_keeps _ kept png) in Hr; try done; by apply IH.
Qed.

Lemma render_block_Ok `{Platform} (b : MermaidBlock) (img : jstring) (w w' : World) :
  render_block b w = (Ok img, w') ->
  exists png, fs w' !! cache_output_file (code b) = Some (File png) /\
              img = imgMarkdown (base64 png).
Proof.
  unfold render_block, bind, ret.
  destruct (renderMermaidToPng (code b) w) as [[p|e] w1] eqn:Hr; [|done].
  apply renderMermaidToPng_Ok in Hr as (-> & _ & _).
  unfold readFileSync.
  destruct (fs w1 !! cache_output_file (code b)) as [[c|es]|] eqn:Hlook; [|done..].
  intros [= <- <-]. by exists c.
Qed.

Lemma render_block_cached `{Platform} (b : MermaidBlock) (png : jstring) (w : World) :
  fs w !! cache_output_file (code b) = Some (File png) ->
  render_block b w = (Ok (imgMarkdown (base64 png)), w).
Proof.
  intros Hkept. unfold render_block, bind, ret.
  rewrite renderMermaidToPng_hit by eauto. unfold readFileSync. by rewrite Hkept.
Qed.

(** X8: a rendered diagram is served from the cache for the rest of the
    run. Once a block has been replaced by its image, every block whose
    source has the same digest (the same source in particular) met
    later, in the rest of the document or in a document rewritten
    afterwards, gets the same replacement text and neither starts the
    renderer nor changes anything: the cache knows a diagram by its
    digest only. *)
Theorem rendered_once_served_later `{Platform} (b b' : MermaidBlock)
    (blocks : list MermaidBlock) (later : jstring) (st : jstring * Z)
    (w w1 w2 w3 : World) (img : jstring) (r2 : result (jstring * Z))
    (r3 : result jstring) :
  render_block b w = (Ok img, w1) ->
  for_blocks blocks st w1 = (r2, w2) ->
  preprocessMermaid later w2 = (r3, w3) ->
  cache_key (code b') = cache_key (code b) ->
  render_block b' w1 = (Ok img, w1) /\
  render_block b' w2 = (Ok img, w2) /\
  render_block b' w3 = (Ok img, w3).
Proof.
  intros Hfirst Hrest Hlater Hcode.
  apply render_block_Ok in Hfirst as (png & Hkept1 & ->).
  assert (Hkept2 : fs w2 !! cache_output_file (code b) = Some (File png))
    by (by eapply for_blocks_keeps).
  assert (Hkept3 : fs w3 !! cache_output_file (code b) = Some (File png)).
  { revert Hlater. unfold preprocessMermaid.
    destruct (length (extractMermaidBlocks later) =? 0); [by intros [= <- <-]|].
    unfold bind, ret.
    destruct (for_blocks _ _ w2) as [[st'|e] w'] eqn:Hloop;
      apply (for_blocks_keeps _ (code b) png) in Hloop; try done;
      by intros [= <- <-]. }
  assert (Hsame : cache_output_file (code b') = cache_output_file (code b))
    by (unfold cache_output_file; by rewrite Hcode).
  rewrite <- Hsame in Hkept1, Hkept2, Hkept3.
  by rewrite (render_block_cached b' png w1), (render_block_cached b' png w2),
    (render_block_cached b' png w3).
Qed.

Lemma rendered_once_served_later_witness :
  let P := test_platform flaky_mmdc echo_engine in
  let w := snd (render_block two_diagrams_first test_world) in
  let w1 := snd (render_block two_diagrams_second w) in
  let w2 := snd (for_blocks [two_diagrams_first] (two_diagrams, 0%Z) w1) in
  let w3 := snd (preprocessMermaid other_document w2) in
  render_block two_diagrams_second w = (Ok png_reference, w1) /\
  length (spawned w1) = 2 /\
  render_block (mkBlock (js "graph LR; C-->D") 0 29) w3 = (Ok png_reference, w3).
Proof.
  intros P w w1 w2 w3.
  assert (Hfirst : render_block two_diagrams_second w = (Ok png_reference, w1))
    by by_running.
  assert (Hrest : for_blocks [two_diagrams_first] (two_diagrams, 0%Z) w1
                  = (fst (for_blocks [two_diagrams_first] (two_diagrams, 0%Z) w1), w2))
    by apply surjective_pairing.
  assert (Hlater : preprocessMermaid other_document w2
                   = (fst (preprocessMermaid other_document w2), w3))
    by apply surjective_pairing.
  assert (Hcode : cache_key (code (mkBlock (js "graph LR; C-->D") 0 29))
                  = cache_key (code two_diagrams_second))
    by reflexivity.
  split; [exact Hfirst|]. split; [vm_compute; reflexivity|].
  exact (proj2 (proj2 (rendered_once_served_later two_diagrams_second
                         (mkBlock (js "graph LR; C-->D") 0 29) [two_diagrams_first]
                         other_document (two_diagrams, 0%Z) w w1 w2 w3 png_reference
                         _ _ Hfirst Hrest Hlater Hcode))).
Defined.

(** ** What the file-producing entry points write *)

Lemma read_directory_files_Ok `{Platform} (dir : path) (files contents : list jstring)
    (w w' : World) :
  read_directory_files dir files w = (Ok contents, w') ->
  w' = w /\
  Forall2 (fun file content => fs w !! path_join dir file = Some (File content))
          files contents.
Proof.
  revert contents w'. induction files as [|f files IH]; intros contents w';
    cbn [read_directory_files].
  - intros [= <- <-]. split; [done|constructor].
  - unfold bind, ret, readFileSync.
    destruct (fs w !! path_join dir f) as [[c|es]|] eqn:Hlook; try done.
    destruct (read_directory_files dir files w) as [[cs|e] w1]; [|done].
    intros [= <- <-]. destruct (IH _ _ eq_refl) as [-> Hall].
    split; [done|]. by constructor.
Qed.

Lemma read_input_files_Ok `{Platform} (inputPaths contents : list jstring)
    (w w' : World) :
  read_input_files inputPaths w = (Ok contents, w') ->
  w' = w /\
  Forall2 (fun inputPath content =>
             fs w !! path_resolve inputPath = Some (File content))
          inputPaths contents.
Proof.
  revert contents w'. induction inputPaths as [|p inputPaths IH]; intros contents w';
    cbn [read_input_files].
  - intros [= <- <-]. split; [done|constructor].
  - unfold bind, ret, throw. rewrite existsSync_eq.
    destruct (bool_decide _); cbn [negb]; [|done]. unfold readFileSync.
    destruct (fs w !! path_resolve p) as [[c|es]|] eqn:Hlook; try done.
    destruct (read_input_files inputPaths w) as [[cs|e] w1]; [|done].
    intros [= <- <-]. destruct (IH _ _ eq_refl) as [-> Hall].
    split; [done|]. by constructor.
Qed.

Lemma convert_then_write_Ok `{Platform} (md : jstring) (options : ConvertOptions)
    (p : path) (w w' : World) :
  (let* buffer := convert md options in write_output p buffer) w = (Ok tt, w') ->
  exists buffer w1, convert md options w = (Ok buffer, w1) /\
                    fs w' !! p = Some (File buffer).
Proof.
  unfold bind at 1.
  destruct (convert md options w) as [[buffer|e] w1] eqn:Hconv; [|done].
  intros Hwrite. exists buffer, w1. split; [done|].
  by apply write_output_done in Hwrite.
Qed.

(** X9: merging a single file is converting it. For every path, output
    path, sort function and separator, [convertFiles] called with the
    one-element list behaves exactly as [convertFile]: the same result,
    the same error when the file is missing, the same final state. *)
Theorem single_file_merge_is_conversion `{Platform} (inputPath outputPath : jstring)
    (options : MergeOptions) (w : World) :
  convertFiles [inputPath] outputPath options w
  = convertFile inputPath outputPath options w.
Proof.
  unfold convertFiles, convertFile. cbn [length Nat.eqb read_input_files].
  unfold bind, throw, ret. rewrite existsSync_eq.
  destruct (bool_decide _); cbn [negb]; [|done].
  by destruct (readFileSync (path_resolve inputPath) w) as [[c|e] w1].
Qed.



(** X11: what a successful merge of a list of files wrote. When
    [convertFiles] returns normally, every given path is a readable file
    and the output path holds the buffer that [convert] made from their
    contents in the order given, repeated paths included, joined with
    the separator. *)
Theorem file_merge_output `{Platform} (inputPaths : list jstring) (outputPath : jstring)
    (options : MergeOptions) (w w' : World) :
  convertFiles inputPaths outputPath options w = (Ok tt, w') ->
  exists contents buffer w1,
    inputPaths <> [] /\
    Forall2 (fun inputPath content =>
               fs w !! path_resolve inputPath = Some (File content))
            inputPaths contents /\
    convert (join (separatorMarkdown (default pagebreak (separator options)))
                  contents) options w = (Ok buffer, w1) /\
    fs w' !! path_resolve outputPath = Some (File buffer).
Proof.
  unfold convertFiles.
  destruct inputPaths as [|p0 inputPaths]; [done|]. cbn [length Nat.eqb].
  unfold bind at 1.
  destruct (read_input_files (p0 :: inputPaths) w) as [[contents|e] w0] eqn:Hread;
    [|done].
  apply read_input_files_Ok in Hread as [-> Hall].
  intros Hrest.
  apply (convert_then_write_Ok _ options (path_resolve outputPath)) in Hrest
    as (buffer & w1 & Hconv & Hout).
  by exists contents, buffer, w1.
Qed.

Lemma file_merge_output_witness :
  let P := test_platform working_mmdc echo_engine in
  let inputs := [js "/docs/b.md"; js "/docs/a.md"; js "/docs/b.md"] in
  let w' := snd (convertFiles inputs (js "/new/dir/all.docx") mermaid_options
                   test_world) in
  convertFiles inputs (js "/new/dir/all.docx") mermaid_options test_world
  = (Ok tt, w') /\
  exists contents buffer,
    Forall2 (fun inputPath content =>
               fs test_world !! path_resolve inputPath = Some (File content))
            inputs contents /\
    fs w' !! path_resolve (js "/new/dir/all.docx") = Some (File buffer).
Proof.
  intros P inputs w'.
  assert (Hrun : convertFiles inputs (js "/new/dir/all.docx") mermaid_options
                   test_world = (Ok tt, w')) by by_running.
  split; [exact Hrun|].
  destruct (file_merge_output _ _ _ _ _ Hrun)
    as (contents & buffer & w1 & _ & Hall & _ & Hout).
  exists contents, buffer. split; [exact Hall|exact Hout].
Defined.

(** ** A name that ends in ".md" but is not a readable file *)

Lemma read_directory_files_unreadable `{Platform} (dir : path) (files : list jstring)
    (d : jstring) (w : World) :
  d ∈ files ->
  (forall c, fs w !! path_join dir d <> Some (File c)) ->
  exists e file,
    file ∈ files /\
    read_directory_files dir files w
    = (Err (FsFailure ReadFile e (path_join dir file)), w).
Proof.
  intros Hin Hbad. induction files as [|f files IH]; [by apply elem_of_nil in Hin|].
  cbn [read_directory_files]. unfold bind, readFileSync.
  destruct (fs w !! path_join dir f) as [[c|es]|] eqn:Hlook.
  - apply elem_of_cons in Hin as [-> | Hin]; [by destruct (Hbad c)|].
    destruct (IH Hin) as (e & file & Hfile & ->).
    exists e, file. split; [by apply elem_of_cons; right|done].
  - exists EISDIR, f. split; [by apply elem_of_cons; left|done].
  - exists ENOENT, f. split; [by apply elem_of_cons; left|done].
Qed.

(** X12: a directory entry whose name ends in ".md" but that is not a
    readable file (a subdirectory, say) makes the whole merge fail with
    the read error of such an entry, before anything is converted or
    written: the selection looks at names only. *)
Theorem unreadable_markdown_entry_stops_merge `{Platform}
    (inputDir outputPath : jstring) (options : MergeOptions) (w : World)
    (names : list jstring) (d : jstring) :
  fs w !! path_resolve inputDir = Some (Dir names) ->
  d ∈ names ->
  ends_with (js ".md") d = true ->
  (forall c, fs w !! path_join (path_resolve inputDir) d <> Some (File c)) ->
  exists e file,
    file ∈ names /\ ends_with (js ".md") file = true /\
    convertDirectory inputDir outputPath options w
    = (Err (FsFailure ReadFile e (path_join (path_resolve inputDir) file)), w).
Proof.
  intros Hdir Hin Hmd Hbad.
  set (files := sort_by (default naturalSort (sortFn options))
                        (List.filter (ends_with (js ".md")) names)).
  assert (Hsel : forall x, x ∈ files <-> x ∈ names /\ ends_with (js ".md") x = true).
  { intros x. unfold files. rewrite (sort_by_perm _ _).
    rewrite !list_elem_of_In. apply filter_In. }
  assert (Hd : d ∈ files) by (by apply Hsel).
  destruct (read_directory_files_unreadable (path_resolve inputDir) files d w Hd Hbad)
    as (e & file & Hfile & Hread).
  exists e, file. apply Hsel in Hfile as [Hfile1 Hfile2]. split; [done|]. split; [done|].
  unfold convertDirectory. unfold bind at 1. rewrite existsSync_eq, Hdir.
  rewrite bool_decide_eq_true_2 by eauto. cbn [negb].
  unfold bind at 1. unfold is_directory. rewrite Hdir. cbn [negb].
  unfold bind at 1. unfold readdirSync. rewrite Hdir. fold files.
  destruct files as [|f0 files0] eqn:Hfiles; [by apply elem_of_nil in Hd|].
  cbn [length Nat.eqb]. unfold bind at 1. by rewrite Hread.
Qed.

Lemma unreadable_markdown_entry_stops_merge_witness :
  let P := test_platform working_mmdc echo_engine in
  let w := mkWorld fs_with_markdown_directory [] [] in
  fs w !! path_resolve (js "/docs")
  = Some (Dir [js "b.md"; js "a.md"; js "notes.txt"; js "c.md"]) /\
  exists e file,
    convertDirectory (js "/docs") (js "/out/all.docx") unset_options w
    = (Err (FsFailure ReadFile e (path_join (path_resolve (js "/docs")) file)), w).
Proof.
  intros P w.
  assert (Hdir : fs w !! path_resolve (js "/docs")
                 = Some (Dir [js "b.md"; js "a.md"; js "notes.txt"; js "c.md"]))
    by (vm_compute; reflexivity).
  assert (Hin : js "c.md" ∈ [js "b.md"; js "a.md"; js "notes.txt"; js "c.md"])
    by (apply list_elem_of_In; simpl; auto).
  assert (Hmd : ends_with (js ".md") (js "c.md") = true) by reflexivity.
  assert (Hbad : forall c, fs w !! path_join (path_resolve (js "/docs")) (js "c.md")
                           <> Some (File c))
    by (intros c; vm_compute; discriminate).
  split; [exact Hdir|].
  destruct (unreadable_markdown_entry_stops_merge (js "/docs") (js "/out/all.docx")
              unset_options w _ (js "c.md") Hdir Hin Hmd Hbad)
    as (e & file & _ & _ & Hrun).
  exists e, file. exact Hrun.
Defined.

(** ** Constructing the converter *)

Lemma make_dirs_creates (f f' : gmap path node) (pre : path) (segs : list jstring) :
  segs <> [] -> f !! (pre ++ segs) = None ->
  make_dirs f pre segs = Ok f' -> f' !! (pre ++ segs) = Some (Dir []).
Proof.
  revert f pre. induction segs as [|s segs IH]; intros f pre Hne Hnone; [done|].
  cbn [make_dirs]. destruct segs as [|s' segs].
  - rewrite Hnone. cbn [make_dirs]. intros [= <-]. by rewrite lookup_insert_eq.
  - replace (pre ++ s :: s' :: segs) with ((pre ++ [s]) ++ s' :: segs) in *
      by (by rewrite <- app_assoc).
    assert (Hlonger : forall q, length q <= length (pre ++ [s]) ->
                                q <> (pre ++ [s]) ++ s' :: segs).
    { intros q Hq ->. rewrite !length_app in Hq. cbn in Hq. lia. }
    destruct (f !! (pre ++ [s])) as [[c|es]|] eqn:Hq; [done| |].
    + by apply IH.
    + apply IH; [done|]. rewrite lookup_insert_ne by (apply Hlonger; lia).
      destruct (f !! pre) as [[c|es]|]; [done| |done].
      rewrite lookup_insert_ne; [done|]. apply Hlonger. rewrite length_app. lia.
Qed.

Lemma make_dirs_through_file (f : gmap path node) (pre : path) (segs : list jstring)
    (k : nat) (c : jstring) :
  0 < k < length segs ->
  f !! (pre ++ take k segs) = Some (File c) ->
  make_dirs f pre segs = Err (FsFailure Mkdir ENOTDIR (pre ++ segs)).
Proof.
  revert f pre k. induction segs as [|s segs IH]; intros f pre k Hk Hfile;
    [cbn in Hk; lia|].
  cbn [length] in Hk. cbn [make_dirs].
  replace (pre ++ s :: segs) with ((pre ++ [s]) ++ segs) by (by rewrite <- app_assoc).
  destruct k as [|[|k]]; [lia| |].
  - rewrite firstn_cons, take_0 in Hfile. rewrite Hfile.
    destruct segs; [cbn in Hk; lia|done].
  - rewrite firstn_cons in Hfile.
    replace (pre ++ s :: take (S k) segs) with ((pre ++ [s]) ++ take (S k) segs)
      in Hfile by (by rewrite <- app_assoc).
    assert (Hlonger : forall q, length q <= length (pre ++ [s]) ->
                                q <> (pre ++ [s]) ++ take (S k) segs).
    { intros q Hq ->. rewrite !length_app, length_take in Hq. lia. }
    destruct (f !! (pre ++ [s])) as [[c0|es]|] eqn:Hq.
    + destruct segs; [cbn in Hk; lia|done].
    + apply (IH _ _ (S k)); [lia|done].
    + apply (IH _ _ (S k)); [lia|].
      rewrite lookup_insert_ne by (apply Hlonger; lia).
      destruct (f !! pre) as [[c0|es]|]; [done| |done].
      rewrite lookup_insert_ne; [done|]. apply Hlonger. rewrite length_app. lia.
Qed.

Lemma constructor_again `{Platform} (w : World) :
  is_Some (fs w !! tempDir) -> constructor w = (Ok tt, w).
Proof.
  intros Hthere. unfold constructor, bind, ret. rewrite existsSync_eq.
  by rewrite bool_decide_eq_true_2.
Qed.

Lemma tempDir_not_root `{Platform} : tempDir <> [].
Proof.
  unfold tempDir, path_join. intros Heq. apply (f_equal length) in Heq.
  rewrite length_app in Heq. cbn in Heq. lia.
Qed.

(** X13: constructing the converter. A successful construction leaves a
    scratch location that exists: when something was there already
    nothing changes at all, and when nothing was there an empty scratch
    directory is created; constructing again changes nothing. When an
    ancestor of the missing scratch directory is a regular file, the
    construction fails with ENOTDIR from mkdir, the exception names the
    scratch directory, and nothing changes. The renderer is never
    started and nothing is logged. *)
Theorem constructor_prepares_scratch `{Platform} (w w' : World) (r : result unit) :
  constructor w = (r, w') ->
  spawned w' = spawned w /\ console w' = console w /\
  (is_Some (fs w !! tempDir) -> r = Ok tt /\ w' = w) /\
  (r = Ok tt ->
   is_Some (fs w' !! tempDir) /\
   (fs w !! tempDir = None -> fs w' !! tempDir = Some (Dir [])) /\
   constructor w' = (Ok tt, w')) /\
  (forall k c,
     0 < k < length tempDir -> fs w !! take k tempDir = Some (File c) ->
     fs w !! tempDir = None ->
     r = Err (FsFailure Mkdir ENOTDIR tempDir) /\ w' = w).
Proof.
  destruct (decide (is_Some (fs w !! tempDir))) as [Hthere|Hthere].
  - rewrite constructor_again by done. intros [= <- <-].
    split; [done|]. split; [done|]. split; [done|]. split.
    + intros _. split; [done|]. split; [|by apply constructor_again].
      intros Hnone. rewrite Hnone in Hthere. by destruct Hthere.
    + intros k c _ _ Hnone. rewrite Hnone in Hthere. by destruct Hthere.
  - assert (Hnone : fs w !! tempDir = None).
    { destruct (fs w !! tempDir) eqn:Hl; [|done]. destruct Hthere. eauto. }
    unfold constructor, bind, ret. rewrite existsSync_eq.
    rewrite bool_decide_eq_false_2 by done. cbn [negb].
    unfold mkdirSync_recursive.
    destruct (make_dirs (fs w) [] tempDir) as [f|e] eqn:Hmk; intros [= <- <-].
    + assert (Hnew := Hmk).
      apply (make_dirs_creates _ _ [] tempDir) in Hnew;
        [|apply tempDir_not_root|done].
      cbn [app] in Hnew.
      assert (Hnow : is_Some (fs (set_fs f w) !! tempDir)) by (cbn; eauto).
      split; [done|]. split; [done|]. split; [by intros Hsome|].
      split.
      * intros _. split; [done|]. split; [done|]. by apply constructor_again.
      * intros k c Hk Hfile _.
        rewrite (make_dirs_through_file (fs w) [] tempDir k c Hk Hfile) in Hmk.
        discriminate.
    + split; [done|]. split; [done|]. split; [by intros Hsome|].
      split; [done|]. intros k c Hk Hfile _.
      rewrite (make_dirs_through_file (fs w) [] tempDir k c Hk Hfile) in Hmk.
      by injection Hmk as <-.
Qed.

Lemma constructor_prepares_scratch_witness :
  let P := test_platform working_mmdc echo_engine in
  let w := mkWorld fs_before_construction [] [] in
  let w' := snd (constructor w) in
  let blocked := mkWorld fs_with_file_for_tmp [] [] in
  constructor w = (Ok tt, w') /\
  fs w' !! tempDir = Some (Dir []) /\
  constructor w' = (Ok tt, w') /\
  fs blocked !! take 1 tempDir = Some (File (js "not a directory")) /\
  fst (constructor blocked) = Err (FsFailure Mkdir ENOTDIR tempDir) /\
  snd (constructor blocked) = blocked.
Proof.
  intros P w w' blocked.
  assert (Hrun : constructor w = (Ok tt, w')) by by_running.
  assert (Hnone : fs w !! tempDir = None) by (vm_compute; reflexivity).
  destruct (constructor_prepares_scratch w w' (Ok tt) Hrun)
    as (_ & _ & _ & Hok & _).
  destruct (Hok eq_refl) as (_ & Hnew & Hagain).
  split; [exact Hrun|]. split; [exact (Hnew Hnone)|]. split; [exact Hagain|].
  assert (Hk : 0 < 1 < length tempDir) by (vm_compute; lia).
  assert (Hfile : fs blocked !! take 1 tempDir = Some (File (js "not a directory")))
    by (vm_compute; reflexivity).
  assert (Hmissing : fs blocked !! tempDir = None) by (vm_compute; reflexivity).
  split; [exact Hfile|].
  exact (proj2 (proj2 (proj2 (proj2
           (constructor_prepares_scratch blocked (snd (constructor blocked))
              (fst (constructor blocked)) (surjective_pairing _)))))
           1 (js "not a directory") Hk Hfile Hmissing).
Defined.

(** ** Automatic detection of diagrams *)

Lemma containsMermaid_fences (content : jstring) :
  containsMermaid content = true <->
  exists i j, occurs_at fence_open content i /\
              occurs_at fence_close content (i + 11 + j).
Proof.
  unfold containsMermaid. split.
  - destruct (exec_from content) as [[[i body] len]|] eqn:Hexec; [|done].
    intros _. apply exec_from_Some in Hexec as [Hhere _].
    apply match_here_Some in Hhere as (j & Hopen & Hclose & _).
    exists i, j. split.
    + apply (proj1 (occurs_at_drop _ _ _ _)) in Hopen.
      by rewrite Nat.add_0_r in Hopen.
    + apply (proj1 (occurs_at_drop _ _ _ _)) in Hclose.
      by rewrite Nat.add_assoc in Hclose.
  - intros (i & j & Hopen & Hclose).
    destruct (exec_from content) as [m|] eqn:Hexec; [done|].
    exfalso. apply (exec_from_None _ i) in Hexec.
    apply (match_here_None _ j) in Hexec.
    + apply Hexec. apply (proj2 (occurs_at_drop _ _ _ _)). by rewrite Nat.add_assoc.
    + apply (proj2 (occurs_at_drop _ _ _ _)). by rewrite Nat.add_0_r.
Qed.

Lemma containsMermaid_blocks (content : jstring) :
  containsMermaid content = true <-> extractMermaidBlocks content <> [].
Proof.
  rewrite containsMermaid_fences. split.
  - intros (i & j & Hopen & Hclose). by eapply scan_complete.
  - intros Hne. destruct (extractMermaidBlocks content) as [|b blocks] eqn:Hscan; [done|].
    assert (Hb : b ∈ scan (length content) 0 (drop 0 content)).
    { rewrite drop_0. fold (extractMermaidBlocks content). rewrite Hscan.
      apply elem_of_cons. by left. }
    apply scan_sound in Hb as (i & j & _ & Hf).
    destruct Hf as (_ & _ & _ & Hopen & Hclose & _). by exists i, j.
Qed.

Lemma convert_without_blocks `{Platform} (content : jstring) (b : bool) (w : World) :
  containsMermaid content = false ->
  convert content (mkConvertOptions (Some b)) w
  = convert content (mkConvertOptions (Some true)) w.
Proof.
  intros Hnone.
  assert (Hscan : extractMermaidBlocks content = []).
  { destruct (extractMermaidBlocks content) as [|b0 blocks] eqn:Hscan; [done|].
    assert (Hyes : containsMermaid content = true)
      by (apply containsMermaid_blocks; by rewrite Hscan).
    by rewrite Hyes in Hnone. }
  unfold convert, bind. cbn [enableMermaid default].
  unfold preprocessMermaid. rewrite Hscan. cbn [length Nat.eqb]. by destruct b.
Qed.

(** X14: automatic detection for a single file is exact. For a regular
    file, [detectMermaid] reads it without changing anything and answers
    whether the scanner of the converter finds a block in it; hence
    converting the file with the detected setting gives the same result
    and the same final state as converting it with diagrams enabled. *)
Theorem detection_is_exact_for_a_file `{Platform} (inputPath outputPath : jstring)
    (content : jstring) (w : World) :
  fs w !! path_resolve inputPath = Some (File content) ->
  detectMermaid inputPath w = (Ok (containsMermaid content), w) /\
  (containsMermaid content = true <-> extractMermaidBlocks content <> []) /\
  convertFile inputPath outputPath
              (mkConvertOptions (Some (containsMermaid content))) w
  = convertFile inputPath outputPath (mkConvertOptions (Some true)) w.
Proof.
  intros Hfile. split; [|split].
  - unfold detectMermaid, bind, is_directory, readFileSync, ret. by rewrite !Hfile.
  - apply containsMermaid_blocks.
  - destruct (containsMermaid content) eqn:Hdetect; [done|].
    unfold convertFile, bind, throw. rewrite existsSync_eq, Hfile.
    rewrite bool_decide_eq_true_2 by eauto. cbn [negb].
    unfold readFileSync. rewrite Hfile.
    by rewrite (convert_without_blocks content false w Hdetect).
Qed.

Lemma detection_is_exact_for_a_file_witness :
  let P := test_platform working_mmdc echo_engine in
  fs test_world !! path_resolve (js "/docs/a.md") = Some (File (js "A")) /\
  detectMermaid (js "/docs/a.md") test_world = (Ok false, test_world) /\
  convertFile (js "/docs/a.md") (js "/out/a.docx") (mkConvertOptions (Some false))
              test_world
  = convertFile (js "/docs/a.md") (js "/out/a.docx") (mkConvertOptions (Some true))
                test_world.
Proof.
  intros P.
  assert (Hfile : fs test_world !! path_resolve (js "/docs/a.md") = Some (File (js "A")))
    by (vm_compute; reflexivity).
  split; [exact Hfile|].
  destruct (detection_is_exact_for_a_file (js "/docs/a.md") (js "/out/a.docx")
              (js "A") test_world Hfile) as (Hdetect & _ & Hsame).
  split; [exact Hdetect|exact Hsame].
Defined.

(** ** Detection in a directory and the merged text *)

Lemma join_holds (sep c : jstring) (contents : list jstring) :
  c ∈ contents -> exists l r, join sep contents = l ++ c ++ r.
Proof.
  induction contents as [|c0 contents IH]; intros Hin; [by apply elem_of_nil in Hin|].
  apply elem_of_cons in Hin as [-> | Hin].
  - exists [], (flat_map (app sep) contents). by rewrite join_cons.
  - destruct (IH Hin) as (l & r & Heq).
    destruct contents as [|c1 contents]; [by apply elem_of_nil in Hin|].
    change (join sep (c0 :: c1 :: contents))
      with (c0 ++ sep ++ join sep (c1 :: contents)).
    rewrite Heq. exists (c0 ++ sep ++ l), r. by rewrite <- !app_assoc.
Qed.

Lemma containsMermaid_inside (l c r : jstring) :
  containsMermaid c = true -> containsMermaid (l ++ c ++ r) = true.
Proof.
  rewrite !containsMermaid_fences. intros (i & j & Hopen & Hclose).
  exists (length l + i), j. split.
  - apply occurs_at_middle; [rewrite fence_open_length; lia|done].
  - rewrite <- !Nat.add_assoc.
    apply occurs_at_middle; [rewrite fence_close_length; lia|].
    by rewrite !Nat.add_assoc.
Qed.

Lemma some_contains_true (dir : path) (files : list jstring) (w w' : World) :
  some_contains dir files w = (Ok true, w') ->
  exists file content,
    file ∈ files /\ fs w !! path_join dir file = Some (File content) /\
    containsMermaid content = true.
Proof.
  induction files as [|f files IH]; cbn [some_contains]; [done|].
  unfold bind, readFileSync.
  destruct (fs w !! path_join dir f) as [[c|es]|] eqn:Hlook; try done.
  destruct (containsMermaid c) eqn:Hc.
  - intros _. exists f, c. split; [by apply elem_of_cons; left|done].
  - intros Hrest. destruct (IH Hrest) as (file & content & Hin & Hfile & Hyes).
    exists file, content. split; [by apply elem_of_cons; right|done].
Qed.

(** X15: a positive detection in a directory is right about the merged
    text. When [detectMermaid] answers true for a directory, the text
    that [convertDirectory] assembles from the same directory holds at
    least one diagram block, whatever the sort function and the
    separator are. *)
Theorem detection_implies_block_in_merge `{Platform} (inputDir : jstring)
    (names contents : list jstring) (cmp : jstring -> jstring -> Z)
    (sep : jstring) (w w1 w2 : World) :
  fs w !! path_resolve inputDir = Some (Dir names) ->
  detectMermaid inputDir w = (Ok true, w1) ->
  read_directory_files (path_resolve inputDir)
    (sort_by cmp (List.filter (ends_with (js ".md")) names)) w = (Ok contents, w2) ->
  extractMermaidBlocks (join sep contents) <> [].
Proof.
  intros Hdir Hdetect Hread.
  unfold detectMermaid, bind, is_directory, readdirSync in Hdetect.
  rewrite !Hdir in Hdetect.
  apply some_contains_true in Hdetect as (file & content & Hin & Hfile & Hyes).
  apply read_directory_files_Ok in Hread as [_ Hall].
  assert (Hsorted : file ∈ sort_by cmp (List.filter (ends_with (js ".md")) names))
    by (by rewrite (sort_by_perm _ _)).
  apply list_elem_of_lookup_1 in Hsorted as [k Hk].
  destruct (Forall2_lookup_l _ _ _ _ _ Hall Hk) as (content' & Hk' & Hfile').
  rewrite Hfile in Hfile'. injection Hfile' as <-.
  apply list_elem_of_lookup_2 in Hk'.
  destruct (join_holds sep content contents Hk') as (l & r & ->).
  apply containsMermaid_blocks. by apply containsMermaid_inside.
Qed.

Lemma detection_implies_block_in_merge_witness :
  let P := test_platform working_mmdc echo_engine in
  let contents :=
    [js "A"; js "B";
     js "```mermaid" ++ [LF] ++ js "graph TD; A-->B" ++ [LF] ++ js "```"] in
  fst (detectMermaid (js "/docs") test_world) = Ok true /\
  extractMermaidBlocks (join (separatorMarkdown hr) contents) <> [].
Proof.
  intros P contents.
  assert (Hdir : fs test_world !! path_resolve (js "/docs")
                 = Some (Dir [js "b.md"; js "a.md"; js "notes.txt"; js "c.md"]))
    by (vm_compute; reflexivity).
  assert (Hdetect : detectMermaid (js "/docs") test_world
                    = (Ok true, snd (detectMermaid (js "/docs") test_world)))
    by by_running.
  assert (Hread : read_directory_files (path_resolve (js "/docs"))
                    (sort_by naturalSort
                       (List.filter (ends_with (js ".md"))
                          [js "b.md"; js "a.md"; js "notes.txt"; js "c.md"]))
                    test_world
                  = (Ok contents,
                     snd (read_directory_files (path_resolve (js "/docs"))
                            (sort_by naturalSort
                               (List.filter (ends_with (js ".md"))
                                  [js "b.md"; js "a.md"; js "notes.txt"; js "c.md"]))
                            test_world)))
    by by_running.
  split; [by rewrite Hdetect|].
  exact (detection_implies_block_in_merge (js "/docs") _ contents naturalSort
           (separatorMarkdown hr) test_world _ _ Hdir Hdetect Hread).
Defined.

(** X16: merging can make a block that no file holds. When a file ends
    with the opening fence without its line feed, the separator that
    follows supplies the line feed, and the first three backticks of any
    later file close the block: the merged text then holds a diagram
    block made of the separator and the start of the next file. *)
Theorem merge_can_make_a_block (x y : jstring) (sep : Separator) (k : nat) :
  sep <> none ->
  occurs_at fence_close y k ->
  let merged := join (separatorMarkdown sep) [x ++ js "```mermaid"; y] in
  containsMermaid merged = true /\ extractMermaidBlocks merged <> [].
Proof.
  intros Hsep Hclose merged.
  assert (Hyes : containsMermaid merged = true).
  { apply containsMermaid_fences.
    assert (Hshape : exists mid, 1 <= length mid /\
              merged = x ++ fence_open ++ (mid ++ y ++ [])).
    { unfold merged. cbn [join]. destruct sep; [| |done].
      - eexists (tl (separatorMarkdown pagebreak)). split; [cbn; lia|].
        rewrite app_nil_r. unfold fence_open. cbn. by rewrite <- !app_assoc.
      - eexists (tl (separatorMarkdown hr)). split; [cbn; lia|].
        rewrite app_nil_r. unfold fence_open. cbn. by rewrite <- !app_assoc. }
    destruct Hshape as (mid & Hmid & ->).
    exists (length x), (length mid + k - 0). split.
    - unfold occurs_at. rewrite drop_app_length. by rewrite take_app_length.
    - replace (length x + 11 + (length mid + k - 0))
        with (length (x ++ fence_open ++ mid) + k)
        by (rewrite !length_app, fence_open_length; lia).
      replace (x ++ fence_open ++ mid ++ y ++ [])
        with ((x ++ fence_open ++ mid) ++ y ++ []) by (by rewrite <- !app_assoc).
      apply occurs_at_middle; [rewrite fence_close_length; lia|done]. }
  split; [done|]. by apply containsMermaid_blocks.
Qed.

Lemma merge_can_make_a_block_witness :
  hr <> none /\
  occurs_at fence_close chapter_with_code_fence 6 /\
  containsMermaid chapter_with_open_fence = false /\
  containsMermaid chapter_with_code_fence = false /\
  containsMermaid (join (separatorMarkdown hr)
                        [js "# One" ++ [LF] ++ js "```mermaid"; chapter_with_code_fence])
  = true.
Proof.
  assert (Hsep : hr <> none) by discriminate.
  assert (Hclose : occurs_at fence_close chapter_with_code_fence 6)
    by (vm_compute; reflexivity).
  split; [exact Hsep|]. split; [exact Hclose|].
  split; [vm_compute; reflexivity|]. split; [vm_compute; reflexivity|].
  exact (proj1 (merge_can_make_a_block (js "# One" ++ [LF]) chapter_with_code_fence
                  hr 6 Hsep Hclose)).
Defined.

(** ** Inline images: encoding and decoding *)

Lemma list_ind3 {A} (P : list A -> Prop) :
  P [] -> (forall a, P [a]) -> (forall a b, P [a; b]) ->
  (forall a b c rest, P rest -> P (a :: b :: c :: rest)) ->
  forall l, P l.
Proof.
  intros H0 H1 H2 H3. fix IH 1.
  intros [|a [|b [|c rest]]]; [exact H0|apply H1|apply H2|apply H3, IH].
Qed.

Lemma unbase64_b64_char (n : nat) : n < 64 -> unbase64 (b64_char n) = Some n.
Proof.
  intros Hn.
  assert (Hall : forallb (fun k => match unbase64 (b64_char k) with
                                   | Some m => m =? k
                                   | None => false
                                   end) (seq 0 64) = true) by (vm_compute; reflexivity).
  rewrite forallb_forall in Hall.
  specialize (Hall n (proj2 (in_seq 64 0 n) ltac:(lia))).
  destruct (unbase64 (b64_char n)) as [m|]; [|done].
  apply Nat.eqb_eq in Hall. by subst.
Qed.

Lemma div_glue (h s k : nat) : s < k -> (h * k + s) / k = h.
Proof. intros Hs. rewrite Nat.div_add_l by lia. rewrite Nat.div_small; lia. Qed.

Lemma mod_glue (h s k : nat) : s < k -> (h * k + s) mod k = s.
Proof.
  intros Hs. rewrite Nat.add_comm, Nat.Div0.mod_add. by apply Nat.mod_small.
Qed.

Lemma byte_nat_of_ascii (a : ascii) (n : nat) : n = nat_of_ascii a -> byte n = a.
Proof.
  intros ->. unfold byte. pose proof (nat_ascii_bounded a).
  rewrite Nat.mod_small by lia. apply ascii_nat_embedding.
Qed.

Lemma sextet_bounds (x y : nat) (k : nat) :
  x < 256 -> y < 256 ->
  x / 4 < 64 /\ x mod 4 * 16 + y / 16 < 64 /\ x mod 16 * 4 + y / 64 < 64 /\
  x mod 64 < 64 /\ x mod 4 * 16 < 64 /\ x mod 16 * 4 < 64 /\
  y / 16 < 16 /\ y / 64 < 4.
Proof.
  intros Hx Hy.
  pose proof (Nat.mod_upper_bound x 4). pose proof (Nat.mod_upper_bound x 16).
  pose proof (Nat.mod_upper_bound x 64).
  assert (x / 4 < 64) by (apply Nat.Div0.div_lt_upper_bound; lia).
  assert (y / 16 < 16) by (apply Nat.Div0.div_lt_upper_bound; lia).
  assert (y / 64 < 4) by (apply Nat.Div0.div_lt_upper_bound; lia).
  lia.
Qed.

Lemma sextets_pad (rest : jstring) : sextets ("="%char :: rest) = [].
Proof. reflexivity. Qed.

Lemma sextets_char (n : nat) (rest : jstring) :
  n < 64 -> sextets (b64_char n :: rest) = n :: sextets rest.
Proof. intros Hn. cbn [sextets]. by rewrite unbase64_b64_char. Qed.

(** Decoding what [toString("base64")] produced gives the bytes back. *)
Lemma base64_round_trip (bytes : jstring) : base64_decode (base64 bytes) = bytes.
Proof.
  unfold base64_decode. induction bytes as [|a|a b|a b c rest IH] using list_ind3.
  - reflexivity.
  - pose proof (nat_ascii_bounded a) as Ha.
    destruct (sextet_bounds (nat_of_ascii a) 0 0) as (H1 & _ & _ & _ & H2 & _); [lia..|].
    cbn [base64]. rewrite !sextets_char by done.
    rewrite sextets_pad. cbn [bytes_of_sextets]. f_equal.
    apply byte_nat_of_ascii.
    rewrite Nat.div_mul by lia.
    pose proof (Nat.div_mod_eq (nat_of_ascii a) 4). lia.
  - pose proof (nat_ascii_bounded a) as Ha. pose proof (nat_ascii_bounded b) as Hb.
    destruct (sextet_bounds (nat_of_ascii a) (nat_of_ascii b) 0)
      as (H1 & H2 & _ & _ & _ & _ & H3 & _); [lia..|].
    destruct (sextet_bounds (nat_of_ascii b) 0 0) as (_ & _ & _ & _ & _ & H4 & _); [lia..|].
    cbn [base64]. rewrite !sextets_char by done.
    rewrite sextets_pad. cbn [bytes_of_sextets]. f_equal; [|f_equal].
    + apply byte_nat_of_ascii. rewrite div_glue by done.
      pose proof (Nat.div_mod_eq (nat_of_ascii a) 4). lia.
    + apply byte_nat_of_ascii. rewrite mod_glue by done.
      rewrite Nat.div_mul by lia.
      pose proof (Nat.div_mod_eq (nat_of_ascii b) 16). lia.
  - pose proof (nat_ascii_bounded a) as Ha. pose proof (nat_ascii_bounded b) as Hb.
    pose proof (nat_ascii_bounded c) as Hc.
    destruct (sextet_bounds (nat_of_ascii a) (nat_of_ascii b) 0)
      as (H1 & H2 & _ & _ & _ & _ & H3 & _); [lia..|].
    destruct (sextet_bounds (nat_of_ascii b) (nat_of_ascii c) 0)
      as (_ & _ & H4 & _ & _ & _ & _ & H5); [lia..|].
    destruct (sextet_bounds (nat_of_ascii c) 0 0) as (_ & _ & _ & H6 & _); [lia..|].
    cbn [base64]. rewrite !sextets_char by done.
    cbn [bytes_of_sextets]. rewrite IH. f_equal; [|f_equal; [|f_equal]].
    + apply byte_nat_of_ascii. rewrite div_glue by done.
      pose proof (Nat.div_mod_eq (nat_of_ascii a) 4). lia.
    + apply byte_nat_of_ascii. rewrite mod_glue by done. rewrite div_glue by done.
      pose proof (Nat.div_mod_eq (nat_of_ascii b) 16). lia.
    + apply byte_nat_of_ascii. rewrite mod_glue by done.
      pose proof (Nat.div_mod_eq (nat_of_ascii c) 64). lia.
Qed.

Lemma b64_char_is_dot (n : nat) : is_dot (b64_char n) = true.
Proof.
  unfold b64_char.
  assert (Hall : forallb is_dot ("="%char :: b64_alphabet) = true) by reflexivity.
  rewrite forallb_forall in Hall. apply Hall.
  destruct (nth_in_or_default n b64_alphabet "="%char) as [Hin | ->];
    [by right|by left].
Qed.

Lemma base64_is_dot (bytes : jstring) : forallb is_dot (base64 bytes) = true.
Proof.
  induction bytes as [|a|a b|a b c rest IH] using list_ind3; cbn [base64 forallb].
  - done.
  - by rewrite !b64_char_is_dot.
  - by rewrite !b64_char_is_dot.
  - by rewrite !b64_char_is_dot, IH.
Qed.

Lemma base64_nil (bytes : jstring) : base64 bytes = [] -> bytes = [].
Proof. by destruct bytes as [|a [|b [|c rest]]]. Qed.

Lemma match_data_uri_png (payload : jstring) :
  match_data_uri (dataUri payload)
  = match payload with
    | [] => None
    | _ :: _ => if forallb is_dot payload then Some (js "png", payload) else None
    end.
Proof. reflexivity. Qed.

Lemma image_source_png (payload : jstring) :
  image_source (dataUri payload)
  = match match_data_uri (dataUri payload) with
    | Some (_, payload') => InlineImage ImagePng (base64_decode payload')
    | None => InvalidDataUri
    end.
Proof.
  rewrite match_data_uri_png. unfold image_source.
  change (starts_with (js "data:") (dataUri payload)) with true. cbv iota.
  rewrite match_data_uri_png.
  destruct payload as [|c0 payload]; [done|].
  by destruct (forallb is_dot (c0 :: payload)).
Qed.

(** X17: the image reference of a rendered diagram resolves to the
    rendered bytes. The address that [preprocessMermaid] puts into the
    text for a non-empty image file is accepted by the image resolver as
    an inline PNG whose buffer is exactly the content of that file; for
    an empty image file the address has no payload and the resolver
    rejects it as an invalid data URI. *)
Theorem inline_image_round_trip (pngBuffer : jstring) :
  imgMarkdown (base64 pngBuffer)
  = [LF; LF] ++ js "![Mermaid Diagram](" ++ dataUri (base64 pngBuffer) ++ js ")"
    ++ [LF; LF] /\
  image_source (dataUri (base64 pngBuffer))
  = match pngBuffer with
    | [] => InvalidDataUri
    | _ :: _ => InlineImage ImagePng pngBuffer
    end.
Proof.
  split; [reflexivity|].
  rewrite image_source_png, match_data_uri_png.
  destruct (base64 pngBuffer) as [|c0 payload] eqn:Hpayload.
  - apply base64_nil in Hpayload. by subst.
  - pose proof (base64_is_dot pngBuffer) as Hdot. rewrite Hpayload in Hdot.
    rewrite Hdot. destruct pngBuffer as [|b0 rest]; [done|].
    rewrite <- Hpayload. by rewrite base64_round_trip.
Qed.

(** ** Resolving the language of a code block *)

Lemma own_property_In (key value : jstring) (object : list (jstring * jstring)) :
  own_property key object = Some value -> (key, value) ∈ object.
Proof.
  induction object as [|[k v] object IH]; cbn [own_property]; [done|].
  destruct (bool_decide (k = key)) eqn:Hk.
  - apply bool_decide_eq_true in Hk as ->. intros [= ->]. apply elem_of_cons. by left.
  - intros Hrest. apply elem_of_cons. right. by apply IH.
Qed.

Lemma to_lower_unit_not_upper (c : ascii) : is_upper (to_lower_unit c) = false.
Proof. destruct c as [[] [] [] [] [] [] [] []]; reflexivity. Qed.

Lemma toLowerCase_no_upper (s : jstring) : existsb is_upper (toLowerCase s) = false.
Proof.
  induction s as [|c s IH]; [done|]. cbn [toLowerCase map existsb].
  rewrite to_lower_unit_not_upper. exact IH.
Qed.

Lemma normalized_no_upper (s : jstring) :
  existsb is_upper (trim (toLowerCase s)) = false.
Proof.
  pose proof (toLowerCase_no_upper s) as Hall.
  destruct (trim_split (toLowerCase s)) as (pre & post & Heq & _).
  rewrite Heq, !existsb_app in Hall.
  by apply orb_false_elim in Hall as [_ [Hmid _]%orb_false_elim].
Qed.

Lemma alias_targets_resolve :
  Forall (fun kv : jstring * jstring =>
            kv.2 ∈ SUPPORTED_LANGUAGES /\
            resolveLanguage (Some kv.2) = ResolvedLanguage kv.2) LANGUAGE_ALIASES.
Proof. apply (bool_decide_unpack _). vm_compute. exact I. Qed.

Lemma supported_languages_resolve :
  Forall (fun name => resolveLanguage (Some name) = ResolvedLanguage name)
         SUPPORTED_LANGUAGES.
Proof. apply (bool_decide_unpack _). vm_compute. exact I. Qed.

Lemma lower_case_prototype_keys :
  Forall (fun key => existsb is_upper key = false ->
                     key = js "constructor" \/ key = js "__proto__")
         OBJECT_PROTOTYPE_KEYS.
Proof. apply (bool_decide_unpack _). vm_compute. exact I. Qed.

(** X18: what a language tag resolves to. The result is null, or one of
    the supported language names, which then resolves to itself; the
    only other results are the inherited properties [constructor] and
    [__proto__] of the alias table, returned in place of a language for
    a tag that reads so after lower-casing and trimming. *)
Theorem resolveLanguage_result (lang : option jstring) :
  match resolveLanguage lang with
  | ResolvedNull => True
  | ResolvedLanguage name =>
      name ∈ SUPPORTED_LANGUAGES /\
      resolveLanguage (Some name) = ResolvedLanguage name
  | ResolvedInherited key =>
      (key = js "constructor" \/ key = js "__proto__") /\
      exists tag, lang = Some tag /\ trim (toLowerCase tag) = key
  end.
Proof.
  destruct lang as [[|c tag]|]; [done| |done].
  unfold resolveLanguage.
  set (normalized := trim (toLowerCase (c :: tag))).
  destruct (own_property normalized LANGUAGE_ALIASES) as [name|] eqn:Halias.
  - apply own_property_In in Halias.
    pose proof alias_targets_resolve as Hall. rewrite Forall_forall in Hall.
    exact (Hall _ Halias).
  - destruct (bool_decide (normalized ∈ OBJECT_PROTOTYPE_KEYS)) eqn:Hproto.
    + apply bool_decide_eq_true in Hproto.
      pose proof lower_case_prototype_keys as Hall. rewrite Forall_forall in Hall.
      split; [|by exists (c :: tag)].
      apply (Hall _ Hproto). apply normalized_no_upper.
    + destruct (bool_decide (normalized ∈ SUPPORTED_LANGUAGES)) eqn:Hsup; [|done].
      apply bool_decide_eq_true in Hsup. split; [done|].
      pose proof supported_languages_resolve as Hall. rewrite Forall_forall in Hall.
      exact (Hall _ Hsup).
Qed.

(** ** Rendering a code block *)

Lemma split_lines_length (s : jstring) : length (split_lines s) = S (line_feeds s).
Proof.
  unfold line_feeds. induction s as [|c s IH]; [done|].
  cbn [split_lines List.filter]. rewrite (Ascii.eqb_sym LF c).
  destruct (Ascii.eqb c LF); cbn [length]; [by rewrite IH|].
  destruct (split_lines s) as [|line lines]; [done|]. exact IH.
Qed.

Lemma code_paragraphs_spacing {ParaProps A} (options : CodePluginOptions)
    (paraProps : ParaProps) (runs : nat -> A -> list TextRun) (items : list A)
    (index : nat) (p : Paragraph ParaProps) :
  imap (fun i item => code_paragraph ParaProps options paraProps (length items) i
                        (runs i item)) items !! index = Some p ->
  exists item, items !! index = Some item /\
    p = code_paragraph ParaProps options paraProps (length items) index (runs index item).
Proof.
  rewrite list_lookup_imap. destruct (items !! index) as [item|]; [|done].
  intros [= <-]. by exists item.
Qed.

(** X19: the paragraphs of a code block. In both renderings only the
    first paragraph has space before it, only the last has space after
    it, and every paragraph ends with a run of code. Without a loaded
    highlighter, or for a tag that resolves to null, there is one
    paragraph per line of the code (one more than it has line feeds),
    its text is the line, a single space standing for an empty line, and
    the node is left as it was; otherwise the node is marked processed. *)
Theorem code_block_rendering {ParaProps} (options : CodePluginOptions)
    (highlighterInstance : option Highlighter) (paraProps : ParaProps)
    (node node' : CodeNode) (paragraphs : list (Paragraph ParaProps)) :
  node_type node = js "code" ->
  block options highlighterInstance paraProps node = Some (paragraphs, node') ->
  (forall index p, paragraphs !! index = Some p ->
     spacing_before p = (if (index =? 0)%nat then 120 else 0)%Z /\
     spacing_after p = (if (index =? length paragraphs - 1)%nat then 120 else 0)%Z /\
     inherited p = paraProps /\
     exists text, code_text p = Some text) /\
  (highlighterInstance = None \/ resolveLanguage (node_lang node) = ResolvedNull ->
   node' = node /\
   length paragraphs = S (line_feeds (default [] (node_value node))) /\
   forall index p, paragraphs !! index = Some p ->
     exists line,
       split_lines (default [] (node_value node)) !! index = Some line /\
       code_text p = Some (match line with [] => js " " | _ => line end)) /\
  (highlighterInstance <> None ->
   resolveLanguage (node_lang node) <> ResolvedNull -> node_type node' = []).
Proof.
  intros Htype. unfold block. rewrite Htype.
  rewrite bool_decide_eq_true_2 by done. cbn [negb].
  set (code := default [] (node_value node)).
  assert (Hplain : forall ps, ps = plain_paragraphs options paraProps code ->
    (forall index p, ps !! index = Some p ->
       spacing_before p = (if (index =? 0)%nat then 120 else 0)%Z /\
       spacing_after p = (if (index =? length ps - 1)%nat then 120 else 0)%Z /\
       inherited p = paraProps /\
       exists text, code_text p = Some text) /\
    length ps = S (line_feeds code) /\
    forall index p, ps !! index = Some p ->
      exists line, split_lines code !! index = Some line /\
        code_text p = Some (match line with [] => js " " | _ => line end)).
  { intros ps ->. unfold plain_paragraphs.
    assert (Hlen : length (imap (fun index line =>
              code_paragraph ParaProps options paraProps (length (split_lines code)) index
                (line_number_runs options index
                 ++ [mkTextRun (CodeText (match line with [] => js " " | _ => line end))
                       (the_fontFamily options) (the_fontSize options) None]))
              (split_lines code)) = length (split_lines code)) by apply length_imap.
    split; [|split; [by rewrite Hlen, split_lines_length|]].
    - intros index p Hp. rewrite Hlen.
      apply code_paragraphs_spacing in Hp as (line & _ & ->).
      cbn [code_paragraph spacing_before spacing_after inherited].
      split; [done|]. split; [done|]. split; [done|].
      unfold code_text. cbn [code_paragraph children]. rewrite last_snoc. eauto.
    - intros index p Hp.
      apply code_paragraphs_spacing in Hp as (line & Hline & ->).
      exists line. split; [done|].
      unfold code_text. cbn [code_paragraph children]. by rewrite last_snoc. }
  assert (Hhigh : forall tokens ps, ps = highlighted_paragraphs options paraProps tokens ->
    forall index p, ps !! index = Some p ->
       spacing_before p = (if (index =? 0)%nat then 120 else 0)%Z /\
       spacing_after p = (if (index =? length ps - 1)%nat then 120 else 0)%Z /\
       inherited p = paraProps /\
       exists text, code_text p = Some text).
  { intros tokens ps -> index p Hp. unfold highlighted_paragraphs in *.
    rewrite length_imap.
    apply code_paragraphs_spacing in Hp as (lineTokens & _ & ->).
    cbn [code_paragraph spacing_before spacing_after inherited].
    split; [done|]. split; [done|]. split; [done|].
    unfold code_text. cbn [code_paragraph children].
    destruct lineTokens as [|token lineTokens]; [rewrite last_snoc; eauto|].
    destruct (exists_last (l := token :: lineTokens)) as (front & final & Heq); [done|].
    rewrite Heq. rewrite map_app. cbn [map]. rewrite app_assoc, last_snoc. eauto. }
  destruct highlighterInstance as [highlighter|].
  - destruct (resolveLanguage (node_lang node)) as [|name|key] eqn:Hlang.
    + intros [= <- <-]. destruct (Hplain _ eq_refl) as (H1 & H2 & H3).
      split; [done|]. split; [done|]. intros _ Hne. by destruct Hne.
    + destruct (codeToTokensBase highlighter code (ResolvedLanguage name))
        as [tokens|]; [|done].
      intros [= <- <-]. split; [by eapply Hhigh|].
      split; [by intros [|]|done].
    + destruct (codeToTokensBase highlighter code (ResolvedInherited key))
        as [tokens|]; [|done].
      intros [= <- <-]. split; [by eapply Hhigh|].
      split; [by intros [|]|done].
  - intros [= <- <-]. destruct (Hplain _ eq_refl) as (H1 & H2 & H3).
    split; [done|]. split; [done|]. intros Hne. by destruct Hne.
Qed.

Lemma code_block_rendering_witness :
  let node := mkCodeNode (js "code") (Some (js "a" ++ [LF; LF] ++ js "b"))
                         (Some (js " JS ")) in
  let result := block default_code_options (Some line_highlighter) tt node in
  node_type node = js "code" /\
  exists paragraphs node',
    result = Some (paragraphs, node') /\ length paragraphs = 3 /\
    node_type node' = [] /\
    forall index p, paragraphs !! index = Some p ->
      spacing_before p = (if (index =? 0)%nat then 120 else 0)%Z.
Proof.
  intros node result.
  assert (Htype : node_type node = js "code") by reflexivity.
  assert (Hrun : result
                 = Some (highlighted_paragraphs default_code_options tt
                           [[mkToken (js "a") (Some (js "#24292E"))]; [];
                            [mkToken (js "b") (Some (js "#24292E"))]],
                         mkCodeNode [] (node_value node) (node_lang node)))
    by (vm_compute; reflexivity).
  split; [exact Htype|]. eexists _, _. split; [exact Hrun|].
  split; [reflexivity|]. split; [reflexivity|].
  intros index p Hp.
  destruct (code_block_rendering default_code_options (Some line_highlighter) tt node
              _ _ Htype Hrun) as (Hspacing & _).
  exact (proj1 (Hspacing index p Hp)).
Defined.

(** ** The prompt of the interactive mode *)

Lemma printable_range (c : ascii) :
  string_le (js " ") [c] && string_le [c] (js "~") = is_printable c.
Proof. destruct c as [[] [] [] [] [] [] [] []]; reflexivity. Qed.

Lemma printable_not_control (c : ascii) :
  is_printable c = true ->
  [c] <> [ETX] /\ [c] <> [CR] /\ [c] <> [LF] /\ [c] <> [DEL] /\ [c] <> [BS].
Proof. destruct c as [[] [] [] [] [] [] [] []]; intros Hp; try done; repeat split; done. Qed.

Lemma forallb_removelast {A} (p : A -> bool) (l : list A) :
  forallb p l = true -> forallb p (removelast l) = true.
Proof.
  induction l as [|x l IH]; [done|]. cbn [forallb]. intros [Hx Hl]%andb_prop.
  destruct l as [|y l]; [done|]. cbn [removelast forallb]. rewrite Hx.
  exact (IH Hl).
Qed.

Lemma onData_keeps_printable (hotkeys : list jstring) (input input' : jstring)
    (c : ascii) :
  forallb is_printable input = true ->
  onData hotkeys input [c] = Waiting input' ->
  forallb is_printable input' = true.
Proof.
  intros Hin. unfold onData.
  destruct (bool_decide ([c] = [ETX])); [done|].
  destruct (bool_decide ([c] = [CR]) || bool_decide ([c] = [LF])); [done|].
  destruct (bool_decide ([c] = [DEL]) || bool_decide ([c] = [BS])).
  { intros [= <-]. destruct input as [|x input]; [done|].
    by apply forallb_removelast. }
  rewrite printable_range.
  assert (Hregular : (if is_printable c then Waiting (input ++ [c]) else Waiting input)
                     = Waiting input' -> forallb is_printable input' = true).
  { destruct (is_printable c) eqn:Hc; intros [= <-]; [|done].
    rewrite forallb_app, Hin. cbn. by rewrite Hc. }
  destruct input as [|x input]; [|done].
  destruct (bool_decide _); [done|]. destruct (bool_decide _); [done|].
  by destruct (bool_decide _).
Qed.

Lemma askWithHotkeys_answer (hotkeys : list jstring) (input : jstring)
    (keys rest : list jstring) (value : jstring) :
  Forall (fun key => length key = 1) keys ->
  forallb is_printable input = true ->
  askWithHotkeys hotkeys input keys = (Answered value, rest) ->
  exists typed, forallb is_printable typed = true /\ value = trim typed.
Proof.
  intros Hkeys. revert input.
  induction Hkeys as [|key keys Hkey Hkeys IH]; intros input Hin; [done|].
  cbn [askWithHotkeys].
  destruct key as [|c [|c' key]]; try done.
  destruct (onData hotkeys input [c]) as [input'| | | |] eqn:Hstep; try done.
  - apply IH. by eapply onData_keeps_printable.
  - intros [= <- <-]. exists input. split; [done|].
    revert Hstep. unfold onData.
    destruct (bool_decide ([c] = [ETX])); [done|].
    destruct (bool_decide ([c] = [CR]) || bool_decide ([c] = [LF]));
      [by intros [= <-]|].
    destruct (bool_decide ([c] = [DEL]) || bool_decide ([c] = [BS])); [done|].
    destruct (string_le (js " ") [c] && string_le [c] (js "~"));
      destruct input as [|x input]; try done;
      repeat (destruct (bool_decide _); try done).
Qed.

Lemma forallb_sublist_of_split {A} (p : A -> bool) (pre mid post : list A) :
  forallb p (pre ++ mid ++ post) = true -> forallb p mid = true.
Proof.
  rewrite !forallb_app. by intros [_ [Hmid _]%andb_prop]%andb_prop.
Qed.

(** X20: what a prompt can answer. When every chunk of input is a single
    code unit (keys pressed one by one), an answer of the prompt holds
    printable ASCII only and neither starts nor ends with white space,
    whatever the hotkeys are. *)
Theorem prompt_answer_is_clean (hotkeys : list jstring) (keys rest : list jstring)
    (value : jstring) :
  Forall (fun key => length key = 1) keys ->
  askWithHotkeys hotkeys [] keys = (Answered value, rest) ->
  forallb is_printable value = true /\
  (forall c, head value = Some c -> is_white_space c = false) /\
  (forall c, last value = Some c -> is_white_space c = false).
Proof.
  intros Hkeys Hrun.
  destruct (askWithHotkeys_answer hotkeys [] keys rest value Hkeys eq_refl Hrun)
    as (typed & Htyped & ->).
  destruct (trim_split typed) as (pre & post & Heq & Hhead & Hlast).
  split; [|split].
  - rewrite Heq in Htyped. by eapply forallb_sublist_of_split.
  - intros c Hc. by rewrite Hc in Hhead.
  - intros c Hc. by rewrite Hc in Hlast.
Qed.

Lemma prompt_answer_is_clean_witness :
  let keys := map key_press (js " a.md" ++ [DEL; "d"%char; " "%char; CR; "x"%char]) in
  Forall (fun key => length key = 1) keys /\
  askWithHotkeys [js "r"] [] keys = (Answered (js "a.md"), [js "x"]) /\
  forallb is_printable (js "a.md") = true.
Proof.
  intros keys.
  assert (Hkeys : Forall (fun key => length key = 1) keys)
    by (repeat constructor).
  assert (Hrun : askWithHotkeys [js "r"] [] keys = (Answered (js "a.md"), [js "x"]))
    by (vm_compute; reflexivity).
  split; [exact Hkeys|]. split; [exact Hrun|].
  exact (proj1 (prompt_answer_is_clean [js "r"] keys [js "x"] (js "a.md") Hkeys Hrun)).
Defined.

(** ** The refresh key *)

Lemma single_key_lowered (c : ascii) :
  toLowerCase [c] <> js "constructor" /\ toLowerCase [c] <> js "__proto__".
Proof. done. Qed.

Lemma typing_then_enter (hotkeys : list jstring) (input text : jstring)
    (later : list jstring) :
  forallb is_printable text = true ->
  (input = [] -> forall d, head text = Some d -> toLowerCase [d] ∉ hotkeys) ->
  askWithHotkeys hotkeys input (map key_press text ++ [CR] :: later)
  = (Answered (trim (input ++ text)), later).
Proof.
  revert input. induction text as [|c text IH]; intros input Hprint Hfirst.
  - cbn [map app askWithHotkeys]. unfold onData.
    rewrite bool_decide_eq_false_2 by done.
    rewrite (bool_decide_eq_true_2 ([CR] = [CR])) by done. cbn [orb].
    by rewrite app_nil_r.
  - cbn [forallb] in Hprint. apply andb_prop in Hprint as [Hc Htext].
    destruct (printable_not_control c Hc) as (H1 & H2 & H3 & H4 & H5).
    cbn [map app askWithHotkeys]. unfold key_press at 1.
    assert (Hstep : onData hotkeys input [c] = Waiting (input ++ [c])).
    { unfold onData. rewrite !bool_decide_eq_false_2 by done. cbn [orb].
      rewrite printable_range, Hc.
      destruct input as [|x input]; [|done].
      rewrite bool_decide_eq_false_2 by (by apply Hfirst).
      destruct (single_key_lowered c) as [Hn1 Hn2].
      by rewrite !bool_decide_eq_false_2 by done. }
    rewrite Hstep. rewrite IH; [by rewrite <- app_assoc|done|].
    intros Hempty. by destruct input.
Qed.

(** X21: the refresh key swallows a first letter. At the file and
    directory prompts, a name that does not begin with [r] or [R],
    typed key by key and ended with Enter, is answered as typed
    (trimmed) with no refresh; when [r] or [R] is typed in front of
    such a name, that first key triggers one refresh and the answer is
    the name without it. *)
Theorem refresh_key_swallows_first_letter (name : jstring) (later : list jstring)
    (fuel : nat) :
  forallb is_printable name = true ->
  (forall d, head name = Some d -> d <> "r"%char /\ d <> "R"%char) ->
  2 <= fuel ->
  ask_path fuel (map key_press name ++ [CR] :: later) 0
  = (Answered (trim name), 0, later) /\
  forall c, c = "r"%char \/ c = "R"%char ->
    ask_path fuel (map key_press (c :: name) ++ [CR] :: later) 0
    = (Answered (trim name), 1, later).
Proof.
  intros Hprint Hfirst Hfuel.
  assert (Hhot : forall d, head name = Some d -> toLowerCase [d] ∉ [js "r"]).
  { intros d Hd Hin. destruct (Hfirst d Hd) as [Hr HR].
    apply list_elem_of_singleton in Hin.
    destruct d as [[] [] [] [] [] [] [] []]; done. }
  assert (Htyped : askWithHotkeys [js "r"] [] (map key_press name ++ [CR] :: later)
                   = (Answered (trim name), later)).
  { by rewrite (typing_then_enter [js "r"] [] name later Hprint). }
  destruct fuel as [|[|fuel]]; [lia..|].
  split.
  - cbn [ask_path]. by rewrite Htyped.
  - intros c Hc.
    assert (Hfire : askWithHotkeys [js "r"] []
                      (map key_press (c :: name) ++ [CR] :: later)
                    = (HotkeyFired (js "r"), map key_press name ++ [CR] :: later))
      by (by destruct Hc as [-> | ->]).
    cbn [ask_path]. rewrite Hfire. rewrite bool_decide_eq_true_2 by done.
    by rewrite Htyped.
Qed.

Lemma refresh_key_swallows_first_letter_witness :
  forallb is_printable (js "eadme.md") = true /\
  ask_path 3 (map key_press (js "readme.md") ++ [[CR]]) 0
  = (Answered (js "eadme.md"), 1, []).
Proof.
  assert (Hprint : forallb is_printable (js "eadme.md") = true) by reflexivity.
  assert (Hfirst : forall d, head (js "eadme.md") = Some d ->
                             d <> "r"%char /\ d <> "R"%char)
    by (by intros d [= <-]).
  assert (Hfuel : 2 <= 3) by lia.
  split; [exact Hprint|].
  exact (proj2 (refresh_key_swallows_first_letter (js "eadme.md") [] 3
                  Hprint Hfirst Hfuel) "r"%char (or_introl eq_refl)).
Defined.

(** ** Picking an entry of the numbered list *)

Lemma span_digits_stop (digits rest : jstring) :
  forallb is_digit digits = true ->
  (forall c, head rest = Some c -> is_digit c = false) ->
  span is_digit (digits ++ rest) = (digits, rest).
Proof.
  intros Hd Hrest. induction digits as [|d digits IH].
  - destruct rest as [|c rest]; [done|]. cbn [app span].
    by rewrite (Hrest c eq_refl).
  - cbn [forallb] in Hd. apply andb_prop in Hd as [Hd1 Hd2].
    cbn [app span]. rewrite Hd1. by rewrite (IH Hd2).
Qed.

Lemma parseInt_leading_digits (digits rest : jstring) :
  digits <> [] ->
  forallb is_digit digits = true ->
  (forall c, head rest = Some c -> is_digit c = false) ->
  parseInt (digits ++ rest) = Some (decimal_value digits).
Proof.
  intros Hne Hd Hrest. destruct digits as [|d digits]; [done|].
  pose proof Hd as Hd'. cbn [forallb] in Hd'. apply andb_prop in Hd' as [Hd1 _].
  destruct (digit_is_plain d Hd1) as (Hws & Hminus & Hplus).
  unfold parseInt. cbn [app trimStart]. rewrite Hws, Hminus, Hplus.
  change (d :: digits ++ rest) with ((d :: digits) ++ rest).
  rewrite span_digits_stop by done. cbn [fst]. f_equal. lia.
Qed.

(** X22: an answer that starts with a number picks from the list. At the
    file and directory prompts an answer made of a decimal number [n]
    between 1 and the length of the list, followed by any text that does
    not start with a digit, selects the n-th entry of the list: a file
    whose own name begins with such a number cannot be chosen by typing
    its name. *)
Theorem numbered_answer_picks_entry (listed : list jstring) (digits rest : jstring) :
  digits <> [] ->
  forallb is_digit digits = true ->
  (forall c, head rest = Some c -> is_digit c = false) ->
  (1 <= decimal_value digits <= Z.of_nat (length listed))%Z ->
  choose_listed listed (digits ++ rest)
  = nth (Z.to_nat (decimal_value digits - 1)) listed [] /\
  choose_listed listed (digits ++ rest) ∈ listed.
Proof.
  intros Hne Hd Hrest Hrange.
  assert (Hpick : choose_listed listed (digits ++ rest)
                  = nth (Z.to_nat (decimal_value digits - 1)) listed []).
  { unfold choose_listed. rewrite parseInt_leading_digits by done.
    destruct (Z.leb_spec 1 (decimal_value digits)); [|lia].
    destruct (Z.leb_spec (decimal_value digits) (Z.of_nat (length listed))); [|lia].
    done. }
  split; [done|]. rewrite Hpick. apply list_elem_of_In, nth_In. lia.
Qed.

Lemma numbered_answer_picks_entry_witness :
  let listed := sort_by code_unit_compare numbered_chapters in
  listed = [js "1-intro.md"; js "10-appendix.md"; js "2-setup.md"] /\
  (1 <= decimal_value (js "2") <= Z.of_nat (length listed))%Z /\
  choose_listed listed (js "2-setup.md") = js "10-appendix.md".
Proof.
  intros listed.
  assert (Hlisted : listed = [js "1-intro.md"; js "10-appendix.md"; js "2-setup.md"])
    by (vm_compute; reflexivity).
  assert (Hne : js "2" <> []) by done.
  assert (Hd : forallb is_digit (js "2") = true) by reflexivity.
  assert (Hrest : forall c, head (js "-setup.md") = Some c -> is_digit c = false)
    by (by intros c [= <-]).
  assert (Hrange : (1 <= decimal_value (js "2") <= Z.of_nat (length listed))%Z)
    by (rewrite Hlisted; vm_compute; split; discriminate).
  split; [exact Hlisted|]. split; [exact Hrange|].
  change (js "2-setup.md") with (js "2" ++ js "-setup.md").
  rewrite (proj1 (numbered_answer_picks_entry listed (js "2") (js "-setup.md")
                    Hne Hd Hrest Hrange)).
  rewrite Hlisted. reflexivity.
Defined.

(** ** Cleaning the scratch directory *)

Lemma path_join_inj (dir : path) (a b : jstring) :
  path_join dir a = path_join dir b -> a = b.
Proof. unfold path_join. intros Heq. apply app_inv_head in Heq. by injection Heq. Qed.

Lemma unlinkSync_file (dir : path) (file : jstring) (f : gmap path node) :
  is_file f (path_join dir file) = true ->
  exists f', unlinkSync (path_join dir file) f = inr f' /\
    f' !! path_join dir file = None /\
    (forall q, q <> path_join dir file -> q <> dir -> f' !! q = f !! q) /\
    (forall es, f !! dir = Some (Dir es) ->
                f' !! dir = Some (Dir (remove_entry file es))) /\
    (forall n, f !! dir = Some n -> is_Some (f' !! dir)).
Proof.
  unfold is_file, unlinkSync. intros Hfile.
  destruct (f !! path_join dir file) as [[c|es]|] eqn:Hlook; try done.
  rewrite path_dirname_join, path_basename_join.
  assert (Hne : dir <> path_join dir file) by (apply not_eq_sym, path_join_not_dir).
  eexists. split; [reflexivity|].
  rewrite lookup_delete_ne by done.
  destruct (f !! dir) as [[c0|es0]|] eqn:Hdir.
  - split; [by rewrite lookup_delete_eq|]. split; [|split].
    + intros q Hq _. by rewrite lookup_delete_ne.
    + done.
    + intros n _. rewrite lookup_delete_ne by done. rewrite Hdir. eauto.
  - split; [by rewrite lookup_insert_ne, lookup_delete_eq|]. split; [|split].
    + intros q Hq Hq'. by rewrite lookup_insert_ne, lookup_delete_ne.
    + intros es' [= <-]. by rewrite lookup_insert_eq.
    + intros n _. rewrite lookup_insert_eq. eauto.
  - split; [by rewrite lookup_delete_eq|]. split; [|split].
    + intros q Hq _. by rewrite lookup_delete_ne.
    + done.
    + done.
Qed.

Lemma unlink_all_files (dir : path) (files : list jstring) (f : gmap path node) :
  NoDup files ->
  Forall (fun name => is_file f (path_join dir name) = true) files ->
  exists f', unlink_all dir files f = (None, f') /\
    (forall name, name ∈ files -> f' !! path_join dir name = None) /\
    (forall q, (forall name, name ∈ files -> q <> path_join dir name) -> q <> dir ->
               f' !! q = f !! q) /\
    (forall es, f !! dir = Some (Dir es) ->
       f' !! dir = Some (Dir (List.filter (fun e => negb (bool_decide (e ∈ files))) es))).
Proof.
  revert f. induction files as [|file files IH]; intros f Hnodup Hfiles.
  - exists f. split; [done|]. split; [by intros name Hin%elem_of_nil|].
    split; [done|]. intros es ->. f_equal. f_equal.
    induction es as [|e es IHes]; [done|]. cbn [List.filter].
    rewrite bool_decide_eq_false_2 by apply not_elem_of_nil. cbn [negb].
    by rewrite <- IHes.
  - apply NoDup_cons in Hnodup as [Hnotin Hnodup].
    apply Forall_cons in Hfiles as [Hfile Hfiles].
    destruct (unlinkSync_file dir file f Hfile) as (f1 & Hun & Hgone & Hframe & Hdir & _).
    assert (Hfiles1 : Forall (fun name => is_file f1 (path_join dir name) = true) files).
    { rewrite Forall_forall in Hfiles |- *. intros name Hin. unfold is_file.
      rewrite Hframe; [by apply Hfiles| |apply path_join_not_dir].
      intros Heq%path_join_inj. by subst. }
    destruct (IH f1 Hnodup Hfiles1) as (f' & Hrun & Hnone & Hframe' & Hdir').
    exists f'. cbn [unlink_all]. rewrite Hun. split; [done|]. split; [|split].
    + intros name [-> | Hin]%elem_of_cons; [|by apply Hnone].
      rewrite Hframe'; [done| |apply path_join_not_dir].
      intros name Hin Heq%path_join_inj. by subst.
    + intros q Hq Hq'.
      rewrite Hframe'; [|intros name Hin; apply Hq; by right|done].
      apply Hframe; [|done]. apply Hq. by left.
    + intros es Hes. rewrite (Hdir' _ (Hdir _ Hes)). f_equal. f_equal.
      clear. unfold remove_entry. induction es as [|e es IHes]; [done|].
      cbn [List.filter].
      destruct (decide (e = file)) as [->|Hne].
      * rewrite (bool_decide_eq_true_2 (file = file)) by done. cbn [negb].
        rewrite (bool_decide_eq_true_2 (file ∈ file :: files)) by (by left).
        cbn [negb]. exact IHes.
      * rewrite (bool_decide_eq_false_2 (e = file)) by done. cbn [negb List.filter].
        rewrite IHes.
        destruct (decide (e ∈ files)) as [Hin|Hnin].
        -- rewrite (bool_decide_eq_true_2 (e ∈ files)) by done.
           rewrite (bool_decide_eq_true_2 (e ∈ file :: files)) by (by right). done.
        -- rewrite (bool_decide_eq_false_2 (e ∈ files)) by done.
           rewrite (bool_decide_eq_false_2 (e ∈ file :: files)); [done|].
           by intros [?|?]%elem_of_cons.
Qed.

Lemma filter_out_all (es : list jstring) :
  List.filter (fun e => negb (bool_decide (e ∈ es))) es = [].
Proof.
  assert (Hgen : forall l, (forall e, e ∈ l -> e ∈ es) ->
                           List.filter (fun e => negb (bool_decide (e ∈ es))) l = []).
  { induction l as [|e l IH]; intros Hall; [done|]. cbn [List.filter].
    rewrite bool_decide_eq_true_2 by (apply Hall; by left). cbn [negb].
    apply IH. intros e' He'. apply Hall. by right. }
  by apply Hgen.
Qed.

(** X23: cleaning up empties the cache. When the scratch directory holds
    only regular files, [cleanup] returns normally, removes every one of
    them, leaves the directory in place and empty, touches nothing
    outside it, and clears the highlighter variable; from then on the
    rendering of any diagram is a cache miss that starts the renderer
    again. *)
Theorem cleanup_empties_cache `{Platform} (w : World) (es : list jstring)
    (highlighterInstance : option Highlighter) :
  holds_only_files (fs w) tempDir es ->
  exists w',
    cleanup w highlighterInstance = (None, w', None) /\
    fs w' !! tempDir = Some (Dir []) /\
    (forall name, fs w' !! path_join tempDir name = None) /\
    (forall q, ~ tempDir `prefix_of` q -> fs w' !! q = fs w !! q) /\
    spawned w' = spawned w /\ console w' = console w /\
    forall mermaidCode, exists w'',
      renderMermaidToPng mermaidCode w'
      = (miss_result mermaidCode (mmdc (length (spawned w)) mermaidCode), w'') /\
      spawned w'' = spawned w ++ [(cache_input_file mermaidCode,
                                   cache_output_file mermaidCode)].
Proof.
  intros (Hdir & Hnodup & Hfiles & Hlisted).
  destruct (unlink_all_files tempDir es (fs w) Hnodup Hfiles)
    as (f' & Hrun & Hnone & Hframe & Hdir').
  specialize (Hdir' _ Hdir). rewrite filter_out_all in Hdir'.
  assert (Hchildren : forall name, f' !! path_join tempDir name = None).
  { intros name. destruct (decide (name ∈ es)) as [Hin|Hnin]; [by apply Hnone|].
    rewrite Hframe; [| |apply path_join_not_dir].
    - destruct (fs w !! path_join tempDir name) as [n|] eqn:Hlook; [|done].
      exfalso. apply Hnin. specialize (Hlisted _ _ Hlook). cbn in Hlisted.
      rewrite path_dirname_join, path_basename_join in Hlisted.
      apply Hlisted; [done|]. unfold path_join. by destruct tempDir.
    - intros name' Hin Heq%path_join_inj. by subst. }
  exists (set_fs f' w).
  assert (Hclean : cleanup w highlighterInstance = (None, set_fs f' w, None)).
  { unfold cleanup. rewrite bool_decide_eq_true_2 by (rewrite Hdir; eauto).
    unfold readdirSync. rewrite Hdir, Hrun. by destruct highlighterInstance. }
  split; [done|]. split; [done|]. split; [done|]. split; [|split; [done|split; [done|]]].
  - intros q Hq. cbn [set_fs fs]. apply Hframe.
    + intros name _ ->. apply Hq. by eexists.
    + intros ->. by apply Hq.
  - intros mermaidCode.
    destruct (renderMermaidToPng_miss mermaidCode (set_fs f' w) [])
      as (w'' & Hrender & Hspawned & _); [done|apply Hchildren| |].
    + intros es'. cbn [set_fs fs]. unfold cache_input_file. by rewrite Hchildren.
    + exists w''. split; [exact Hrender|exact Hspawned].
Qed.

Lemma cleanup_empties_cache_witness :
  let P := test_platform working_mmdc echo_engine in
  let c := js "graph TD; A-->B" in
  let es := [cache_key c ++ js ".mmd"; cache_key c ++ js ".png"] in
  holds_only_files (fs world_with_one_image) tempDir es /\
  is_Some (fs world_with_one_image !! cache_output_file c) /\
  exists w', cleanup world_with_one_image (Some line_highlighter) = (None, w', None) /\
             fs w' !! cache_output_file c = None /\
             length (spawned (snd (renderMermaidToPng c w'))) = 2.
Proof.
  intros P c es.
  assert (Hholds : holds_only_files (fs world_with_one_image) tempDir es).
  { split; [vm_compute; reflexivity|].
    split; [apply (bool_decide_unpack _); vm_compute; exact I|].
    split; apply (bool_decide_unpack _); vm_compute; exact I. }
  split; [exact Hholds|].
  split; [apply (bool_decide_unpack _); vm_compute; exact I|].
  destruct (cleanup_empties_cache world_with_one_image es (Some line_highlighter) Hholds)
    as (w' & Hclean & _ & Hnone & _ & _ & _ & Hagain).
  exists w'. split; [exact Hclean|]. split; [exact (Hnone _)|].
  destruct (Hagain c) as (w'' & Hrender & Hspawned).
  rewrite Hrender. cbn [snd]. rewrite Hspawned, length_app.
  assert (Hone : length (spawned world_with_one_image) = 1) by (vm_compute; reflexivity).
  rewrite Hone. reflexivity.
Defined.

Lemma unlink_all_app (dir : path) (l1 l2 : list jstring) (f : gmap path node) :
  unlink_all dir (l1 ++ l2) f
  = match unlink_all dir l1 f with
    | (None, f1) => unlink_all dir l2 f1
    | failed => failed
    end.
Proof.
  revert f. induction l1 as [|file l1 IH]; intros f; [done|].
  cbn [app unlink_all]. by destruct (unlinkSync (path_join dir file) f).
Qed.

(** X24: cleaning up stops at a directory. When the scratch directory
    lists a subdirectory, [cleanup] fails with the error of unlinking
    it: the files listed before it are gone, everything else is as it
    was, and the highlighter is not disposed. *)
Theorem cleanup_stops_at_a_directory `{Platform} (w : World)
    (before after : list jstring) (d : jstring) (sub : list jstring)
    (highlighterInstance : option Highlighter) :
  fs w !! tempDir = Some (Dir (before ++ d :: after)) ->
  NoDup before ->
  Forall (fun name => is_file (fs w) (path_join tempDir name) = true) before ->
  fs w !! path_join tempDir d = Some (Dir sub) ->
  exists w',
    cleanup w highlighterInstance
    = (Some (CleanupUnlink EISDIR (path_join tempDir d)), w', highlighterInstance) /\
    (forall name, name ∈ before -> fs w' !! path_join tempDir name = None) /\
    (forall q, (forall name, name ∈ before -> q <> path_join tempDir name) ->
               q <> tempDir -> fs w' !! q = fs w !! q).
Proof.
  intros Hdir Hnodup Hfiles Hsub.
  destruct (unlink_all_files tempDir before (fs w) Hnodup Hfiles)
    as (f1 & Hrun & Hnone & Hframe & _).
  assert (Hd : f1 !! path_join tempDir d = Some (Dir sub)).
  { rewrite Hframe; [done| |apply path_join_not_dir].
    intros name Hin Heq%path_join_inj. subst name.
    rewrite Forall_forall in Hfiles. specialize (Hfiles _ Hin).
    unfold is_file in Hfiles. by rewrite Hsub in Hfiles. }
  exists (set_fs f1 w). split; [|done].
  unfold cleanup. rewrite bool_decide_eq_true_2 by (rewrite Hdir; eauto).
  unfold readdirSync. rewrite Hdir, unlink_all_app, Hrun.
  cbn [unlink_all]. unfold unlinkSync. by rewrite Hd.
Qed.

Lemma cleanup_stops_at_a_directory_witness :
  let P := test_platform working_mmdc echo_engine in
  let w := mkWorld fs_with_nested_scratch [] [] in
  fs w !! path_join tempDir (js "keep") = Some (Dir []) /\
  exists w',
    cleanup w (Some line_highlighter)
    = (Some (CleanupUnlink EISDIR (path_join tempDir (js "keep"))), w',
       Some line_highlighter) /\
    fs w' !! path_join tempDir (js "old.png") = None /\
    fs w' !! path_join tempDir (js "new.png") = Some (File (js "PNG")).
Proof.
  intros P w.
  assert (Hdir : fs w !! tempDir = Some (Dir ([js "old.png"] ++ js "keep" :: [js "new.png"])))
    by (vm_compute; reflexivity).
  assert (Hnodup : NoDup [js "old.png"])
    by (apply (bool_decide_unpack _); vm_compute; exact I).
  assert (Hfiles : Forall (fun name => is_file (fs w) (path_join tempDir name) = true)
                          [js "old.png"])
    by (apply (bool_decide_unpack _); vm_compute; exact I).
  assert (Hsub : fs w !! path_join tempDir (js "keep") = Some (Dir []))
    by (vm_compute; reflexivity).
  split; [exact Hsub|].
  destruct (cleanup_stops_at_a_directory w [js "old.png"] [js "new.png"] (js "keep") []
              (Some line_highlighter) Hdir Hnodup Hfiles Hsub)
    as (w' & Hclean & Hgone & Hkept).
  exists w'. split; [exact Hclean|]. split.
  - apply Hgone. apply elem_of_cons. by left.
  - rewrite Hkept; [vm_compute; reflexivity| |apply path_join_not_dir].
    intros name Hin%list_elem_of_singleton Heq%path_join_inj. by subst.
Defined.

(** ** The arguments of the command line *)

Lemma parse_from_result (args : list jstring) (start options : CliOptions) :
  parse_from args start = Parsed options ->
  (cli_input options = cli_input start \/
   (cli_input options ∈ args /\ starts_with (js "-") (cli_input options) = false)) /\
  (forall value, cli_output options = Some value ->
     cli_output start = Some value \/ value ∈ args).
Proof.
  revert start.
  induction args as [args IH] using (induction_ltof1 _ (@length jstring)).
  intros start. destruct args as [|arg rest]; cbn [parse_from].
  { intros [= <-]. split; [by left|]. intros value Hv. by left. }
  assert (Hrest : forall next,
            parse_from rest next = Parsed options ->
            (cli_input next = cli_input start \/
             (cli_input next = arg /\ starts_with (js "-") arg = false)) ->
            cli_output next = cli_output start ->
            (cli_input options = cli_input start \/
             (cli_input options ∈ arg :: rest /\
              starts_with (js "-") (cli_input options) = false)) /\
            (forall value, cli_output options = Some value ->
               cli_output start = Some value \/ value ∈ arg :: rest)).
  { intros next Hrun Hin Hout.
    destruct (IH rest ltac:(unfold ltof; cbn; lia) next Hrun) as [Hi Ho]. split.
    - destruct Hi as [Hi | [Hi1 Hi2]].
      + rewrite Hi. destruct Hin as [Hin | [Hin1 Hin2]]; [by left|].
        right. rewrite Hin1. split; [by left|done].
      + right. split; [by right|done].
    - intros value Hv. destruct (Ho value Hv) as [Hs | Hs].
      + left. by rewrite <- Hout.
      + right. by right. }
  assert (Hrest' : forall value rest' next,
            rest = value :: rest' ->
            parse_from rest' next = Parsed options ->
            cli_input next = cli_input start ->
            (cli_output next = cli_output start \/ cli_output next = Some value) ->
            (cli_input options = cli_input start \/
             (cli_input options ∈ arg :: rest /\
              starts_with (js "-") (cli_input options) = false)) /\
            (forall value, cli_output options = Some value ->
               cli_output start = Some value \/ value ∈ arg :: rest)).
  { intros value rest' next -> Hrun Hin Hout.
    destruct (IH rest' ltac:(unfold ltof; cbn; lia) next Hrun) as [Hi Ho]. split.
    - destruct Hi as [Hi | [Hi1 Hi2]]; [left; by rewrite Hi|].
      right. split; [by do 2 right|done].
    - intros v Hv. destruct (Ho v Hv) as [Hs | Hs].
      + destruct Hout as [Hout | Hout]; rewrite Hout in Hs; [by left|].
        injection Hs as <-. right. right. by left.
      + right. by do 2 right. }
  destruct (is_one_of arg [js "-o"; js "--output"]).
  { destruct rest as [|value rest'].
    - intros [= <-]. split; [by left|]. done.
    - intros Hrun. eapply Hrest'; [done|exact Hrun|done|by right]. }
  destruct (is_one_of arg [js "-m"; js "--mermaid"]).
  { intros Hrun. eapply Hrest; [exact Hrun|by left|done]. }
  destruct (is_one_of arg [js "--no-mermaid"]).
  { intros Hrun. eapply Hrest; [exact Hrun|by left|done]. }
  destruct (is_one_of arg [js "-s"; js "--separator"]).
  { destruct rest as [|value rest']; [done|].
    destruct (separator_of value) as [sep|]; [|done].
    intros Hrun. eapply Hrest'; [done|exact Hrun|done|by left]. }
  destruct (is_one_of arg [js "-l"; js "--lang"]).
  { destruct rest as [|value rest'].
    - intros [= <-]. split; [by left|]. intros value Hv. by left.
    - intros Hrun. eapply Hrest'; [done|exact Hrun| |].
      + by destruct (language_of value).
      + left. by destruct (language_of value). }
  destruct (is_one_of arg [js "-h"; js "--help"]); [done|].
  destruct (starts_with (js "-") arg) eqn:Hdash; cbn [negb].
  - intros Hrun. eapply Hrest; [exact Hrun|by left|done].
  - intros Hrun. eapply Hrest; [exact Hrun|by right|done].
Qed.

Lemma parse_from_returns (args : list jstring) (start : CliOptions) :
  Forall (fun arg => arg ∉ [js "-h"; js "--help"; js "-s"; js "--separator"]) args ->
  exists options, parse_from args start = Parsed options.
Proof.
  revert start.
  induction args as [args IH] using (induction_ltof1 _ (@length jstring)).
  intros start Hall. destruct args as [|arg rest]; cbn [parse_from]; [by eexists|].
  apply Forall_cons in Hall as [Harg Hall].
  assert (Hnext : forall next, exists options, parse_from rest next = Parsed options)
    by (intros next; apply IH; [unfold ltof; cbn; lia|done]).
  assert (Hnext' : forall value rest' next, rest = value :: rest' ->
                     exists options, parse_from rest' next = Parsed options).
  { intros value rest' next ->. apply Forall_cons in Hall as [_ Hall].
    apply IH; [unfold ltof; cbn; lia|done]. }
  assert (Hs : is_one_of arg [js "-s"; js "--separator"] = false).
  { apply bool_decide_eq_false_2. intros Hin. apply Harg.
    apply elem_of_cons in Hin as [-> | Hin]; [by do 2 right; left|].
    apply list_elem_of_singleton in Hin as ->. by do 3 right; left. }
  assert (Hh : is_one_of arg [js "-h"; js "--help"] = false).
  { apply bool_decide_eq_false_2. intros Hin. apply Harg.
    apply elem_of_cons in Hin as [-> | Hin]; [by left|].
    apply list_elem_of_singleton in Hin as ->. by right; left. }
  rewrite Hs, Hh.
  destruct (is_one_of arg [js "-o"; js "--output"]).
  { destruct rest as [|value rest']; [by eexists|]. by eapply Hnext'. }
  destruct (is_one_of arg [js "-m"; js "--mermaid"]); [apply Hnext|].
  destruct (is_one_of arg [js "--no-mermaid"]); [apply Hnext|].
  destruct (is_one_of arg [js "-l"; js "--lang"]).
  { destruct rest as [|value rest']; [by eexists|]. by eapply Hnext'. }
  destruct (negb (starts_with (js "-") arg)); apply Hnext.
Qed.

(** X25: what the argument parser returns. The input it returns is empty
    or one of the arguments, and never starts with a dash, so a path
    that begins with a dash cannot be given; an output it returns is one
    of the arguments. The parser ends the process only on a help or a
    separator argument: a list without [-h], [--help], [-s] and
    [--separator] is always parsed. *)
Theorem parseArgs_result (args : list jstring) :
  (forall options, parseArgs args = Parsed options ->
     (cli_input options = [] \/
      (cli_input options ∈ args /\ starts_with (js "-") (cli_input options) = false)) /\
     (forall value, cli_output options = Some value -> value ∈ args)) /\
  (Forall (fun arg => arg ∉ [js "-h"; js "--help"; js "-s"; js "--separator"]) args ->
   exists options, parseArgs args = Parsed options).
Proof.
  split.
  - intros options Hrun. apply parse_from_result in Hrun as [Hi Ho]. split; [done|].
    intros value Hv. by destruct (Ho value Hv).
  - apply parse_from_returns.
Qed.

Lemma parseArgs_result_witness :
  let args := [js "-o"; js "-m"; js "--weird"; js "a.md"; js "-notes.md"; js "-o"] in
  parseArgs args
  = Parsed (mkCliOptions (js "a.md") None MermaidAuto pagebreak false None) /\
  (js "a.md" ∈ args /\ starts_with (js "-") (js "a.md") = false).
Proof.
  intros args.
  assert (Hrun : parseArgs args
                 = Parsed (mkCliOptions (js "a.md") None MermaidAuto pagebreak false None))
    by (vm_compute; reflexivity).
  split; [exact Hrun|].
  destruct (proj1 (proj1 (parseArgs_result args) _ Hrun)) as [Hempty | Hin]; [done|].
  exact Hin.
Defined.

(** ** The order of the printed list and the order of the merge *)

Lemma parts_leading_digits (digits rest : jstring) :
  digits <> [] ->
  forallb is_digit digits = true ->
  (forall c, head rest = Some c -> is_digit c = false) ->
  exists tokens, parts (digits ++ rest) = digits :: tokens.
Proof.
  intros Hne Hd Hrest. unfold parts.
  destruct digits as [|d digits]; [done|].
  cbn [app length match_runs].
  change (d :: digits ++ rest) with ((d :: digits) ++ rest).
  rewrite span_digits_stop by done. by eexists.
Qed.

Lemma naturalSort_leading_numbers `{Platform} (d1 d2 s1 s2 : jstring) :
  d1 <> [] -> d2 <> [] ->
  forallb is_digit d1 = true -> forallb is_digit d2 = true ->
  (forall c, head s1 = Some c -> is_digit c = false) ->
  (forall c, head s2 = Some c -> is_digit c = false) ->
  decimal_value d1 <> decimal_value d2 ->
  naturalSort (d1 ++ s1) (d2 ++ s2)
  = number_minus (decimal_value d1) (decimal_value d2) /\
  Z.sgn (naturalSort (d1 ++ s1) (d2 ++ s2))
  = Z.sgn (decimal_value d1 - decimal_value d2).
Proof.
  intros Hne1 Hne2 Hd1 Hd2 Hs1 Hs2 Hdiff.
  assert (Hrun : naturalSort (d1 ++ s1) (d2 ++ s2)
                 = number_minus (decimal_value d1) (decimal_value d2)).
  { unfold naturalSort.
    destruct (parts_leading_digits d1 s1 Hne1 Hd1 Hs1) as [t1 ->].
    destruct (parts_leading_digits d2 s2 Hne2 Hd2 Hs2) as [t2 ->].
    cbn [length Nat.max compare_from nth]. unfold compare_part.
    rewrite !parseInt_numeric by (by destruct d1, d2).
    apply Z.eqb_neq in Hdiff. by rewrite Hdiff. }
  split; [done|]. rewrite Hrun.
  apply number_minus_sgn; [apply to_double_range..|done].
Qed.

(** X26: the printed list and the merge can disagree. The command line
    prints the numbered list of a directory in the order of the default
    sort (by code units), and the converter merges in natural order: for
    two names that start with runs of digits parsed to different numbers
    such that the name with the smaller number is the greater one by
    code units (as with 2 and 10), the list shows them in one order and
    the document holds them in the other, whichever way the directory
    returns them. The numbers are the doubles [parseInt] returns, so
    runs that spell different integers and are parsed to the same
    double are not among them. *)
Theorem listed_order_is_not_merge_order `{Platform} (d1 d2 s1 s2 : jstring) :
  d1 <> [] -> d2 <> [] ->
  forallb is_digit d1 = true -> forallb is_digit d2 = true ->
  (forall c, head s1 = Some c -> is_digit c = false) ->
  (forall c, head s2 = Some c -> is_digit c = false) ->
  (decimal_value d1 < decimal_value d2)%Z ->
  (0 < code_unit_compare (d1 ++ s1) (d2 ++ s2))%Z ->
  let a := d1 ++ s1 in
  let b := d2 ++ s2 in
  sort_by code_unit_compare [a; b] = [b; a] /\
  sort_by code_unit_compare [b; a] = [b; a] /\
  sort_by naturalSort [a; b] = [a; b] /\
  sort_by naturalSort [b; a] = [a; b].
Proof.
  intros Hne1 Hne2 Hd1 Hd2 Hs1 Hs2 Hless Hunits a b.
  assert (Hab : Z.sgn (naturalSort a b) = Z.sgn (decimal_value d1 - decimal_value d2))
    by (apply naturalSort_leading_numbers; try done; lia).
  assert (Hba : Z.sgn (naturalSort b a) = Z.sgn (decimal_value d2 - decimal_value d1))
    by (apply naturalSort_leading_numbers; try done; lia).
  pose proof (code_unit_compare_swap a b) as Hswap. fold a b in Hunits.
  unfold sort_by. cbn [fold_right insert_by]. rewrite Hswap.
  destruct (Z.leb_spec (code_unit_compare a b) 0); [lia|].
  destruct (Z.leb_spec (- code_unit_compare a b) 0); [|lia].
  destruct (Z.leb_spec (naturalSort a b) 0); [|lia].
  destruct (Z.leb_spec (naturalSort b a) 0); [lia|].
  done.
Qed.

Lemma listed_order_is_not_merge_order_witness :
  let P := test_platform working_mmdc echo_engine in
  (decimal_value (js "2") < decimal_value (js "10"))%Z /\
  (0 < code_unit_compare (js "2-setup.md") (js "10-appendix.md"))%Z /\
  sort_by code_unit_compare [js "2-setup.md"; js "10-appendix.md"]
  = [js "10-appendix.md"; js "2-setup.md"] /\
  sort_by naturalSort [js "10-appendix.md"; js "2-setup.md"]
  = [js "2-setup.md"; js "10-appendix.md"].
Proof.
  intros P.
  assert (Hne1 : js "2" <> []) by done.
  assert (Hne2 : js "10" <> []) by done.
  assert (Hd1 : forallb is_digit (js "2") = true) by reflexivity.
  assert (Hd2 : forallb is_digit (js "10") = true) by reflexivity.
  assert (Hs1 : forall c, head (js "-setup.md") = Some c -> is_digit c = false)
    by (by intros c [= <-]).
  assert (Hs2 : forall c, head (js "-appendix.md") = Some c -> is_digit c = false)
    by (by intros c [= <-]).
  assert (Hless : (decimal_value (js "2") < decimal_value (js "10"))%Z)
    by (vm_compute; reflexivity).
  assert (Hunits : (0 < code_unit_compare (js "2" ++ js "-setup.md")
                                          (js "10" ++ js "-appendix.md"))%Z)
    by (vm_compute; reflexivity).
  split; [exact Hless|]. split; [exact Hunits|].
  destruct (listed_order_is_not_merge_order (js "2") (js "10") (js "-setup.md")
              (js "-appendix.md") Hne1 Hne2 Hd1 Hd2 Hs1 Hs2 Hless Hunits)
    as (Hlist & _ & _ & Hmerge).
  split; [exact Hlist|exact Hmerge].
Defined.
